(** * MavenUtils: a shallow embedding of [src/main/utils/mavenUtils.ts]

    The development follows the TypeScript source function by function.
    JavaScript strings are modelled as [string]: every [ascii] stands for
    one UTF-16 code unit below 256, so [\w], [\s], [toLowerCase] and the
    line terminators are the ones JavaScript has on that range.
    [undefined] is [None]; an array index is a [Z] where the source
    computes with a possibly negative number. *)

From Stdlib Require Import ZArith List Bool Ascii String Lia Sorted Permutation.
From stdpp Require Import gmap strings.

Import ListNotations.
Set Warnings "-register-all".
#[local] Arguments String.append !s1 s2 : simpl nomatch.
Open Scope string_scope.
Open Scope list_scope.
Open Scope Z_scope.

(** ** JavaScript string primitives used by the source *)

Module Js.

Definition code (c : ascii) : nat := nat_of_ascii c.

Definition between (lo hi n : nat) : bool := (Nat.leb lo n && Nat.leb n hi)%bool.

(** Letters and digits. *)
Definition isAlnum (c : ascii) : bool :=
  (between 48 57 (code c) || between 65 90 (code c) || between 97 122 (code c))%bool.

(** The class [\w] : letters, digits and the underscore. *)
Definition isWordChar (c : ascii) : bool :=
  (isAlnum c || Nat.eqb (code c) 95)%bool.

(** Line terminators representable on the range: LF and CR. *)
Definition isLineTerminator (c : ascii) : bool :=
  (Nat.eqb (code c) 10 || Nat.eqb (code c) 13)%bool.

(** The class [\s] on the range: TAB, LF, VT, FF, CR, space, NBSP. *)
Definition isSpace (c : ascii) : bool :=
  (between 9 13 (code c) || Nat.eqb (code c) 32 || Nat.eqb (code c) 160)%bool.

(** [String.prototype.toLowerCase] on the range. *)
Definition lowerChar (c : ascii) : ascii :=
  let n := code c in
  if (between 65 90 n || (between 192 222 n && negb (Nat.eqb n 215)))%bool
  then ascii_of_nat (n + 32) else c.

Fixpoint toLowerCase (s : string) : string :=
  match s with
  | EmptyString => EmptyString
  | String c s' => String (lowerChar c) (toLowerCase s')
  end.

Definition len (s : string) : Z := Z.of_nat (String.length s).

Fixpoint dropn (n : nat) (s : string) : string :=
  match n, s with
  | O, _ => s
  | S n', EmptyString => EmptyString
  | S n', String _ s' => dropn n' s'
  end.

Fixpoint taken (n : nat) (s : string) : string :=
  match n, s with
  | O, _ => EmptyString
  | S n', EmptyString => EmptyString
  | S n', String c s' => String c (taken n' s')
  end.

(** [s.slice(start)] : a negative [start] counts from the end. *)
Definition slice (s : string) (start : Z) : string :=
  let from := if start <? 0 then Z.max (len s + start) 0 else Z.min start (len s) in
  dropn (Z.to_nat from) s.

(** Index of the first character satisfying [p], as a natural number. *)
Fixpoint findChar (p : ascii -> bool) (s : string) : option nat :=
  match s with
  | EmptyString => None
  | String c s' => if p c then Some O else option_map S (findChar p s')
  end.

Definition indexOrMinusOne (o : option nat) : Z :=
  match o with Some i => Z.of_nat i | None => -1 end.

(** [s.search(/\w/)] *)
Definition searchWord (s : string) : Z := indexOrMinusOne (findChar isWordChar s).

(** [s.split(sep)] for a one-character separator: never the empty array. *)
Fixpoint split (sep : ascii) (s : string) : list string :=
  match s with
  | EmptyString => [EmptyString]
  | String c s' =>
      if Ascii.eqb c sep then EmptyString :: split sep s'
      else match split sep s' with
           | [] => [String c EmptyString]
           | f :: fs => String c f :: fs
           end
  end.

(** [parts.join(sep)] *)
Fixpoint join (sep : string) (parts : list string) : string :=
  match parts with
  | [] => EmptyString
  | [p] => p
  | p :: ps => p +:+ sep +:+ join sep ps
  end.

Fixpoint prefixb (p s : string) : bool :=
  match p, s with
  | EmptyString, _ => true
  | String _ _, EmptyString => false
  | String a p', String b s' => (Ascii.eqb a b && prefixb p' s')%bool
  end.

(** [s.indexOf(needle)] as an option. *)
Fixpoint indexOfNat (needle s : string) : option nat :=
  if prefixb needle s then Some O
  else match s with
       | EmptyString => None
       | String _ s' => option_map S (indexOfNat needle s')
       end.

Definition indexOf (s needle : string) : Z := indexOrMinusOne (indexOfNat needle s).

(** [s.includes(needle)] *)
Definition includes (s needle : string) : bool :=
  match indexOfNat needle s with Some _ => true | None => false end.

(** Array indexing [a[i]] with a number that may be negative or too big. *)
Definition at_ {A} (a : list A) (i : Z) : option A :=
  if i <? 0 then None else nth_error a (Z.to_nat i).

(** String coercion of a possibly undefined string (concatenation with
    [+], the argument of [includes]). *)
Definition toStr (o : option string) : string :=
  match o with Some s => s | None => "undefined" end.

(** [s.replace(/\s/g, '')] *)
Fixpoint removeSpaces (s : string) : string :=
  match s with
  | EmptyString => EmptyString
  | String c s' => if isSpace c then removeSpaces s' else String c (removeSpaces s')
  end.

Fixpoint trimStart (s : string) : string :=
  match s with
  | String c s' => if isSpace c then trimStart s' else s
  | EmptyString => EmptyString
  end.

Fixpoint trimEnd (s : string) : string :=
  match s with
  | EmptyString => EmptyString
  | String c s' =>
      match trimEnd s' with
      | EmptyString => if isSpace c then EmptyString else String c EmptyString
      | t => String c t
      end
  end.

(** [s.trim()] *)
Definition trim (s : string) : string := trimEnd (trimStart s).

End Js.

(** ** Identity parser *)

(** [getDependencyInfo]: split on [:], skip the characters before the
    first [\w] of field 0, return fields 0, 1 and [length - 2].
    [split] never returns the empty array, so [result[0]] is a string;
    the other two reads may be [undefined]. *)
Definition getDependencyInfo (rawDependency : string)
  : string * option string * option string :=
  let result := Js.split ":" rawDependency in
  let field0 := hd EmptyString result in
  let startIndex := Js.searchWord field0 in
  (Js.slice field0 startIndex,
   Js.at_ result 1,
   Js.at_ result (Z.of_nat (List.length result) - 2)).

(** [getProjectInfo]: as above on the text without white space, with a
    scope field appended. *)
Definition getProjectInfo (rawDependency : string)
  : string * option string * option string :=
  getDependencyInfo (Js.removeSpaces rawDependency +:+ ":dummyScope").

(** ** Completions: a call returns normally or throws *)

Inductive Exn : Type :=
| SyntaxError
| ExecError (stdout : option string).

Inductive Completion (A : Type) : Type :=
| Normal (a : A)
| Throw (e : Exn).

Arguments Normal {A} a.
Arguments Throw {A} e.

(** ** Dependency attribution filter *)

(** The regular-expression engine of the host. [regexpMatches source text]
    is [Some b] when [new RegExp(source, 'mg')] is built and [b] tells
    whether [text.match(regex)] is not [null]; it is [None] when the
    constructor throws a [SyntaxError]. *)
Class RegExpEngine : Type := {
  regexpMatches : string -> string -> option bool
}.

(** [Array.prototype.filter] with a callback that may throw: the first
    exception ends the traversal. *)
Fixpoint filterM {A} (keep : A -> Completion bool) (l : list A) : Completion (list A) :=
  match l with
  | [] => Normal []
  | x :: l' =>
      match keep x with
      | Throw e => Throw e
      | Normal b =>
          match filterM keep l' with
          | Throw e => Throw e
          | Normal r => Normal (if b then x :: r else r)
          end
      end
  end.

(** The part of a child line that is spliced into the pattern:
    [childDep.slice(childDep.search(/\w/))]. *)
Definition childSuffix (childDep : string) : string :=
  Js.slice childDep (Js.searchWord childDep).

(** The pattern text of the template literal. *)
Definition childPattern (childDep : string) : string :=
  "^.*" +:+ childSuffix childDep +:+ ".*$".

(** The callback of [filter] in [filterParentDependencies]. *)
Definition keepChild `{RegExpEngine} (rawParentDep childDep : string) : Completion bool :=
  match regexpMatches (childPattern childDep) rawParentDep with
  | None => Throw SyntaxError
  | Some matched => Normal (Bool.eqb matched false)
  end.

(** [filterParentDependencies]: [None] is the [undefined] result. An
    array is truthy even when it is empty. *)
Definition filterParentDependencies `{RegExpEngine}
    (childDependencies : list string) (parentDeps : option (list string))
  : Completion (option (list string)) :=
  match parentDeps with
  | Some deps =>
      let rawParentDep := Js.join " " deps in
      match filterM (keepChild rawParentDep) childDependencies with
      | Normal kept => Normal (Some kept)
      | Throw e => Throw e
      end
  | None => Normal None
  end.

(** *** What the engine does on the patterns without operators *)

(** The syntax characters of a pattern: [^ $ \ . * + ? ( ) [ ] { } |]. *)
Definition isSyntaxChar (c : ascii) : bool :=
  existsb (Nat.eqb (Js.code c)) [94; 36; 92; 46; 42; 43; 63; 40; 41; 91; 93; 123; 125; 124]%nat.

Definition isDot (c : ascii) : bool := Nat.eqb (Js.code c) 46.

Fixpoint allChars (p : ascii -> bool) (s : string) : bool :=
  match s with
  | EmptyString => true
  | String c s' => (p c && allChars p s')%bool
  end.

(** Every character is either no syntax character or a dot. *)
Definition literalOrDot (s : string) : bool :=
  allChars (fun c => (negb (isSyntaxChar c) || isDot c)%bool) s.

(** No syntax character at all. *)
Definition literalOnly (s : string) : bool :=
  allChars (fun c => negb (isSyntaxChar c)) s.

(** One pattern character against one text character: a dot stands for
    every character that is no line terminator. *)
Definition matchChar (p t : ascii) : bool :=
  if isDot p then negb (Js.isLineTerminator t) else Ascii.eqb p t.

Fixpoint matchHere (body text : string) : bool :=
  match body, text with
  | EmptyString, _ => true
  | String _ _, EmptyString => false
  | String p body', String t text' => (matchChar p t && matchHere body' text')%bool
  end.

Fixpoint matchSomewhere (body text : string) : bool :=
  (matchHere body text
   || match text with
      | EmptyString => false
      | String _ text' => matchSomewhere body text'
      end)%bool.

(** With the flags [mg] the anchors [^.*] and [.*$] around a body of
    literal characters and dots hold at every position: the pattern
    matches exactly when the body matches somewhere in the text. *)
Definition RegExpOnLiterals (E : RegExpEngine) : Prop :=
  forall body text,
    literalOrDot body = true ->
    regexpMatches ("^.*" +:+ body +:+ ".*$") text = Some (matchSomewhere body text).

(** The filter as the specification words it: a child line is dropped
    when its suffix from the first alphanumeric character occurs in the
    joined parent text. *)
Definition alnumSuffix (childDep : string) : string :=
  Js.slice childDep (Js.indexOrMinusOne (Js.findChar Js.isAlnum childDep)).

Definition filterInherited_spec (childDeps : list string) (parentDeps : option (list string))
  : option (list string) :=
  match parentDeps with
  | Some deps =>
      Some (List.filter (fun c => negb (Js.includes (Js.join " " deps) (alnumSuffix c))) childDeps)
  | None => None
  end.

(** ** Descriptor position locator *)

Record Position : Type := mkPosition { line : Z; character : Z }.

(** [vscode.TextDocument], reduced to the two members the source calls. *)
Record TextDocument : Type := mkTextDocument {
  getText : string;
  positionAt : Z -> Position
}.

(** Modelled from the spec: the consuming tree's node types
    ([DependenciesTreeNode] and its subclass [MavenTreeNode], declared
    outside this file). A node gives its component identity, tells
    whether it is a module-root node ([instanceof MavenTreeNode]) and
    links to its parent; the parent chain of a tree node is finite. *)
Inductive DependenciesTreeNode : Type :=
| TreeNode (componentId : string) (isMavenTreeNode : bool)
           (parent : option DependenciesTreeNode).

Definition getComponentId (n : DependenciesTreeNode) : string :=
  match n with TreeNode c _ _ => c end.

Definition instanceofMavenTreeNode (n : DependenciesTreeNode) : bool :=
  match n with TreeNode _ m _ => m end.

Definition nodeParent (n : DependenciesTreeNode) : option DependenciesTreeNode :=
  match n with TreeNode _ _ p => p end.

(** Case-insensitive comparison of the [i] flag: only the ASCII letters
    fold, a character above 127 never equals an ASCII one. *)
Definition upperAscii (c : ascii) : ascii :=
  if Js.between 97 122 (Js.code c) then ascii_of_nat (Js.code c - 32) else c.

Fixpoint ciPrefixb (p s : string) : bool :=
  match p, s with
  | EmptyString, _ => true
  | String _ _, EmptyString => false
  | String a p', String b s' =>
      (Ascii.eqb (upperAscii a) (upperAscii b) && ciPrefixb p' s')%bool
  end.

Fixpoint ciIndexOf (needle s : string) : option nat :=
  if ciPrefixb needle s then Some O
  else match s with
       | EmptyString => None
       | String _ s' => option_map S (ciIndexOf needle s')
       end.

Definition openTag : string := "<dependency>".
Definition closeTag : string := "</dependency>".

(** The block matched at the head of [text] by
    [<dependency>(.|\s)*?</dependency>] with the flag [i]: the opening
    tag, the shortest run of arbitrary characters, the closing tag. *)
Definition blockHere (text : string) : option string :=
  if ciPrefixb openTag text then
    match ciIndexOf closeTag (Js.dropn (String.length openTag) text) with
    | Some j => Some (Js.taken (String.length openTag + j + String.length closeTag) text)
    | None => None
    end
  else None.

(** All matches, left to right and without overlap (flag [g]): [skip]
    counts the characters of the last match still to be passed. *)
Fixpoint matchBlocks (skip : nat) (text : string) : list string :=
  match text with
  | EmptyString => []
  | String _ text' =>
      match skip with
      | S k => matchBlocks k text'
      | O =>
          match blockHere text with
          | Some block => block :: matchBlocks (String.length block - 1) text'
          | None => matchBlocks O text'
          end
      end
  end.

(** [content.match(/<dependency>(.|\s)*?<\/dependency>/gi)], with the
    empty list for [null]. *)
Definition matchDependencyBlocks (content : string) : list string :=
  matchBlocks O content.

Definition LF : ascii := ascii_of_nat 10.
Definition CR : ascii := ascii_of_nat 13.

(** [s.split(/\r?\n/)] *)
Fixpoint splitCrLf (s : string) : list string :=
  let cons c r :=
    match r with
    | [] => [String c EmptyString]
    | f :: fs => String c f :: fs
    end in
  match s with
  | EmptyString => [EmptyString]
  | String c s' =>
      if Ascii.eqb c LF then EmptyString :: splitCrLf s'
      else if Ascii.eqb c CR then
        match s' with
        | String d s'' =>
            if Ascii.eqb d LF then EmptyString :: splitCrLf s''
            else cons c (splitCrLf s')
        | EmptyString => cons c (splitCrLf s')
        end
      else cons c (splitCrLf s')
  end.

(** The loop over the non-blank lines of the matched block: two
    positions for every line that is one of the three tagged fields. *)
Fixpoint fieldPositions (startLine : Z) (groupId artifactId version : string)
    (i : Z) (arr : list string) : list Position :=
  match arr with
  | [] => []
  | l :: arr' =>
      let depInfo := Js.toLowerCase (Js.trim l) in
      let here :=
        if (String.eqb depInfo ("<groupid>" +:+ groupId +:+ "</groupid>")
            || String.eqb depInfo ("<artifactid>" +:+ artifactId +:+ "</artifactid>")
            || String.eqb depInfo ("<version>" +:+ version +:+ "</version>"))%bool
        then [mkPosition (startLine + i) (Js.indexOf l "<");
              mkPosition (startLine + i) (Js.len l)]
        else [] in
      here ++ fieldPositions startLine groupId artifactId version (i + 1) arr'
  end.

(** The blocks of the document that contain the group and the artifact
    of the node: [dependencyMatch], with the empty list for [undefined]. *)
Definition dependencyMatch (document : TextDocument) (n : DependenciesTreeNode) : list string :=
  let parts := Js.split ":" (Js.toLowerCase (getComponentId n)) in
  let groupId := Js.toStr (Js.at_ parts 0) in
  let artifactId := Js.toStr (Js.at_ parts 1) in
  List.filter (fun group => (Js.includes group groupId && Js.includes group artifactId)%bool)
              (matchDependencyBlocks (getText document)).

(** The positions recorded for the first block that matched. *)
Definition positionsInBlock (document : TextDocument) (n : DependenciesTreeNode)
    (block : string) : list Position :=
  let pomXmlContent := getText document in
  let parts := Js.split ":" (Js.toLowerCase (getComponentId n)) in
  let groupId := Js.toStr (Js.at_ parts 0) in
  let artifactId := Js.toStr (Js.at_ parts 1) in
  let version := Js.toStr (Js.at_ parts 2) in
  let startIndex := positionAt document (Js.indexOf pomXmlContent block) in
  let arr := List.filter (fun l => negb (String.eqb (Js.trim l) EmptyString))
                         (splitCrLf block) in
  fieldPositions (line startIndex) groupId artifactId version 0 arr.

(** The body of [getDependencyPos] for a node that is defined. *)
Fixpoint getDependencyPosOf (document : TextDocument) (n : DependenciesTreeNode)
  : list Position :=
  match dependencyMatch document n with
  | block :: _ => positionsInBlock document n block
  | [] =>
      match n with
      | TreeNode _ isMaven parent =>
          if negb isMaven then
            match parent with
            | Some p => getDependencyPosOf document p
            | None => []
            end
          else []
      end
  end.

(** [getDependencyPos]: [None] is the [undefined] node. *)
Definition getDependencyPos (document : TextDocument)
    (dependenciesTreeNode : option DependenciesTreeNode) : list Position :=
  match dependenciesTreeNode with
  | None => []
  | Some n => getDependencyPosOf document n
  end.

(** [getDependenciesPos]: the position of the first [<dependencies>]. *)
Definition getDependenciesPos (document : TextDocument) : list Position :=
  match Js.indexOfNat "<dependencies>" (getText document) with
  | None => []
  | Some index =>
      let start := positionAt document (Z.of_nat index) in
      [start; mkPosition (line start) (character start + Js.len "<dependencies>")]
  end.

(** The recursion as the specification words it: when no block matches
    at a node that is no module root, the search goes on in the
    descriptor text of the parent, for the same identity. *)
Fixpoint findDependencyPosition_spec (descriptorOf : DependenciesTreeNode -> TextDocument)
    (document : TextDocument) (target : DependenciesTreeNode) (n : DependenciesTreeNode)
  : list Position :=
  match dependencyMatch document target with
  | block :: _ => positionsInBlock document target block
  | [] =>
      match n with
      | TreeNode _ isMaven parent =>
          if negb isMaven then
            match parent with
            | Some p => findDependencyPosition_spec descriptorOf (descriptorOf p) target p
            | None => []
            end
          else []
      end
  end.

(** ** Logging *)

Inductive LogLevel : Type := DEBUG | INFO | WARN | ERR.

(** One call of [logManager.logMessage]; the message of the second error
    line may be [undefined]. *)
Record LogEntry : Type := mkLogEntry {
  logText : option string;
  logLevel : LogLevel
}.

(** ** Sorting *)

(** [Array.prototype.sort] with a comparator: a stable sort, written as
    an insertion sort. [cmp a b > 0] puts [a] behind [b]. *)
Fixpoint insertBy {A} (cmp : A -> A -> Z) (x : A) (l : list A) : list A :=
  match l with
  | [] => [x]
  | y :: l' => if cmp x y <=? 0 then x :: y :: l' else y :: insertBy cmp x l'
  end.

Fixpoint sortBy {A} (cmp : A -> A -> Z) (l : list A) : list A :=
  match l with
  | [] => []
  | x :: l' => insertBy cmp x (sortBy cmp l')
  end.

(** ** Descriptor locator *)

(** [vscode.Uri]: the file-system path and the text [toString()] gives. *)
Record Uri : Type := mkUri {
  fsPath : string;
  uriText : string
}.

Record WorkspaceFolder : Type := mkWorkspaceFolder {
  wsName : string;
  wsUri : Uri
}.

(** The file search of the editor for one workspace folder:
    [vscode.workspace.findFiles] on the pattern [**/pom.xml] under the
    folder, with the exclusion pattern of the folder. *)
Class FileSearch : Type := {
  findFiles : WorkspaceFolder -> list Uri
}.

(** The comparison of the host's locale: [a.localeCompare(b)]. *)
Class Locale : Type := {
  localeCompare : string -> string -> Z
}.

(** The comparison is a total preorder on the paths: it changes sign
    when its arguments are swapped and it is transitive. It may be zero
    on two different paths: a tie. *)
Record LocalePreorder (L : Locale) : Prop := {
  compare_flip : forall a b, localeCompare a b < 0 <-> 0 < localeCompare b a;
  compare_trans : forall a b c,
    localeCompare a b <= 0 -> localeCompare b c <= 0 -> localeCompare a c <= 0
}.

(** No tie among the paths found: the comparison is zero on two of
    them only when they are the same path. *)
Definition TieFree `{Locale} (found : list Uri) : Prop :=
  forall u v, In u found -> In v found ->
              localeCompare (fsPath u) (fsPath v) = 0 -> fsPath u = fsPath v.

(** The paths found are those of files: the text of a [Uri] and its
    path determine each other. *)
Definition FileUris (found : list Uri) : Prop :=
  forall u v, In u found -> In v found -> (uriText u = uriText v <-> fsPath u = fsPath v).

(** All the paths the searches return, folder after folder. *)
Definition allFound `{FileSearch} (workspaceFolders : list WorkspaceFolder) : list Uri :=
  concat (List.map findFiles workspaceFolders).

(** [Collections.Set] of typescript-collections: a dictionary from the
    text key of an element to the element, in insertion order. The key
    of an object is ["$o"] followed by its [toString()]. *)
Definition CollectionsSet : Type := list (string * Uri).

Definition setKey (u : Uri) : string := "$o" +:+ uriText u.

Definition setContains (s : CollectionsSet) (u : Uri) : bool :=
  existsb (fun kv => String.eqb (fst kv) (setKey u)) s.

(** [set.add(u)]: nothing happens when the key is already there. *)
Definition setAdd (s : CollectionsSet) (u : Uri) : CollectionsSet :=
  if setContains s u then s else s ++ [(setKey u, u)].

Definition setToArray (s : CollectionsSet) : list Uri := List.map snd s.

(** Every key of the set is the key of its element, and no key occurs
    twice. *)
Definition wfSet (s : CollectionsSet) : Prop :=
  (forall k u, In (k, u) s -> k = setKey u) /\ List.NoDup (List.map fst s).

(** The [for] loop of [locatePomXmls] over the workspace folders. *)
Fixpoint collectPomXmls `{FileSearch} (workspaceFolders : list WorkspaceFolder)
    (pomXmls : CollectionsSet) (log : list LogEntry) : CollectionsSet * list LogEntry :=
  match workspaceFolders with
  | [] => (pomXmls, log)
  | workspace :: rest =>
      let log' := log ++ [mkLogEntry (Some ("Locating pom.xml files in workspace " +:+ wsName workspace)) INFO] in
      let wsPomXmls := findFiles workspace in
      collectPomXmls rest (fold_left setAdd wsPomXmls pomXmls) log'
  end.

(** [locatePomXmls]: the paths found and the lines logged. *)
Definition locatePomXmls `{FileSearch} `{Locale} (workspaceFolders : list WorkspaceFolder)
  : list Uri * list LogEntry :=
  let '(pomXmls, log) := collectPomXmls workspaceFolders [] [] in
  let result := setToArray pomXmls in
  (if (Z.of_nat (List.length result) >? 1)
   then sortBy (fun a b => localeCompare (fsPath a) (fsPath b)) result
   else result,
   log).

(** ** GAV resolver *)

(** One run of a command: the command line and the working directory. *)
Record Invocation : Type := mkInvocation {
  command : string;
  cwd : option string
}.

Inductive ExecResult : Type :=
| ExecOk (stdout : string)
| ExecFailed (stdout : option string).

(** [ScanUtils.executeCmd]: the outcome of a run may depend on the runs
    made before it. *)
Class Shell : Type := {
  executeCmd : list Invocation -> Invocation -> ExecResult
}.

(** [path.dirname] of the host platform. *)
Class NodePath : Type := {
  dirname : string -> string
}.

(** One line of the reader's output after [JSON.parse], read at the
    three fields the source takes from it. *)
Record GavLine : Type := mkGavLine {
  pomPath_ : string;
  gav_ : string;
  parentGav_ : string
}.

(** [JSON.parse] on a line of the reader: [None] when it throws. *)
Class JsonReader : Type := {
  JSON_parse : string -> option GavLine
}.

(** What the call changes beside the cache: the commands run, the lines
    logged and the process-wide installation flag. *)
Record World : Type := mkWorld {
  invocations : list Invocation;
  logged : list LogEntry;
  mavenGavReaderInstalled : bool
}.

Definition logMessage (w : World) (text : option string) (lvl : LogLevel) : World :=
  mkWorld (invocations w) (logged w ++ [mkLogEntry text lvl]) (mavenGavReaderInstalled w).

(** Run a command: the run is recorded, then its outcome is returned. *)
Definition runCmd `{Shell} (w : World) (inv : Invocation) : World * ExecResult :=
  (mkWorld (invocations w ++ [inv]) (logged w) (mavenGavReaderInstalled w),
   executeCmd (invocations w) inv).

Definition BACKSLASH : ascii := ascii_of_nat 92.
Definition DQUOTE : ascii := ascii_of_nat 34.

(** [s.split(/\r\n|\r|\n/)] *)
Fixpoint splitLines (s : string) : list string :=
  match s with
  | EmptyString => [EmptyString]
  | String c s' =>
      if Ascii.eqb c LF then EmptyString :: splitLines s'
      else if Ascii.eqb c CR then
        match s' with
        | String d s'' =>
            if Ascii.eqb d LF then EmptyString :: splitLines s''
            else EmptyString :: splitLines s'
        | EmptyString => EmptyString :: splitLines s'
        end
      else match splitLines s' with
           | [] => [String c EmptyString]
           | f :: fs => String c f :: fs
           end
  end.

(** [s.replace(/\\/g, '\\\\')]: every backslash is doubled. *)
Fixpoint escapeBackslashes (s : string) : string :=
  match s with
  | EmptyString => EmptyString
  | String c s' =>
      if Ascii.eqb c BACKSLASH then String c (String c (escapeBackslashes s'))
      else String c (escapeBackslashes s')
  end.

(** The index of the first [']'] of [s], when no line terminator comes
    before it. *)
Fixpoint closingBracket (s : string) : option nat :=
  match s with
  | EmptyString => None
  | String c s' =>
      if Ascii.eqb c "]" then Some O
      else if Js.isLineTerminator c then None
      else option_map S (closingBracket s')
  end.

(** [s.replace(/(\[.*?\])/g, '')]: [skip] counts the characters of the
    tag being removed. *)
Fixpoint stripBracketTags (skip : nat) (s : string) : string :=
  match s with
  | EmptyString => EmptyString
  | String c s' =>
      match skip with
      | S k => stripBracketTags k s'
      | O =>
          if Ascii.eqb c "[" then
            match closingBracket s' with
            | Some k => stripBracketTags (S k) s'
            | None => String c (stripBracketTags O s')
            end
          else String c (stripBracketTags O s')
      end
  end.

(** The lines handed to [forEach]: split, drop the empty ones, escape. *)
Definition gavLines (mvnGavRes : string) : list string :=
  List.map escapeBackslashes
    (List.filter (fun l => negb (String.eqb l EmptyString)) (splitLines mvnGavRes)).

(** The [forEach] over the lines: [false] when [JSON.parse] threw; the
    entries written before the throw stay in the cache. *)
Fixpoint populateCache `{JsonReader} (lines : list string)
    (pomIdCache : gmap string (string * string)) : gmap string (string * string) * bool :=
  match lines with
  | [] => (pomIdCache, true)
  | mvnGav :: rest =>
      match JSON_parse mvnGav with
      | None => (pomIdCache, false)
      | Some mvnGavJson =>
          populateCache rest
            (<[pomPath_ mvnGavJson := (gav_ mvnGavJson, parentGav_ mvnGavJson)]> pomIdCache)
      end
  end.

Definition gavReaderCommand : string := "mvn com.jfrog.ide:maven-gav-reader:gav -q".

Definition couldNotParseMessage (pathToPomXml : string) : string :=
  "Could not get parse pom.xml GAV." +:+ String LF EmptyString
  +:+ "Try Install it by running " +:+ String DQUOTE EmptyString +:+ "mvn clean install"
  +:+ String DQUOTE EmptyString +:+ " from " +:+ pathToPomXml +:+ ".".

(** The [catch] block of [getPomDetails]. *)
Definition logResolutionFailure (w : World) (pathToPomXml : string)
    (errorStdout : option string) : World :=
  let w1 := logMessage w (Some (couldNotParseMessage pathToPomXml)) ERR in
  logMessage w1 (option_map (stripBracketTags O) errorStdout) ERR.

(** [getPomDetails]: the pair found, the cache and the world after the
    call. *)
Definition getPomDetails `{Shell} `{NodePath} `{JsonReader}
    (pathToPomXml : string) (w : World) (pomIdCache : gmap string (string * string))
  : (string * string) * gmap string (string * string) * World :=
  match pomIdCache !! pathToPomXml with
  | Some gav => (gav, pomIdCache, w)
  | None =>
      let '(w1, res) := runCmd w (mkInvocation gavReaderCommand (Some (dirname pathToPomXml))) in
      match res with
      | ExecOk mvnGavRes =>
          let '(cache1, finished) := populateCache (gavLines mvnGavRes) pomIdCache in
          if finished then
            (match cache1 !! pathToPomXml with
             | Some gav => gav
             | None => (EmptyString, EmptyString)
             end, cache1, w1)
          else ((EmptyString, EmptyString), cache1, logResolutionFailure w1 pathToPomXml None)
      | ExecFailed out =>
          ((EmptyString, EmptyString), pomIdCache, logResolutionFailure w1 pathToPomXml out)
      end
  end.

(** ** Prototype tree *)

(** Modelled from the spec: the class [PomTree] (declared in
    [pomTree.ts], outside this file). A node has its identity, the
    identity of its parent (empty when none is known), the directory of
    its descriptor (empty for a placeholder) and its children in order;
    the children are owned by the node alone. [new PomTree(gav)] has no
    parent identity, no directory and no children; [addChild] appends;
    [deepSearch] looks for an identity in the node, then in its children
    from left to right, depth first.

    The builder hands every node on exactly once (a node spliced out of
    the array is put back under one parent or at the end of the array),
    so a node is a value here and the update of a node found by
    [deepSearch] is the update of the first node with that identity in
    the same traversal order. *)
Inductive PomTree : Type :=
| PomNode (pomGav parentGav pomPath : string) (children : list PomTree).

Definition pomGav (t : PomTree) : string :=
  match t with PomNode g _ _ _ => g end.

Definition parentGav (t : PomTree) : string :=
  match t with PomNode _ pg _ _ => pg end.

Definition pomPath (t : PomTree) : string :=
  match t with PomNode _ _ p _ => p end.

Definition children (t : PomTree) : list PomTree :=
  match t with PomNode _ _ _ cs => cs end.

Definition newPomTree (gav : string) : PomTree :=
  PomNode gav EmptyString EmptyString [].

(** The two assignments [currNode.pomPath = ...; currNode.parentGav = ...]. *)
Definition setPathAndParent (t : PomTree) (path parent : string) : PomTree :=
  PomNode (pomGav t) parent path (children t).

(** [this.addChild(node)] *)
Definition addChild (t node : PomTree) : PomTree :=
  PomNode (pomGav t) (parentGav t) (pomPath t) (children t ++ [node]).

(** [tree.deepSearch(gav)] *)
Fixpoint deepSearch (gav : string) (t : PomTree) : option PomTree :=
  match t with
  | PomNode g _ _ cs =>
      if String.eqb g gav then Some t
      else (fix searchChildren (l : list PomTree) : option PomTree :=
              match l with
              | [] => None
              | c :: l' =>
                  match deepSearch gav c with
                  | Some found => Some found
                  | None => searchChildren l'
                  end
              end) cs
  end.

(** [getPrototypeNode]: the first tree of the array in which
    [deepSearch] finds the identity. *)
Fixpoint getPrototypeNode (prototypeTreeArray : list PomTree) (gav : string) : option PomTree :=
  match prototypeTreeArray with
  | [] => None
  | prototypeTree :: rest =>
      match deepSearch gav prototypeTree with
      | Some node => Some node
      | None => getPrototypeNode rest gav
      end
  end.

(** [addChild] on the node that [deepSearch] finds in [t]: [None] when
    the identity is not in [t]. *)
Fixpoint addChildUnder (gav : string) (node : PomTree) (t : PomTree) : option PomTree :=
  match t with
  | PomNode g pg p cs =>
      if String.eqb g gav then Some (addChild t node)
      else option_map (PomNode g pg p)
             ((fix inChildren (l : list PomTree) : option (list PomTree) :=
                 match l with
                 | [] => None
                 | c :: l' =>
                     match addChildUnder gav node c with
                     | Some c' => Some (c' :: l')
                     | None => option_map (cons c) (inChildren l')
                     end
                 end) cs)
  end.

(** [addChild] on the node that [getPrototypeNode] finds; the array is
    unchanged when there is none. *)
Fixpoint addChildInArray (gav : string) (node : PomTree) (pomArray : list PomTree)
  : list PomTree :=
  match pomArray with
  | [] => []
  | t :: rest =>
      match addChildUnder gav node t with
      | Some t' => t' :: rest
      | None => t :: addChildInArray gav node rest
      end
  end.

(** [addPrototypeNode] *)
Definition addPrototypeNode (pomArray : list PomTree) (node : PomTree) : list PomTree :=
  if negb (String.eqb (parentGav node) EmptyString) then
    match getPrototypeNode pomArray (parentGav node) with
    | Some parentNode => addChildInArray (parentGav node) node pomArray
    | None =>
        let parentPom := addChild (newPomTree (parentGav node)) node in
        pomArray ++ [parentPom]
    end
  else pomArray ++ [node].

(** [searchPomGav]: [findIndex] over the elements of the array. *)
Fixpoint findIndexFrom (gav : string) (i : Z) (pomTreeArray : list PomTree) : Z :=
  match pomTreeArray with
  | [] => -1
  | pomTree :: rest =>
      if String.eqb (pomGav pomTree) gav then i else findIndexFrom gav (i + 1) rest
  end.

Definition searchPomGav (pomTreeArray : list PomTree) (gav : string) : Z :=
  findIndexFrom gav 0 pomTreeArray.

(** [a.splice(i, 1)]: the array without its element at [i]. *)
Definition spliceOne {A} (a : list A) (i : nat) : list A :=
  firstn i a ++ skipn (S i) a.

(** A descriptor with the pair the resolver gave for it. *)
Record ResolvedPom : Type := mkResolvedPom {
  rpPath : string;
  rpGav : string;
  rpParentGav : string
}.

(** The body of the [forEach] once the pair is known. *)
Definition addPom `{NodePath} (prototypeTree : list PomTree) (pom : ResolvedPom)
  : list PomTree :=
  if negb (String.eqb (rpGav pom) EmptyString) then
    let index := searchPomGav prototypeTree (rpGav pom) in
    let '(currNode, prototypeTree1) :=
      if index >? -1
      then (nth (Z.to_nat index) prototypeTree (newPomTree (rpGav pom)),
            spliceOne prototypeTree (Z.to_nat index))
      else (newPomTree (rpGav pom), prototypeTree) in
    let currNode := setPathAndParent currNode (dirname (rpPath pom)) (rpParentGav pom) in
    addPrototypeNode prototypeTree1 currNode
  else prototypeTree.

(** The [forEach] over the sorted descriptors: the cache and the world
    are threaded through the calls of [getPomDetails]. *)
Fixpoint forEachPom `{Shell} `{NodePath} `{JsonReader} (poms : list Uri) (w : World)
    (pomIdCache : gmap string (string * string)) (prototypeTree : list PomTree)
  : list PomTree * gmap string (string * string) * World :=
  match poms with
  | [] => (prototypeTree, pomIdCache, w)
  | pom :: rest =>
      let '(gavs, cache1, w1) := getPomDetails (fsPath pom) w pomIdCache in
      forEachPom rest w1 cache1
        (addPom prototypeTree (mkResolvedPom (fsPath pom) (fst gavs) (snd gavs)))
  end.

(** The number of nodes of a tree and of an array of trees. *)
Fixpoint treeSize (t : PomTree) : nat :=
  match t with
  | PomNode _ _ _ cs =>
      S ((fix sizes (l : list PomTree) : nat :=
            match l with
            | [] => O
            | c :: l' => (treeSize c + sizes l')%nat
            end) cs)
  end.

Definition forestSize (f : list PomTree) : nat :=
  fold_right (fun t n => (treeSize t + n)%nat) O f.

(** The last loop of [buildPrototypePomTree]: [for (i = 0; i <
    prototypeTree.length; i++)], with the splice and the push of the
    body. [None] when the steps allowed are used up before the loop
    ends. *)
Fixpoint sweepLoop (steps : nat) (i : nat) (prototypeTree : list PomTree)
  : option (list PomTree) :=
  match steps with
  | O => None
  | S steps' =>
      match nth_error prototypeTree i with
      | None => Some prototypeTree
      | Some root =>
          if String.eqb (pomPath root) EmptyString
          then sweepLoop steps' (S i) (spliceOne prototypeTree i ++ children root)
          else sweepLoop steps' (S i) prototypeTree
      end
  end.

(** The loop run to its end: it takes at most one step per node of the
    array and one more to leave. *)
Definition sweepRoots (prototypeTree : list PomTree) : list PomTree :=
  match sweepLoop (S (forestSize prototypeTree)) O prototypeTree with
  | Some swept => swept
  | None => prototypeTree
  end.

(** The path of the reader's archive, [MAVEN_GAV_READER], is fixed by
    the place of the installation. *)
Class Installation : Type := {
  MAVEN_GAV_READER : string
}.

Definition installCommand `{Installation} : string :=
  "mvn org.apache.maven.plugins:maven-install-plugin:2.5.2:install-file -Dfile="
  +:+ MAVEN_GAV_READER.

(** [installMavenGavReader]: the flag is set when the command did not
    throw. *)
Definition installMavenGavReader `{Shell} `{Installation} (w : World) : World * Completion unit :=
  let '(w1, res) := runCmd w (mkInvocation installCommand None) in
  match res with
  | ExecOk _ => (mkWorld (invocations w1) (logged w1) true, Normal tt)
  | ExecFailed out => (w1, Throw (ExecError out))
  end.

(** [buildPrototypePomTree] *)
Definition buildPrototypePomTree `{Shell} `{NodePath} `{JsonReader} `{Installation}
    (pomArray : list Uri) (w : World) : World * Completion (list PomTree) :=
  let '(w0, installed) :=
    if negb (mavenGavReaderInstalled w) then installMavenGavReader w else (w, Normal tt) in
  match installed with
  | Throw e => (w0, Throw e)
  | Normal _ =>
      let sorted := sortBy (fun pomPath1 pomPath2 => Js.len (fsPath pomPath1) - Js.len (fsPath pomPath2)) pomArray in
      let '(prototypeTree, _, w1) := forEachPom sorted w0 ∅ [] in
      (w1, Normal (sweepRoots prototypeTree))
  end.

(** *** The shape of a forest *)

(** The identities of a tree, node before children, left to right. *)
Fixpoint treeGavs (t : PomTree) : list string :=
  match t with
  | PomNode g _ _ cs => g :: flat_map treeGavs cs
  end.

Definition forestGavs (f : list PomTree) : list string := flat_map treeGavs f.

(** The nodes of a tree, and of a forest. *)
Fixpoint treeNodes (t : PomTree) : list PomTree :=
  match t with
  | PomNode _ _ _ cs => t :: flat_map treeNodes cs
  end.

Definition forestNodes (f : list PomTree) : list PomTree := flat_map treeNodes f.

(** The links of a tree placed under [above]: every node with the
    identity of the node it hangs under, [None] for a root. *)
Fixpoint treeLinks (above : option string) (t : PomTree) : list (option string * string) :=
  match t with
  | PomNode g _ _ cs => (above, g) :: flat_map (treeLinks (Some g)) cs
  end.

Definition forestLinks (f : list PomTree) : list (option string * string) :=
  flat_map (treeLinks None) f.

(** The links of the nodes below the root of a tree. *)
Definition belowLinks (t : PomTree) : list (option string * string) :=
  flat_map (treeLinks (Some (pomGav t))) (children t).

(** No identity is carried by two nodes. *)
Definition uniqueIdentities (f : list PomTree) : Prop := List.NoDup (forestGavs f).

(** No identity hangs under two different identities, or is both a root
    and a child. *)
Definition singleParent (f : list PomTree) : Prop :=
  forall above above' g,
    In (above, g) (forestLinks f) -> In (above', g) (forestLinks f) -> above = above'.

(** No node has its own identity among the nodes below it. *)
Definition noSelfAncestor (f : list PomTree) : Prop :=
  forall n, In n (forestNodes f) -> ~ In (pomGav n) (flat_map treeGavs (children n)).

Definition validForest (f : list PomTree) : Prop :=
  uniqueIdentities f /\ singleParent f /\ noSelfAncestor f.

(** *** The pairs the resolver gives along the loop *)

Fixpoint resolveAll `{Shell} `{NodePath} `{JsonReader} (poms : list Uri) (w : World)
    (pomIdCache : gmap string (string * string)) : list ResolvedPom :=
  match poms with
  | [] => []
  | pom :: rest =>
      let '(gavs, cache1, w1) := getPomDetails (fsPath pom) w pomIdCache in
      mkResolvedPom (fsPath pom) (fst gavs) (snd gavs) :: resolveAll rest w1 cache1
  end.

(** The descriptors of a call of [buildPrototypePomTree], in the order
    of the loop, with the pairs resolved for them. *)
Definition resolvedPoms `{Shell} `{NodePath} `{JsonReader} `{Installation}
    (pomArray : list Uri) (w : World) : list ResolvedPom :=
  let w0 := if negb (mavenGavReaderInstalled w) then (installMavenGavReader w).1 else w in
  resolveAll
    (sortBy (fun pomPath1 pomPath2 => Js.len (fsPath pomPath1) - Js.len (fsPath pomPath2)) pomArray)
    w0 ∅.

(** The identities under which descriptors were resolved. *)
Definition resolvedGavs (resolved : list ResolvedPom) : list string :=
  List.filter (fun g => negb (String.eqb g EmptyString)) (List.map rpGav resolved).

(** The parent an identity is resolved with ranks below it: the parent
    relation the resolver reports has no cycle. *)
Definition parentsRankBelow (rank : string -> nat) (resolved : list ResolvedPom) : Prop :=
  forall r, In r resolved ->
            rpGav r <> EmptyString -> rpParentGav r <> EmptyString ->
            (rank (rpParentGav r) < rank (rpGav r))%nat.

(** *** Invariants of the loop *)

(** Every node that hangs under another one carries an identity under
    which a descriptor was resolved. *)
Definition nestedResolved (done : list ResolvedPom) (f : list PomTree) : Prop :=
  forall above g, In (Some above, g) (forestLinks f) -> In g (resolvedGavs done).

(** Along every link the rank goes up. *)
Definition linksRankUp (rank : string -> nat) (f : list PomTree) : Prop :=
  forall above g, In (Some above, g) (forestLinks f) -> (rank above < rank g)%nat.

(** ** Reference collaborators

    Concrete hosts on which the functions above can be run. *)

(** A document over a text: [positionAt] counts the line breaks [\r\n],
    [\r] and [\n] before the offset, which is clamped to the text. *)
Fixpoint positionFrom (ln col : Z) (offset : nat) (text : string) : Position :=
  match offset, text with
  | O, _ => mkPosition ln col
  | S _, EmptyString => mkPosition ln col
  | S k, String c text' =>
      if Ascii.eqb c LF then positionFrom (ln + 1) 0 k text'
      else if Ascii.eqb c CR then
        match k, text' with
        | S k', String d text'' =>
            if Ascii.eqb d LF then positionFrom (ln + 1) 0 k' text''
            else positionFrom (ln + 1) 0 k text'
        | _, _ => positionFrom (ln + 1) 0 k text'
        end
      else positionFrom ln (col + 1) k text'
  end.

Definition documentOf (text : string) : TextDocument :=
  mkTextDocument text (fun offset => positionFrom 0 0 (Z.to_nat offset) text).

(** An engine that knows the patterns [^.*body.*$] whose body has only
    literal characters and dots, and rejects every other pattern. *)
Definition stripAnchors (source : string) : option string :=
  if Js.prefixb "^.*" source then
    let rest := Js.dropn 3 source in
    let n := (String.length rest - 3)%nat in
    if (Nat.leb 3 (String.length rest) && String.eqb (Js.dropn n rest) ".*$")%bool
    then Some (Js.taken n rest) else None
  else None.

Definition literalEngine : RegExpEngine :=
  {| regexpMatches source text :=
       match stripAnchors source with
       | Some body => if literalOrDot body then Some (matchSomewhere body text) else None
       | None => None
       end |}.

(** The comparison of the code units, as a locale. *)
Definition codeUnitLocale : Locale :=
  {| localeCompare a b :=
       match String.compare a b with
       | Lt => -1
       | Eq => 0
       | Gt => 1
       end |}.

(** A locale that ignores the soft hyphen (U+00AD), as the collation of
    the host does, and compares the code units of what is left. *)
Definition softHyphen : ascii := ascii_of_nat 173.

Fixpoint withoutSoftHyphens (s : string) : string :=
  match s with
  | EmptyString => EmptyString
  | String c s' =>
      if Ascii.eqb c softHyphen then withoutSoftHyphens s'
      else String c (withoutSoftHyphens s')
  end.

Definition ignoringLocale : Locale :=
  {| localeCompare a b :=
       @localeCompare codeUnitLocale (withoutSoftHyphens a) (withoutSoftHyphens b) |}.

(** A file search given by a table from the name of a folder to the
    paths found under it. *)
Definition tableSearch (table : list (string * list Uri)) : FileSearch :=
  {| findFiles ws :=
       match List.find (fun row => String.eqb (fst row) (wsName ws)) table with
       | Some row => snd row
       | None => []
       end |}.

Definition fileUri (path : string) : Uri := mkUri path ("file://" +:+ path).

(** [path.posix.dirname]: the text before the last separator that is
    followed by a name; [.] or [/] when there is none. *)
Fixpoint dirnameEnd (i : nat) (s : string) : option nat * bool :=
  match s with
  | EmptyString => (None, false)
  | String c s' =>
      let '(found, named) := dirnameEnd (S i) s' in
      let slash := Ascii.eqb c "/" in
      match found with
      | Some e => (Some e, true)
      | None =>
          if (slash && named && Nat.leb 1 i)%bool then (Some i, true)
          else (None, (named || negb slash)%bool)
      end
  end.

Definition posixDirname (path : string) : string :=
  match path with
  | EmptyString => "."
  | String c _ =>
      let hasRoot := Ascii.eqb c "/" in
      match fst (dirnameEnd O path) with
      | None => if hasRoot then "/" else "."
      | Some e => if (hasRoot && Nat.eqb e 1)%bool then "//" else Js.taken e path
      end
  end.

Definition posixPath : NodePath := {| dirname := posixDirname |}.

(** A shell given by a table from the working directory to the output
    of the reader there; a run without working directory succeeds with
    no output, a directory that is not in the table fails. *)
Definition tableShell (table : list (string * string)) : Shell :=
  {| executeCmd _ inv :=
       match cwd inv with
       | None => ExecOk EmptyString
       | Some dir =>
           match List.find (fun row => String.eqb (fst row) dir) table with
           | Some row => ExecOk (snd row)
           | None => ExecFailed (Some "[ERROR] no POM in this directory")
           end
       end |}.

(** A line of the reader, and a parser for the lines of that shape. *)
Definition quoted (s : string) : string :=
  String DQUOTE EmptyString +:+ s +:+ String DQUOTE EmptyString.

Definition gavLineText (path gav parent : string) : string :=
  "{" +:+ quoted "pomPath" +:+ ":" +:+ quoted path +:+ ","
  +:+ quoted "gav" +:+ ":" +:+ quoted gav +:+ ","
  +:+ quoted "parentGav" +:+ ":" +:+ quoted parent +:+ "}".

(** Skip [expected] at the head of [s]. *)
Definition expect (expected s : string) : option string :=
  if Js.prefixb expected s then Some (Js.dropn (String.length expected) s) else None.

(** A string value up to its closing quote; [\\] stands for one
    backslash, no other escape is read. *)
Fixpoint stringValue (s : string) : option (string * string) :=
  match s with
  | EmptyString => None
  | String c s' =>
      if Ascii.eqb c DQUOTE then Some (EmptyString, s')
      else if Ascii.eqb c BACKSLASH then
        match s' with
        | String d s'' =>
            if Ascii.eqb d BACKSLASH then
              match stringValue s'' with
              | Some (v, rest) => Some (String BACKSLASH v, rest)
              | None => None
              end
            else None
        | EmptyString => None
        end
      else match stringValue s' with
           | Some (v, rest) => Some (String c v, rest)
           | None => None
           end
  end.

Definition parseGavLine (text : string) : option GavLine :=
  match expect ("{" +:+ quoted "pomPath" +:+ ":" +:+ String DQUOTE EmptyString) text with
  | None => None
  | Some s1 =>
      match stringValue s1 with
      | None => None
      | Some (path, s2) =>
          match expect ("," +:+ quoted "gav" +:+ ":" +:+ String DQUOTE EmptyString) s2 with
          | None => None
          | Some s3 =>
              match stringValue s3 with
              | None => None
              | Some (gav, s4) =>
                  match expect ("," +:+ quoted "parentGav" +:+ ":" +:+ String DQUOTE EmptyString) s4 with
                  | None => None
                  | Some s5 =>
                      match stringValue s5 with
                      | Some (parent, "}") => Some (mkGavLine path gav parent)
                      | _ => None
                      end
                  end
              end
          end
      end
  end.

Definition lineReader : JsonReader := {| JSON_parse := parseGavLine |}.

Definition anyInstallation : Installation :=
  {| MAVEN_GAV_READER := "/ext/resources/maven-gav-reader.jar" |}.

Definition freshWorld : World := mkWorld [] [] false.

Definition linesOf (l : list string) : string := Js.join (String LF EmptyString) l.

(** ** Spans *)

(** The positions of a list of spans: for every span its start and its
    end, both on the line of the span. *)
Definition spanPositions (spans : list (Z * Z * Z)) : list Position :=
  flat_map (fun span => [mkPosition span.1.1 span.1.2; mkPosition span.1.1 span.2]) spans.

(** ** The cache after a run of the reader *)

(** The write of one parsed line into the cache. *)
Definition cacheLine (pomIdCache : gmap string (string * string)) (l : GavLine)
  : gmap string (string * string) :=
  <[pomPath_ l := (gav_ l, parentGav_ l)]> pomIdCache.

(** The run of the reader for a descriptor. *)
Definition readerRun `{NodePath} (pathToPomXml : string) : Invocation :=
  mkInvocation gavReaderCommand (Some (dirname pathToPomXml)).

(** The run of the installation command. *)
Definition installRun `{Installation} : Invocation := mkInvocation installCommand None.

(** ** What the nodes of a forest record *)

(** For every node of a tree: its identity, the identity of its parent
    and the directory of its descriptor. *)
Fixpoint treeRecords (t : PomTree) : list (string * string * string) :=
  match t with
  | PomNode g pg p cs => (g, pg, p) :: flat_map treeRecords cs
  end.

Definition forestRecords (f : list PomTree) : list (string * string * string) :=
  flat_map treeRecords f.

(** What a resolved descriptor is to leave on its node. *)
Definition recordOf `{NodePath} (pom : ResolvedPom) : string * string * string :=
  (rpGav pom, rpParentGav pom, dirname (rpPath pom)).

(** A placeholder for an identity. *)
Definition placeholderRecord (gav : string) : string * string * string :=
  (gav, EmptyString, EmptyString).

(** A record that the resolved descriptors account for: the record of
    one of them, or a placeholder for the parent of one of them. *)
Definition describedBy `{NodePath} (resolved : list ResolvedPom)
    (e : string * string * string) : Prop :=
  (exists r, In r resolved /\ rpGav r <> EmptyString /\ e = recordOf r)
  \/ (exists r, In r resolved /\ rpGav r <> EmptyString /\ rpParentGav r <> EmptyString
                /\ e = placeholderRecord (rpParentGav r)).

(** ** The roots the last loop meets *)

(** The node has a directory: [!!node.pomPath]. *)
Definition hasDir (t : PomTree) : bool := negb (String.eqb (pomPath t) EmptyString).

(** No two roots in a row are without directory; [afterDirless] tells
    that the root before the list is without directory. *)
Fixpoint spacedAfter (afterDirless : bool) (f : list PomTree) : bool :=
  match f with
  | [] => true
  | t :: rest =>
      if hasDir t then spacedAfter false rest
      else (negb afterDirless && spacedAfter true rest)%bool
  end.

(** Below a root without directory hang nodes with directory only. *)
Definition dirlessAboveDirs (f : list PomTree) : bool :=
  forallb (fun t => (hasDir t || forallb hasDir (children t))%bool) f.

(** The roots with directory, and the children of the others. *)
Definition rootsWithDir (f : list PomTree) : list PomTree := List.filter hasDir f.

Definition promotedChildren (f : list PomTree) : list PomTree :=
  flat_map children (List.filter (fun t => negb (hasDir t)) f).


(** *** The text around the declaration blocks *)

(** A text made of gaps and blocks in turn, and of a rest after the
    last block. *)
Fixpoint weave (gaps blocks : list string) (rest : string) : string :=
  match gaps, blocks with
  | gap :: gaps', block :: blocks' => gap +:+ block +:+ weave gaps' blocks' rest
  | _, _ => rest
  end.
(** ** Example inputs *)

(** A descriptor that declares javax.mail:mail only, a descriptor that
    declares org.t:lib only, and a transitive node for org.t:lib under
    the node of javax.mail:mail. *)
Definition mailDescriptor : TextDocument :=
  documentOf (linesOf ["<project>"; "<dependencies>"; "<dependency>";
                       "  <groupId>javax.mail</groupId>";
                       "  <artifactId>mail</artifactId>";
                       "  <version>1.4</version>";
                       "</dependency>"; "</dependencies>"; "</project>"]).

Definition libDescriptor : TextDocument :=
  documentOf (linesOf ["<project>"; "<!-- parent -->"; "<dependencies>"; "<dependency>";
                       "  <groupId>org.t</groupId>";
                       "  <artifactId>lib</artifactId>";
                       "</dependency>"; "</dependencies>"; "</project>"]).

Definition moduleNode : DependenciesTreeNode := TreeNode "g:m:1" true None.

Definition mailNode : DependenciesTreeNode :=
  TreeNode "javax.mail:mail:1.4" false (Some moduleNode).

Definition libNode : DependenciesTreeNode :=
  TreeNode "org.t:lib:2" false (Some mailNode).


(** A reader whose second line is cut short. *)
Definition brokenOutput : string :=
  linesOf [gavLineText "/w/core/pom.xml" "g:core:1" "g:top:1";
           "{" +:+ quoted "pomPath" +:+ ":";
           gavLineText "/w/pom.xml" "g:top:1" EmptyString].

Definition brokenShell : Shell := tableShell [("/w", brokenOutput)].

(** Two overlapping workspace folders, and two searches that find the
    same descriptors in different orders. *)
Definition outerFolder : WorkspaceFolder := mkWorkspaceFolder "outer" (fileUri "/w").
Definition innerFolder : WorkspaceFolder := mkWorkspaceFolder "inner" (fileUri "/w/core").

Definition searchOne : FileSearch :=
  tableSearch [("outer", [fileUri "/w/pom.xml"; fileUri "/w/core/pom.xml"; fileUri "/w/api/pom.xml"]);
               ("inner", [fileUri "/w/core/pom.xml"])].

Definition searchTwo : FileSearch :=
  tableSearch [("outer", [fileUri "/w/core/pom.xml"; fileUri "/w/api/pom.xml"; fileUri "/w/pom.xml"]);
               ("inner", [fileUri "/w/core/pom.xml"])].

(** Two descriptors whose paths differ by a soft hyphen only, and two
    searches that find them in different orders. *)
Definition hyphenPom : string := "/w/co" +:+ String softHyphen "op/pom.xml".
Definition plainPom : string := "/w/coop/pom.xml".

Definition searchHyphenFirst : FileSearch :=
  tableSearch [("outer", [fileUri hyphenPom; fileUri plainPom])].

Definition searchPlainFirst : FileSearch :=
  tableSearch [("outer", [fileUri plainPom; fileUri hyphenPom])].

(** A shell in which the reader, run in the directory of a descriptor,
    prints the line of that descriptor alone. *)
Definition moduleShell (modules : list (string * string * string)) : Shell :=
  tableShell (List.map (fun m => (posixDirname m.1.1, gavLineText m.1.1 m.1.2 m.2)) modules).

(** A parent and two descriptors in different folders that declare the
    same identity under it. *)
Definition twinModules : list (string * string * string) :=
  [("/w/pom.xml", "g:p:1", EmptyString);
   ("/w/a/pom.xml", "g:a:1", "g:p:1");
   ("/w/b/pom.xml", "g:a:1", "g:p:1")].

(** Two modules whose parents are not in the workspace. *)
Definition orphanModules : list (string * string * string) :=
  [("/w/a/pom.xml", "g:a:1", "ext:parent:1");
   ("/w/b/pom.xml", "g:b:1", "ext:parent:2")].

(** A child listed before its parent. *)
Definition childFirstModules : list (string * string * string) :=
  [("/a/pom.xml", "g:a:1", "g:p:1");
   ("/w/p/pom.xml", "g:p:1", EmptyString)].

Definition urisOf (modules : list (string * string * string)) : list Uri :=
  List.map (fun m => fileUri m.1.1) modules.

Definition buildModules (modules : list (string * string * string))
  : World * Completion (list PomTree) :=
  @buildPrototypePomTree (moduleShell modules) posixPath lineReader anyInstallation
    (urisOf modules) freshWorld.

(** The pairs of the examples as the resolver gives them. *)
Definition resolvedOf (modules : list (string * string * string)) : list ResolvedPom :=
  List.map (fun m => mkResolvedPom m.1.1 m.1.2 m.2) modules.

(** A rank for the examples: the parent g:p:1 below everything else. *)
Definition exampleRank (g : string) : nat :=
  if String.eqb g "g:p:1" then 0%nat else 1%nat.

(** Two modules that name each other as parent, beside a module whose
    parent is outside the workspace. *)
Definition cycleModules : list (string * string * string) :=
  [("/c/pom.xml", "g:c:1", "ext:m:1");
   ("/w/a/pom.xml", "g:a:1", "g:b:1");
   ("/w/bb/pom.xml", "g:b:1", "g:a:1")].

(** A reader that lists the descriptor of its directory twice, and one
    that lists another descriptor only. *)
Definition repeatingShell : Shell :=
  tableShell [("/w", linesOf [gavLineText "/w/pom.xml" "g:old:1" EmptyString;
                              gavLineText "/w/pom.xml" "g:new:1" "g:top:1"]);
              ("/w/x", linesOf [gavLineText "/w/pom.xml" "g:new:1" "g:top:1"])].

(** A reactor: run in the directory of the aggregator, the reader lists
    the aggregator and its two modules. *)
Definition reactorShell : Shell :=
  tableShell [("/w", linesOf [gavLineText "/w/pom.xml" "g:top:1" EmptyString;
                              gavLineText "/w/core/pom.xml" "g:core:1" "g:top:1";
                              gavLineText "/w/api/pom.xml" "g:api:1" "g:top:1"])].

(** A shell on which every command fails. *)
Definition deadShell : Shell :=
  {| executeCmd _ _ := ExecFailed (Some "mvn: command not found") |}.
(** * Properties *)

(** ** Strings *)

Lemma dropn_app_length (a b : string) : Js.dropn (String.length a) (a +:+ b) = b.
Proof. induction a as [|c a IH]; simpl; auto. Qed.

Lemma taken_app_length (a b : string) : Js.taken (String.length a) (a +:+ b) = a.
Proof. induction a as [|c a IH]; simpl; [destruct b|]; auto. now rewrite IH. Qed.

Lemma length_append (a b : string) :
  String.length (a +:+ b) = (String.length a + String.length b)%nat.
Proof. induction a as [|c a IH]; simpl; auto. Qed.

Lemma findChar_skip (p : ascii -> bool) (a b : string) :
  allChars (fun c => negb (p c)) a = true ->
  Js.findChar p (a +:+ b) = option_map (Nat.add (String.length a)) (Js.findChar p b).
Proof.
  induction a as [|c a IH]; simpl; intros Ha.
  - now destruct (Js.findChar p b).
  - apply andb_prop in Ha as [Hc Ha]. apply negb_true_iff in Hc. rewrite Hc.
    rewrite (IH Ha). now destruct (Js.findChar p b).
Qed.

Lemma at_app_two {A} (before : list A) (x y : A) :
  Js.at_ (before ++ [x; y]) (Z.of_nat (List.length (before ++ [x; y])) - 2) = Some x.
Proof.
  unfold Js.at_. rewrite length_app. simpl List.length.
  replace (Z.of_nat (List.length before + 2) - 2) with (Z.of_nat (List.length before)) by lia.
  destruct (Z.ltb_spec (Z.of_nat (List.length before)) 0) as [Hneg|_]; [lia|].
  rewrite Nat2Z.id. rewrite nth_error_app2 by lia. now rewrite Nat.sub_diag.
Qed.

(** ** Identity parser *)

(** C8, amended. On a line with at least two fields between colons,
    whose first field is made of glyphs that are no word characters
    followed by a group that starts with a word character (a letter, a
    digit or an underscore), [getDependencyInfo] returns the group, the
    second field and the field before the last; on the line of the
    scenario it returns javax.mail, mail and 1.4. *)
Theorem getDependencyInfo_fields :
  (forall (raw glyphs group artifact version scope : string) (rest before : list string),
     Js.split ":" raw = (glyphs +:+ group) :: artifact :: rest ->
     Js.split ":" raw = before ++ [version; scope] ->
     allChars (fun c => negb (Js.isWordChar c)) glyphs = true ->
     (exists c group', group = String c group' /\ Js.isWordChar c = true) ->
     getDependencyInfo raw = (group, Some artifact, Some version))
  /\ getDependencyInfo "|  |  +- javax.mail:mail:jar:1.4:compile"
     = ("javax.mail", Some "mail", Some "1.4").
Proof.
  split; [|reflexivity].
  intros raw glyphs group artifact version scope rest before Hfields Hlast Hglyphs
         (c & group' & -> & Hc).
  pose proof (at_app_two before version scope) as Hversion.
  rewrite <- Hlast in Hversion.
  unfold getDependencyInfo. cbv zeta. rewrite Hversion.
  rewrite Hfields. simpl hd. change (Js.at_ _ 1) with (Some artifact).
  unfold Js.searchWord. rewrite (findChar_skip _ _ _ Hglyphs). simpl Js.findChar.
  rewrite Hc. simpl option_map. rewrite Nat.add_0_r.
  unfold Js.slice, Js.indexOrMinusOne, Js.len.
  destruct (Z.ltb_spec (Z.of_nat (String.length glyphs)) 0) as [Hneg|_]; [lia|].
  rewrite length_append, Z.min_l by lia. rewrite Nat2Z.id, dropn_app_length.
  reflexivity.
Qed.

Lemma getDependencyInfo_fields_witness :
  Js.split ":" "+- _int.g:art_x:jar:1.0:test" = ["+- _int.g"; "art_x"; "jar"; "1.0"; "test"]
  /\ allChars (fun c => negb (Js.isWordChar c)) "+- " = true
  /\ getDependencyInfo "+- _int.g:art_x:jar:1.0:test" = ("_int.g", Some "art_x", Some "1.0").
Proof.
  split; [reflexivity|]. split; [reflexivity|].
  apply (proj1 getDependencyInfo_fields
           "+- _int.g:art_x:jar:1.0:test" "+- " "_int.g" "art_x" "1.0" "test"
           ["jar"; "1.0"; "test"] ["+- _int.g"; "art_x"; "jar"]).
  - reflexivity.
  - reflexivity.
  - reflexivity.
  - exists "_"%char, "int.g". split; reflexivity.
Defined.

(** C8 as it is worded fails: the underscore is a word character, so a
    group that starts with one is returned with it, while the first
    alphanumeric character of the field comes after it. *)
Lemma getDependencyInfo_underscore :
  getDependencyInfo "+- _int.g:art_x:jar:1.0:test" = ("_int.g", Some "art_x", Some "1.0")
  /\ Js.split ":" "+- _int.g:art_x:jar:1.0:test" = ["+- _int.g"; "art_x"; "jar"; "1.0"; "test"]
  /\ alnumSuffix "+- _int.g" = "int.g"
  /\ (getDependencyInfo "+- _int.g:art_x:jar:1.0:test").1.1 <> alnumSuffix "+- _int.g".
Proof.
  split; [reflexivity|]. split; [reflexivity|]. split; [reflexivity|].
  intros Heq. vm_compute in Heq. discriminate Heq.
Qed.

(** ** Descriptor position locator *)

(** C10. With an undefined node [getDependencyPos] returns the empty
    list, whatever the document is: neither its text nor its positions
    are asked for. *)
Theorem getDependencyPos_undefined (document : TextDocument) :
  getDependencyPos document None = [].
Proof. reflexivity. Qed.

(** When no block of the document names the node, the answer is the one
    for the parent of the node in the same document, unless the node is
    a module root. *)
Lemma getDependencyPosOf_no_match (document : TextDocument) (n : DependenciesTreeNode) :
  dependencyMatch document n = [] ->
  getDependencyPosOf document n
  = if instanceofMavenTreeNode n then [] else getDependencyPos document (nodeParent n).
Proof.
  intros Hnone. destruct n as [cid isMaven parent]. simpl getDependencyPosOf.
  rewrite Hnone. simpl. destruct isMaven; simpl; [reflexivity|].
  now destruct parent.
Qed.

(** C6, amended. When no block of the document contains the group and
    the artifact of the node: a node that is no module root is answered
    by the call on its parent with the same document (so the document
    is searched again, for the parent's identity); a module root is
    answered by the empty list. *)
Theorem getDependencyPos_recursion (document : TextDocument) (n : DependenciesTreeNode) :
  dependencyMatch document n = [] ->
  (instanceofMavenTreeNode n = false ->
   getDependencyPos document (Some n) = getDependencyPos document (nodeParent n))
  /\ (instanceofMavenTreeNode n = true -> getDependencyPos document (Some n) = []).
Proof.
  intros Hnone. simpl getDependencyPos. rewrite (getDependencyPosOf_no_match _ _ Hnone).
  split; intros ->; reflexivity.
Qed.

Lemma getDependencyPos_recursion_witness :
  dependencyMatch mailDescriptor libNode = []
  /\ getDependencyPos mailDescriptor (Some libNode) = getDependencyPos mailDescriptor (Some mailNode).
Proof.
  split; [reflexivity|].
  apply (proj1 (getDependencyPos_recursion mailDescriptor libNode eq_refl)).
  reflexivity.
Defined.

(** C6 as it is worded fails: the call for the transitive node stays in
    the document it was given and returns the lines of the parent's
    declaration there, where the wording has the declaration of the
    node itself looked up in the descriptor of the parent. *)
Lemma getDependencyPos_same_document :
  getDependencyPos mailDescriptor (Some libNode)
  = [mkPosition 3 2; mkPosition 3 31; mkPosition 4 2; mkPosition 4 31;
     mkPosition 5 2; mkPosition 5 24]
  /\ findDependencyPosition_spec (fun _ => libDescriptor) mailDescriptor libNode libNode
     = [mkPosition 4 2; mkPosition 4 26; mkPosition 5 2; mkPosition 5 30]
  /\ ~ (forall descriptorOf document n,
          getDependencyPos document (Some n)
          = findDependencyPosition_spec descriptorOf document n n).
Proof.
  split; [reflexivity|]. split; [reflexivity|].
  intros Hclaim. specialize (Hclaim (fun _ => libDescriptor) mailDescriptor libNode).
  vm_compute in Hclaim. discriminate Hclaim.
Qed.

(** ** Dependency attribution filter *)

Lemma filterM_normal {A} (keep : A -> Completion bool) (p : A -> bool) (l : list A) :
  Forall (fun x => keep x = Normal (p x)) l ->
  filterM keep l = Normal (List.filter p l).
Proof.
  induction 1 as [|x l Hx _ IH]; simpl; [reflexivity|].
  rewrite Hx, IH. now destruct (p x).
Qed.

Lemma filterM_again {A} (keep : A -> Completion bool) (l kept : list A) :
  filterM keep l = Normal kept -> filterM keep kept = Normal kept.
Proof.
  revert kept. induction l as [|x l IH]; simpl; intros kept Hrun.
  - now inversion Hrun.
  - destruct (keep x) as [b|e] eqn:Hx; [|discriminate].
    destruct (filterM keep l) as [r|e] eqn:Hl; [|discriminate].
    inversion Hrun; subst kept; clear Hrun.
    specialize (IH r eq_refl). destruct b; [|exact IH].
    simpl. now rewrite Hx, IH.
Qed.

Lemma isDot_isSyntaxChar (c : ascii) : isDot c = true -> isSyntaxChar c = true.
Proof.
  unfold isDot, isSyntaxChar. intros Hdot. apply Nat.eqb_eq in Hdot. now rewrite Hdot.
Qed.

Lemma matchHere_literal (body text : string) :
  literalOnly body = true -> matchHere body text = Js.prefixb body text.
Proof.
  revert text. induction body as [|p body IH]; intros text Hlit; [reflexivity|].
  simpl in Hlit. apply andb_prop in Hlit as [Hp Hlit].
  destruct text as [|t text]; [reflexivity|]. simpl. rewrite (IH text Hlit).
  unfold matchChar. destruct (isDot p) eqn:Hdot; [|reflexivity].
  apply isDot_isSyntaxChar in Hdot. now rewrite Hdot in Hp.
Qed.

Lemma matchSomewhere_literal (body text : string) :
  literalOnly body = true -> matchSomewhere body text = Js.includes text body.
Proof.
  intros Hlit. unfold Js.includes.
  induction text as [|t text IH].
  - simpl. rewrite (matchHere_literal _ _ Hlit). now destruct (Js.prefixb body EmptyString).
  - simpl. rewrite (matchHere_literal _ _ Hlit).
    destruct (Js.prefixb body (String t text)); [reflexivity|].
    simpl. rewrite IH. now destruct (Js.indexOfNat body text).
Qed.

Lemma keepChild_onLiterals (E : RegExpEngine) (rawParentDep childDep : string) :
  RegExpOnLiterals E ->
  literalOrDot (childSuffix childDep) = true ->
  keepChild rawParentDep childDep
  = Normal (negb (matchSomewhere (childSuffix childDep) rawParentDep)).
Proof.
  intros HE Hlit. unfold keepChild, childPattern. rewrite (HE _ _ Hlit).
  now destruct (matchSomewhere (childSuffix childDep) rawParentDep).
Qed.

Lemma stripAnchors_pattern (body : string) :
  stripAnchors ("^.*" +:+ body +:+ ".*$") = Some body.
Proof.
  unfold stripAnchors. simpl Js.prefixb. cbv iota. simpl Js.dropn.
  rewrite length_append. simpl (String.length ".*$").
  replace (String.length body + 3 - 3)%nat with (String.length body) by lia.
  rewrite dropn_app_length, taken_app_length.
  replace (Nat.leb 3 (String.length body + 3)) with true
    by (symmetry; apply Nat.leb_le; lia).
  reflexivity.
Qed.

Lemma literalEngine_onLiterals : RegExpOnLiterals literalEngine.
Proof.
  intros body text Hlit. unfold regexpMatches, literalEngine.
  now rewrite stripAnchors_pattern, Hlit.
Qed.

(** What the call computes. [filterParentDependencies] returns
    [undefined] exactly when no parent list is given. With a parent
    list, and child lines whose suffix from the first word character
    has only literal characters and dots, it keeps the child lines whose
    suffix, taken as a pattern, matches nowhere in the joined parent
    text; for a suffix without dots that is the absence of the suffix
    from the text. The javax.mail line of the scenario is dropped and
    the com.foo line is kept. *)
Theorem filterParentDependencies_pattern (E : RegExpEngine) :
  RegExpOnLiterals E ->
  (forall childDependencies parentDeps,
     filterParentDependencies childDependencies parentDeps = Normal None
     <-> parentDeps = None)
  /\ (forall childDependencies deps,
        Forall (fun c => literalOrDot (childSuffix c) = true) childDependencies ->
        filterParentDependencies childDependencies (Some deps)
        = Normal (Some (List.filter
                          (fun c => negb (matchSomewhere (childSuffix c) (Js.join " " deps)))
                          childDependencies)))
  /\ (forall body text,
        literalOnly body = true -> matchSomewhere body text = Js.includes text body)
  /\ filterParentDependencies
       ["+- javax.mail:mail:jar:1.4:compile"; "+- com.foo:bar:jar:2.0:compile"]
       (Some ["|  +- javax.mail:mail:jar:1.4:compile"; "|  +- junit:junit:jar:4.12:test"])
     = Normal (Some ["+- com.foo:bar:jar:2.0:compile"]).
Proof.
  intros HE.
  assert (Hfilter : forall childDependencies deps,
             Forall (fun c => literalOrDot (childSuffix c) = true) childDependencies ->
             filterParentDependencies childDependencies (Some deps)
             = Normal (Some (List.filter
                               (fun c => negb (matchSomewhere (childSuffix c) (Js.join " " deps)))
                               childDependencies))).
  { intros cs deps Hcs. unfold filterParentDependencies.
    rewrite (filterM_normal _ (fun c => negb (matchSomewhere (childSuffix c) (Js.join " " deps)))).
    - reflexivity.
    - eapply List.Forall_impl; [|exact Hcs]. intros c Hc. now apply keepChild_onLiterals. }
  split; [|split; [exact Hfilter|split; [exact matchSomewhere_literal|]]].
  - intros cs [deps|]; simpl; [|tauto].
    destruct (filterM _ cs); split; intros Heq; discriminate Heq.
  - rewrite Hfilter; [reflexivity|]. repeat constructor.
Qed.

Lemma filterParentDependencies_pattern_witness :
  @filterParentDependencies literalEngine
    ["+- org.a:lib:jar:1.0:compile"; "+- org.b:lib:jar:1.0:compile"]
    (Some ["+- org.a:lib:jar:1.0:compile"])
  = Normal (Some ["+- org.b:lib:jar:1.0:compile"]).
Proof.
  rewrite (proj1 (proj2 (filterParentDependencies_pattern literalEngine
                           literalEngine_onLiterals))).
  - reflexivity.
  - repeat constructor.
Defined.

(** C4. The suffix of the child line is spliced into the pattern
    without escaping, so the dot of the version 1.4 stands for any
    character: with a parent that declares version 104 of the same
    artifact the child line is dropped, under every engine that treats
    literal characters and dots as the language does, although its
    suffix does not occur in the parent text and the filter as it is
    documented keeps the line. *)
Theorem filterParentDependencies_not_substring :
  (forall E : RegExpEngine,
     RegExpOnLiterals E ->
     @filterParentDependencies E
       ["+- org.a:lib:jar:1.4:compile"] (Some ["+- org.a:lib:jar:104:compile"])
     = Normal (Some []))
  /\ Js.includes (Js.join " " ["+- org.a:lib:jar:104:compile"])
                 (childSuffix "+- org.a:lib:jar:1.4:compile") = false
  /\ filterInherited_spec
       ["+- org.a:lib:jar:1.4:compile"] (Some ["+- org.a:lib:jar:104:compile"])
     = Some ["+- org.a:lib:jar:1.4:compile"]
  /\ ~ (forall E : RegExpEngine,
          RegExpOnLiterals E ->
          forall childDependencies parentDeps,
            filterParentDependencies childDependencies parentDeps
            = Normal (filterInherited_spec childDependencies parentDeps)).
Proof.
  split; [|split; [reflexivity|split; [reflexivity|]]].
  - intros E HE. unfold filterParentDependencies.
    rewrite (filterM_normal _
               (fun c => negb (matchSomewhere (childSuffix c)
                                 (Js.join " " ["+- org.a:lib:jar:104:compile"])))).
    + reflexivity.
    + repeat constructor. now apply keepChild_onLiterals.
  - intros Hclaim.
    specialize (Hclaim literalEngine literalEngine_onLiterals
                  ["+- org.a:lib:jar:1.4:compile"] (Some ["+- org.a:lib:jar:104:compile"])).
    vm_compute in Hclaim. discriminate Hclaim.
Qed.

Lemma filterParentDependencies_not_substring_witness :
  @filterParentDependencies literalEngine
    ["+- org.a:lib:jar:1.4:compile"] (Some ["+- org.a:lib:jar:104:compile"])
  = Normal (Some []).
Proof.
  apply (proj1 filterParentDependencies_not_substring literalEngine).
  exact literalEngine_onLiterals.
Defined.

(** C5. With a parent list, running the filter on its own result gives
    that result again. *)
Theorem filterParentDependencies_idempotent (E : RegExpEngine)
    (childDependencies deps kept : list string) :
  filterParentDependencies childDependencies (Some deps) = Normal (Some kept) ->
  filterParentDependencies kept (Some deps) = Normal (Some kept).
Proof.
  unfold filterParentDependencies.
  destruct (filterM _ childDependencies) as [r|e] eqn:Hrun; [|discriminate].
  intros Heq. inversion Heq; subst r. now rewrite (filterM_again _ _ _ Hrun).
Qed.

Lemma filterParentDependencies_idempotent_witness :
  @filterParentDependencies literalEngine
    ["+- org.a:lib:jar:1.0:compile"; "+- org.b:lib:jar:1.0:compile"]
    (Some ["+- org.a:lib:jar:1.0:compile"])
  = Normal (Some ["+- org.b:lib:jar:1.0:compile"])
  /\ @filterParentDependencies literalEngine
       ["+- org.b:lib:jar:1.0:compile"] (Some ["+- org.a:lib:jar:1.0:compile"])
     = Normal (Some ["+- org.b:lib:jar:1.0:compile"]).
Proof.
  split; [reflexivity|].
  apply (filterParentDependencies_idempotent literalEngine
           ["+- org.a:lib:jar:1.0:compile"; "+- org.b:lib:jar:1.0:compile"]).
  reflexivity.
Defined.

(** ** GAV resolver *)

Section Resolver.

Context `{Shell} `{NodePath} `{JsonReader}.

Lemma populateCache_grows (lines : list string) (cache : gmap string (string * string))
    (key : string) :
  is_Some (cache !! key) -> is_Some ((populateCache lines cache).1 !! key).
Proof.
  revert cache. induction lines as [|l lines IH]; intros cache Hkey; simpl; [exact Hkey|].
  destruct (JSON_parse l) as [j|]; [|exact Hkey].
  apply IH. rewrite lookup_insert_is_Some. destruct (decide (pomPath_ j = key)); auto.
Qed.

Lemma populateCache_stops (done rest : list string) (bad : string)
    (cache : gmap string (string * string)) :
  Forall (fun l => is_Some (JSON_parse l)) done ->
  JSON_parse bad = None ->
  populateCache (done ++ bad :: rest) cache = ((populateCache done cache).1, false).
Proof.
  intros Hdone Hbad. revert cache.
  induction Hdone as [|l done [j Hj] _ IH]; intros cache; simpl.
  - now rewrite Hbad.
  - rewrite Hj. apply IH.
Qed.

Lemma populateCache_has (done : list string) (cache : gmap string (string * string))
    (l : string) (j : GavLine) :
  Forall (fun l => is_Some (JSON_parse l)) done ->
  In l done -> JSON_parse l = Some j ->
  is_Some ((populateCache done cache).1 !! pomPath_ j).
Proof.
  intros Hdone. revert cache.
  induction Hdone as [|l0 done [j0 Hj0] _ IH]; intros cache Hin Hj; simpl in *; [tauto|].
  rewrite Hj0. destruct Hin as [->|Hin].
  - rewrite Hj in Hj0. inversion Hj0; subst j0.
    apply populateCache_grows. rewrite lookup_insert_eq. eauto.
  - now apply IH.
Qed.

Lemma getPomDetails_hit (pathToPomXml : string) (w : World)
    (cache : gmap string (string * string)) (gavs : string * string) :
  cache !! pathToPomXml = Some gavs ->
  getPomDetails pathToPomXml w cache = (gavs, cache, w).
Proof. intros Hhit. unfold getPomDetails. now rewrite Hhit. Qed.

(** C9. When the reader's output has a line that [JSON.parse] rejects
    after lines it accepts, the call answers the pair of empty strings,
    yet the cache it leaves holds an entry for the path of every line
    accepted before; a later call for a path the cache holds returns
    the entry and runs no command. *)
Theorem getPomDetails_partial_cache (pathToPomXml : string) (w : World)
    (cache : gmap string (string * string)) (out bad : string) (done rest : list string) :
  cache !! pathToPomXml = None ->
  executeCmd (invocations w) (mkInvocation gavReaderCommand (Some (dirname pathToPomXml)))
  = ExecOk out ->
  gavLines out = done ++ bad :: rest ->
  Forall (fun l => is_Some (JSON_parse l)) done ->
  JSON_parse bad = None ->
  exists cache' w',
    getPomDetails pathToPomXml w cache = ((EmptyString, EmptyString), cache', w')
    /\ cache' = (populateCache done cache).1
    /\ (forall l j, In l done -> JSON_parse l = Some j -> is_Some (cache' !! pomPath_ j))
    /\ (forall q gavs w2,
          cache' !! q = Some gavs ->
          getPomDetails q w2 cache' = (gavs, cache', w2)
          /\ invocations (getPomDetails q w2 cache').2 = invocations w2).
Proof.
  intros Hmiss Hrun Hlines Hdone Hbad.
  assert (Hcall : exists w',
             getPomDetails pathToPomXml w cache
             = ((EmptyString, EmptyString), (populateCache done cache).1, w')).
  { unfold getPomDetails, runCmd. rewrite Hmiss, Hrun, Hlines.
    rewrite (populateCache_stops _ _ _ _ Hdone Hbad). eauto. }
  destruct Hcall as [w' Hcall].
  exists (populateCache done cache).1, w'.
  split; [exact Hcall|]. split; [reflexivity|]. split.
  - intros l j Hin Hj. now apply populateCache_has with (l := l).
  - intros q gavs w2 Hq. now rewrite (getPomDetails_hit _ _ _ _ Hq).
Qed.

End Resolver.

Lemma getPomDetails_partial_cache_witness :
  exists cache' w',
    @getPomDetails brokenShell posixPath lineReader "/w/pom.xml" freshWorld ∅
    = ((EmptyString, EmptyString), cache', w')
    /\ cache' !! "/w/core/pom.xml" = Some ("g:core:1", "g:top:1")
    /\ @getPomDetails brokenShell posixPath lineReader "/w/core/pom.xml" w' cache'
       = (("g:core:1", "g:top:1"), cache', w').
Proof.
  destruct (@getPomDetails_partial_cache brokenShell posixPath lineReader
              "/w/pom.xml" freshWorld ∅ brokenOutput
              ("{" +:+ quoted "pomPath" +:+ ":")
              [gavLineText "/w/core/pom.xml" "g:core:1" "g:top:1"]
              [gavLineText "/w/pom.xml" "g:top:1" EmptyString])
    as (cache' & w' & Hcall & Hcache & _ & Hlater).
  - reflexivity.
  - reflexivity.
  - reflexivity.
  - repeat constructor. simpl. eauto.
  - reflexivity.
  - exists cache', w'. split; [exact Hcall|].
    assert (Hentry : cache' !! "/w/core/pom.xml" = Some ("g:core:1", "g:top:1")).
    { rewrite Hcache. reflexivity. }
    split; [exact Hentry|]. apply (Hlater _ _ w' Hentry).
Defined.

(** ** Sorting *)

Section Sorting.

Context {A : Type} (cmp : A -> A -> Z).

Let le (a b : A) : Prop := cmp a b <= 0.

Hypothesis le_total : forall a b, le a b \/ le b a.
Hypothesis le_trans : forall a b c, le a b -> le b c -> le a c.

Lemma insertBy_perm (x : A) (l : list A) : Permutation (insertBy cmp x l) (x :: l).
Proof.
  induction l as [|y l IH]; simpl; [reflexivity|].
  destruct (cmp x y <=? 0); [reflexivity|].
  rewrite IH. apply perm_swap.
Qed.

Lemma sortBy_perm (l : list A) : Permutation (sortBy cmp l) l.
Proof.
  induction l as [|x l IH]; simpl; [reflexivity|].
  rewrite insertBy_perm. now constructor.
Qed.

Lemma insertBy_sorted (x : A) (l : list A) :
  StronglySorted le l -> StronglySorted le (insertBy cmp x l).
Proof.
  induction 1 as [|y l Hsorted IH Hy]; simpl.
  - repeat constructor.
  - destruct (Z.leb_spec (cmp x y) 0) as [Hxy|Hxy].
    + constructor; [now constructor|]. constructor; [exact Hxy|].
      eapply List.Forall_impl; [|exact Hy]. intros z Hz. now apply le_trans with y.
    + constructor; [exact IH|].
      assert (Hyx : le y x) by (destruct (le_total x y) as [Hle|Hle]; [unfold le in Hle; lia|exact Hle]).
      eapply Permutation_Forall; [symmetry; apply insertBy_perm|]. now constructor.
Qed.

Lemma sortBy_sorted (l : list A) : StronglySorted le (sortBy cmp l).
Proof.
  induction l as [|x l IH]; simpl; [constructor|]. now apply insertBy_sorted.
Qed.

Lemma sortBy_short (l : list A) : (List.length l <= 1)%nat -> sortBy cmp l = l.
Proof.
  destruct l as [|x [|y l]]; simpl; intros Hlen; try reflexivity. lia.
Qed.

End Sorting.

(** Two lists sorted strictly by the same order and with the same
    elements are the same list. *)
Lemma strictly_sorted_unique {A} (lt : A -> A -> Prop) (l1 l2 : list A) :
  (forall a, ~ lt a a) ->
  (forall a b, lt a b -> ~ lt b a) ->
  StronglySorted lt l1 -> StronglySorted lt l2 ->
  (forall x, In x l1 <-> In x l2) ->
  l1 = l2.
Proof.
  intros Hirr Hasym Hs1. revert l2.
  induction Hs1 as [|x l1 Hs1 IH Hx]; intros l2 Hs2 Hsame.
  - destruct l2 as [|y l2]; [reflexivity|]. destruct (proj2 (Hsame y)). now left.
  - destruct Hs2 as [|y l2 Hs2 Hy].
    + destruct (proj1 (Hsame x)). now left.
    + assert (Hxy : x = y).
      { destruct (proj1 (Hsame x) (or_introl eq_refl)) as [Heq|Hin]; [now symmetry|].
        destruct (proj2 (Hsame y) (or_introl eq_refl)) as [Heq|Hin']; [exact Heq|].
        rewrite List.Forall_forall in Hx, Hy.
        destruct (Hasym _ _ (Hx _ Hin') (Hy _ Hin)). }
      subst y. f_equal. apply IH; [exact Hs2|].
      rewrite List.Forall_forall in Hx, Hy.
      intros z. split; intros Hz.
      * destruct (proj1 (Hsame z) (or_intror Hz)) as [Heq|Hin]; [|exact Hin].
        subst z. destruct (Hirr _ (Hx _ Hz)).
      * destruct (proj2 (Hsame z) (or_intror Hz)) as [Heq|Hin]; [|exact Hin].
        subst z. destruct (Hirr _ (Hy _ Hz)).
Qed.

(** ** Descriptor locator *)

Lemma setContains_true (s : CollectionsSet) (u : Uri) :
  setContains s u = true <-> In (setKey u) (List.map fst s).
Proof.
  unfold setContains. rewrite existsb_exists, in_map_iff. split.
  - intros (kv & Hin & Heq). apply String.eqb_eq in Heq. eauto.
  - intros (kv & Heq & Hin). exists kv. split; [exact Hin|]. now apply String.eqb_eq.
Qed.

Lemma wfSet_add (s : CollectionsSet) (u : Uri) : wfSet s -> wfSet (setAdd s u).
Proof.
  intros [Hkeys Hnodup]. unfold setAdd.
  destruct (setContains s u) eqn:Hhas; [now split|].
  split.
  - intros k v Hin. apply in_app_or in Hin as [Hin|[Heq|[]]]; [now apply Hkeys|].
    now inversion Heq.
  - rewrite map_app. simpl.
    apply List.NoDup_app; [exact Hnodup|repeat constructor; simpl; tauto|].
    intros k Hk [<-|[]]. apply setContains_true in Hk. congruence.
Qed.

Lemma wfSet_fold (found : list Uri) (s : CollectionsSet) :
  wfSet s -> wfSet (fold_left setAdd found s).
Proof.
  revert s. induction found as [|u found IH]; intros s Hs; simpl; [exact Hs|].
  apply IH. now apply wfSet_add.
Qed.

Lemma setAdd_elements (s : CollectionsSet) (u v : Uri) :
  In v (setToArray (setAdd s u)) -> In v (setToArray s) \/ v = u.
Proof.
  unfold setAdd, setToArray. destruct (setContains s u); [tauto|].
  rewrite map_app, in_app_iff. simpl. intuition.
Qed.

Lemma setAdd_keeps (s : CollectionsSet) (u v : Uri) :
  In v (setToArray s) -> In v (setToArray (setAdd s u)).
Proof.
  unfold setAdd, setToArray. destruct (setContains s u); [tauto|].
  rewrite map_app, in_app_iff. tauto.
Qed.

Lemma fold_setAdd_elements (found : list Uri) (s : CollectionsSet) (v : Uri) :
  In v (setToArray (fold_left setAdd found s)) -> In v (setToArray s) \/ In v found.
Proof.
  revert s. induction found as [|u found IH]; intros s Hv; simpl in *; [tauto|].
  destruct (IH _ Hv) as [Hs|Hf]; [|tauto].
  destruct (setAdd_elements _ _ _ Hs); auto.
Qed.

Lemma fold_setAdd_keeps (found : list Uri) (s : CollectionsSet) (v : Uri) :
  In v (setToArray s) -> In v (setToArray (fold_left setAdd found s)).
Proof.
  revert s. induction found as [|u found IH]; intros s Hv; simpl; [exact Hv|].
  apply IH. now apply setAdd_keeps.
Qed.

Lemma setAdd_covers (s : CollectionsSet) (u : Uri) :
  wfSet s -> exists v, In v (setToArray (setAdd s u)) /\ setKey v = setKey u.
Proof.
  intros [Hkeys _]. unfold setAdd. destruct (setContains s u) eqn:Hhas.
  - apply setContains_true, in_map_iff in Hhas as ([k v] & Hk & Hin). simpl in Hk. subst k.
    exists v. split; [|symmetry; now apply Hkeys].
    unfold setToArray. apply in_map_iff. now exists (setKey u, v).
  - exists u. split; [|reflexivity].
    unfold setToArray. rewrite map_app, in_app_iff. simpl. tauto.
Qed.

Lemma fold_setAdd_covers (found : list Uri) (s : CollectionsSet) (u : Uri) :
  wfSet s -> In u found ->
  exists v, In v (setToArray (fold_left setAdd found s)) /\ setKey v = setKey u.
Proof.
  revert s. induction found as [|x found IH]; intros s Hs Hin; simpl in *; [tauto|].
  destruct Hin as [->|Hin].
  - destruct (setAdd_covers s u Hs) as (v & Hv & Hkey).
    exists v. split; [|exact Hkey]. now apply fold_setAdd_keeps.
  - apply IH; [now apply wfSet_add|exact Hin].
Qed.

Lemma setKey_inj (u v : Uri) : setKey u = setKey v -> uriText u = uriText v.
Proof. unfold setKey. simpl. now inversion 1. Qed.

Lemma collectPomXmls_fold `{FileSearch} (workspaceFolders : list WorkspaceFolder)
    (s : CollectionsSet) (log : list LogEntry) :
  (collectPomXmls workspaceFolders s log).1
  = fold_left setAdd (allFound workspaceFolders) s.
Proof.
  revert s log. unfold allFound.
  induction workspaceFolders as [|ws rest IH]; intros s log; simpl; [reflexivity|].
  now rewrite IH, fold_left_app.
Qed.

(** The array handed to the sort holds the paths found, each once. *)
Lemma collected_elements `{FileSearch} (workspaceFolders : list WorkspaceFolder) :
  FileUris (allFound workspaceFolders) ->
  let result := setToArray (collectPomXmls workspaceFolders [] []).1 in
  (forall u, In u result <-> In u (allFound workspaceFolders))
  /\ List.NoDup result.
Proof.
  intros Hfiles result. unfold result. rewrite collectPomXmls_fold.
  assert (Hwf : wfSet (fold_left setAdd (allFound workspaceFolders) [])).
  { apply wfSet_fold. split; [intros k u []|constructor]. }
  assert (Hsub : forall u, In u (setToArray (fold_left setAdd (allFound workspaceFolders) []))
                           -> In u (allFound workspaceFolders)).
  { intros u Hu. destruct (fold_setAdd_elements _ _ _ Hu) as [[]|Hin]. exact Hin. }
  split.
  - intros u. split; [apply Hsub|]. intros Hu.
    destruct (fold_setAdd_covers (allFound workspaceFolders) [] u) as (v & Hv & Hkey);
      [split; [intros k x []|constructor]|exact Hu|].
    assert (v = u) as ->; [|exact Hv].
    pose proof (setKey_inj _ _ Hkey) as Htext.
    pose proof (proj1 (Hfiles v u (Hsub _ Hv) Hu) Htext) as Hpath.
    destruct v, u; simpl in *; congruence.
  - destruct Hwf as [Hkeys Hnodup].
    apply (List.NoDup_map_inv setKey). unfold setToArray. rewrite map_map.
    erewrite map_ext_in; [exact Hnodup|].
    intros [k u] Hin. simpl. symmetry. now apply Hkeys.
Qed.

Lemma nodup_map_injective {A B} (f : A -> B) (l : list A) :
  (forall a b, In a l -> In b l -> f a = f b -> a = b) ->
  List.NoDup l -> List.NoDup (List.map f l).
Proof.
  intros Hinj Hnodup. induction Hnodup as [|x l Hx Hnodup IH]; simpl; constructor.
  - rewrite in_map_iff. intros (z & Heq & Hz).
    assert (z = x) as -> by (apply Hinj; [now right|now left|exact Heq]). contradiction.
  - apply IH. intros a b Ha Hb. apply Hinj; now right.
Qed.

Section Locator.

Context (L : Locale) (HL : LocalePreorder L).

Let cmpUri (a b : Uri) : Z := localeCompare (fsPath a) (fsPath b).

Lemma cmpUri_total (a b : Uri) : cmpUri a b <= 0 \/ cmpUri b a <= 0.
Proof.
  unfold cmpUri. destruct (Z_le_gt_dec (localeCompare (fsPath a) (fsPath b)) 0) as [Hle|Hgt];
    [now left|right].
  apply Z.gt_lt, (compare_flip L HL) in Hgt. lia.
Qed.

Lemma cmpUri_trans (a b c : Uri) : cmpUri a b <= 0 -> cmpUri b c <= 0 -> cmpUri a c <= 0.
Proof. unfold cmpUri. apply (compare_trans L HL). Qed.

Lemma cmpUri_irrefl (a : Uri) : ~ cmpUri a a < 0.
Proof.
  unfold cmpUri. intros Hlt. pose proof (proj1 (compare_flip L HL _ _) Hlt). lia.
Qed.

Lemma locatePomXmls_sortBy `{FileSearch} (workspaceFolders : list WorkspaceFolder) :
  (locatePomXmls workspaceFolders).1
  = sortBy cmpUri (setToArray (collectPomXmls workspaceFolders [] []).1).
Proof.
  unfold locatePomXmls. destruct (collectPomXmls workspaceFolders [] []) as [s log].
  simpl. destruct (Z.gtb_spec (Z.of_nat (List.length (setToArray s))) 1) as [Hlong|Hshort];
    [reflexivity|].
  symmetry. apply sortBy_short. lia.
Qed.

(** Without ties a sorted list of different paths is strictly sorted. *)
Lemma strict_of_sorted (l : list Uri) :
  StronglySorted (fun a b => cmpUri a b <= 0) l ->
  List.NoDup (List.map fsPath l) ->
  TieFree l ->
  StronglySorted (fun a b => cmpUri a b < 0) l.
Proof.
  induction 1 as [|x l Hsorted IH Hx]; intros Hnodup Hties; constructor.
  - apply IH; [now inversion Hnodup|]. intros a b Ha Hb. apply Hties; now right.
  - rewrite List.Forall_forall in *. intros z Hz.
    destruct (Z.eq_dec (cmpUri x z) 0) as [Hzero|Hne]; [|specialize (Hx z Hz); simpl in Hx; lia].
    apply Hties in Hzero; [|now left|now right].
    simpl in Hnodup. inversion Hnodup as [|? ? Hfresh _]. exfalso. apply Hfresh.
    rewrite Hzero. now apply in_map.
Qed.

(** The list returned holds the paths found, each once, and no path
    comes before one that compares lower. *)
Lemma locatePomXmls_sorted `{FileSearch} (workspaceFolders : list WorkspaceFolder) :
  FileUris (allFound workspaceFolders) ->
  StronglySorted (fun a b => cmpUri a b <= 0) (locatePomXmls workspaceFolders).1
  /\ (forall u, In u (locatePomXmls workspaceFolders).1 <-> In u (allFound workspaceFolders))
  /\ List.NoDup (List.map fsPath (locatePomXmls workspaceFolders).1).
Proof.
  intros Hfiles. rewrite locatePomXmls_sortBy.
  destruct (collected_elements workspaceFolders Hfiles) as [Hsame Hnodup].
  set (collected := setToArray (collectPomXmls workspaceFolders [] []).1) in *.
  assert (Hperm : Permutation (sortBy cmpUri collected) collected) by apply sortBy_perm.
  assert (Hin : forall u, In u (sortBy cmpUri collected) <-> In u (allFound workspaceFolders)).
  { intros u. rewrite <- Hsame. split; apply Permutation_in; [exact Hperm|now symmetry]. }
  split; [|split; [exact Hin|]].
  - apply sortBy_sorted; [apply cmpUri_total|apply cmpUri_trans].
  - apply nodup_map_injective.
    + intros a b Ha Hb Hpath. apply Hin in Ha, Hb.
      pose proof (proj2 (Hfiles a b Ha Hb) Hpath) as Htext.
      destruct a, b; simpl in *; congruence.
    + eapply Permutation_NoDup; [symmetry; exact Hperm|exact Hnodup].
Qed.

(** C7, amended. Under a locale whose comparison is a total preorder,
    [locatePomXmls] returns the paths found, each once, sorted by the
    comparison of their full paths: no path comes before one that
    compares lower. When the comparison is zero on no two different
    paths found, the order is strict and a second search that yields
    the same paths in another order gives the same list. When nothing
    is found the list is empty. *)
Theorem locatePomXmls_sorted_set (S1 S2 : FileSearch) (workspaceFolders : list WorkspaceFolder) :
  FileUris (@allFound S1 workspaceFolders) ->
  (forall u, In u (@allFound S1 workspaceFolders) <-> In u (@allFound S2 workspaceFolders)) ->
  let result := (@locatePomXmls S1 L workspaceFolders).1 in
  (forall u, In u result <-> In u (@allFound S1 workspaceFolders))
  /\ List.NoDup (List.map fsPath result)
  /\ StronglySorted (fun a b => localeCompare (fsPath a) (fsPath b) <= 0) result
  /\ (TieFree (@allFound S1 workspaceFolders) ->
      StronglySorted (fun a b => localeCompare (fsPath a) (fsPath b) < 0) result
      /\ (@locatePomXmls S2 L workspaceFolders).1 = result)
  /\ (@allFound S1 workspaceFolders = [] -> result = []).
Proof.
  intros Hfiles Hsame result.
  assert (Hfiles2 : FileUris (@allFound S2 workspaceFolders)).
  { intros u v Hu Hv. apply Hfiles; now apply Hsame. }
  destruct (@locatePomXmls_sorted S1 workspaceFolders Hfiles) as (Hsorted & Hin & Hnodup).
  destruct (@locatePomXmls_sorted S2 workspaceFolders Hfiles2) as (Hsorted2 & Hin2 & Hnodup2).
  fold result in Hsorted, Hin, Hnodup.
  split; [exact Hin|]. split; [exact Hnodup|]. split; [exact Hsorted|].
  split.
  - intros Hties.
    assert (Hstrict : StronglySorted (fun a b => cmpUri a b < 0) result).
    { apply strict_of_sorted; [exact Hsorted|exact Hnodup|].
      intros u v Hu Hv. apply Hties; now apply Hin. }
    assert (Hstrict2 : StronglySorted (fun a b => cmpUri a b < 0)
                         (@locatePomXmls S2 L workspaceFolders).1).
    { apply strict_of_sorted; [exact Hsorted2|exact Hnodup2|].
      intros u v Hu Hv. apply Hties; now apply Hsame, Hin2. }
    split; [exact Hstrict|].
    apply (strictly_sorted_unique (fun a b => cmpUri a b < 0)); try assumption.
    + apply cmpUri_irrefl.
    + intros a b Hab. unfold cmpUri in *. apply (compare_flip L HL) in Hab. lia.
    + intros u. now rewrite Hin2, Hin, Hsame.
  - intros Hnone. destruct result as [|u result']; [reflexivity|].
    pose proof (proj1 (Hin u) (or_introl eq_refl)) as Hu.
    rewrite Hnone in Hu. destruct Hu.
Qed.

End Locator.

Lemma codeUnit_le (a b : string) :
  @localeCompare codeUnitLocale a b <= 0 <-> String.le a b.
Proof.
  unfold String.le, String.leb. simpl.
  destruct (String.compare a b); simpl; split; intros Hle; try exact I; try lia; destruct Hle.
Qed.

Lemma codeUnit_zero (a b : string) : @localeCompare codeUnitLocale a b = 0 -> a = b.
Proof.
  simpl. pose proof (String.compare_eq_iff a b) as Himp.
  destruct (String.compare a b); intros Hzero; try lia. now apply Himp.
Qed.

Lemma codeUnitLocale_preorder : LocalePreorder codeUnitLocale.
Proof.
  split.
  - intros a b. simpl. rewrite (String.compare_antisym b a).
    destruct (String.compare a b); simpl; lia.
  - intros a b c. rewrite !codeUnit_le. apply (@transitivity _ String.le _).
Qed.

Lemma ignoringLocale_preorder : LocalePreorder ignoringLocale.
Proof.
  split.
  - intros a b. apply (compare_flip _ codeUnitLocale_preorder).
  - intros a b c. apply (compare_trans _ codeUnitLocale_preorder).
Qed.

Lemma locatePomXmls_sorted_set_witness :
  (@locatePomXmls searchOne codeUnitLocale [outerFolder; innerFolder]).1
  = [fileUri "/w/api/pom.xml"; fileUri "/w/core/pom.xml"; fileUri "/w/pom.xml"]
  /\ (@locatePomXmls searchTwo codeUnitLocale [outerFolder; innerFolder]).1
     = (@locatePomXmls searchOne codeUnitLocale [outerFolder; innerFolder]).1.
Proof.
  split; [reflexivity|].
  apply (locatePomXmls_sorted_set codeUnitLocale codeUnitLocale_preorder
           searchOne searchTwo [outerFolder; innerFolder]).
  - intros u v Hu Hv. simpl in Hu, Hv.
    repeat (destruct Hu as [<-|Hu]); try contradiction;
      repeat (destruct Hv as [<-|Hv]); try contradiction;
      split; intros Heq; first [reflexivity | discriminate Heq].
  - intros u. simpl. tauto.
  - intros u v _ _. apply codeUnit_zero.
Defined.

(** C7 as it is worded fails: the comparison of the host is zero on
    paths that differ by an ignored code unit, the stable sort leaves
    such paths in the order of the search, and two searches that find
    the same two descriptors return them in different orders. *)
Lemma locatePomXmls_tie_order :
  LocalePreorder ignoringLocale
  /\ FileUris (@allFound searchHyphenFirst [outerFolder])
  /\ (forall u, In u (@allFound searchHyphenFirst [outerFolder])
                <-> In u (@allFound searchPlainFirst [outerFolder]))
  /\ (@locatePomXmls searchHyphenFirst ignoringLocale [outerFolder]).1
     = [fileUri hyphenPom; fileUri plainPom]
  /\ (@locatePomXmls searchPlainFirst ignoringLocale [outerFolder]).1
     = [fileUri plainPom; fileUri hyphenPom]
  /\ (@locatePomXmls searchPlainFirst ignoringLocale [outerFolder]).1
     <> (@locatePomXmls searchHyphenFirst ignoringLocale [outerFolder]).1.
Proof.
  split; [exact ignoringLocale_preorder|]. split; [|split; [|split; [|split]]].
  - intros u v Hu Hv. simpl in Hu, Hv.
    repeat (destruct Hu as [<-|Hu]); try contradiction;
      repeat (destruct Hv as [<-|Hv]); try contradiction;
      split; intros Heq; first [reflexivity | discriminate Heq].
  - intros u. simpl. tauto.
  - reflexivity.
  - reflexivity.
  - intros Heq. vm_compute in Heq. discriminate Heq.
Qed.

(** ** Prototype tree *)

Lemma PomTree_forall_ind (P : PomTree -> Prop) :
  (forall g pg p cs, Forall P cs -> P (PomNode g pg p cs)) ->
  forall t, P t.
Proof.
  intros Hnode. fix IH 1. intros [g pg p cs]. apply Hnode.
  induction cs as [|c cs IHcs]; constructor; [apply IH|exact IHcs].
Qed.

Lemma treeLinks_snd (above : option string) (t : PomTree) :
  List.map snd (treeLinks above t) = treeGavs t.
Proof.
  revert above. induction t as [g pg p cs IH] using PomTree_forall_ind; intros above.
  simpl. f_equal. induction IH as [|c cs Hc _ IHcs]; simpl; [reflexivity|].
  now rewrite map_app, Hc, IHcs.
Qed.

Lemma forestLinks_snd (f : list PomTree) : List.map snd (forestLinks f) = forestGavs f.
Proof.
  unfold forestLinks, forestGavs. induction f as [|t f IH]; simpl; [reflexivity|].
  now rewrite map_app, treeLinks_snd, IH.
Qed.

Lemma forestLinks_app (f1 f2 : list PomTree) :
  forestLinks (f1 ++ f2) = forestLinks f1 ++ forestLinks f2.
Proof. apply flat_map_app. Qed.

Lemma forestGavs_app (f1 f2 : list PomTree) :
  forestGavs (f1 ++ f2) = forestGavs f1 ++ forestGavs f2.
Proof. apply flat_map_app. Qed.

(** [deepSearch] finds an identity exactly when a node of the tree
    carries it, and what it finds carries it. *)
Lemma deepSearch_spec (g : string) (t : PomTree) :
  (In g (treeGavs t) /\ exists n, deepSearch g t = Some n /\ pomGav n = g)
  \/ (~ In g (treeGavs t) /\ deepSearch g t = None).
Proof.
  induction t as [g0 pg p cs IH] using PomTree_forall_ind. simpl.
  destruct (String.eqb_spec g0 g) as [->|Hne].
  - left. split; [now left|]. eexists. split; reflexivity.
  - induction IH as [|c cs Hc _ IHcs]; simpl.
    + right. split; [tauto|reflexivity].
    + destruct Hc as [[Hin (n & -> & Hn)]|[Hnot ->]].
      * left. split; [right; apply in_or_app; now left|]. eauto.
      * destruct IHcs as [[Hin Hfound]|[Hnot' Hnone]].
        -- left. split; [|exact Hfound].
           destruct Hin as [Heq|Hin]; [now left|right; apply in_or_app; now right].
        -- right. split; [|exact Hnone].
           intros [Heq|Hin]; [tauto|]. apply in_app_or in Hin as [Hin|Hin]; tauto.
Qed.

Lemma getPrototypeNode_spec (f : list PomTree) (g : string) :
  (In g (forestGavs f) /\ exists n, getPrototypeNode f g = Some n /\ pomGav n = g)
  \/ (~ In g (forestGavs f) /\ getPrototypeNode f g = None).
Proof.
  induction f as [|t f IH]; simpl.
  - right. split; [tauto|reflexivity].
  - destruct (deepSearch_spec g t) as [[Hin (n & -> & Hn)]|[Hnot ->]].
    + left. split; [apply in_or_app; now left|]. eauto.
    + destruct IH as [[Hin Hfound]|[Hnot' Hnone]].
      * left. split; [apply in_or_app; now right|exact Hfound].
      * right. split; [|exact Hnone]. intros Hin. apply in_app_or in Hin. tauto.
Qed.

(** [addChild] under the node that carries the identity adds the links
    of the new child, hung under that identity, and nothing else. *)
Lemma addChildUnder_spec (g : string) (node t : PomTree) :
  (In g (treeGavs t)
   /\ exists t', addChildUnder g node t = Some t'
                 /\ forall above, Permutation (treeLinks above t')
                                              (treeLinks above t ++ treeLinks (Some g) node))
  \/ (~ In g (treeGavs t) /\ addChildUnder g node t = None).
Proof.
  induction t as [g0 pg p cs IH] using PomTree_forall_ind. simpl.
  destruct (String.eqb_spec g0 g) as [->|Hne].
  - left. split; [now left|]. eexists. split; [reflexivity|].
    intros above. unfold addChild. simpl. rewrite flat_map_app. simpl.
    now rewrite app_nil_r.
  - induction IH as [|c cs Hc _ IHcs]; simpl.
    + right. split; [tauto|reflexivity].
    + destruct Hc as [[Hin (c' & -> & Hperm)]|[Hnot ->]].
      * left. split; [right; apply in_or_app; now left|].
        eexists. split; [reflexivity|]. intros above. simpl.
        rewrite (Hperm (Some g0)). rewrite <- !app_assoc. constructor.
        apply Permutation_app_head, Permutation_app_comm.
      * destruct IHcs as [[Hin (t' & Ht' & Hperm)]|[Hnot' Hnone]].
        -- left. split;
             [destruct Hin as [Heq|Hin]; [now left|right; apply in_or_app; now right]|].
           destruct (_ cs) as [cs'|] eqn:Hcs; [|discriminate Ht'].
           simpl in Ht'. inversion Ht'; subst t'; clear Ht'.
           eexists. split; [reflexivity|]. intros above. specialize (Hperm above).
           simpl in *. apply Permutation_cons_inv in Hperm. constructor.
           rewrite <- app_assoc. now apply Permutation_app_head.
        -- right. split.
           ++ intros [Heq|Hin]; [tauto|]. apply in_app_or in Hin as [Hin|Hin]; tauto.
           ++ destruct (_ cs) as [cs'|] eqn:Hcs; [discriminate Hnone|reflexivity].
Qed.

Lemma addChildInArray_links (g : string) (node : PomTree) (f : list PomTree) :
  In g (forestGavs f) ->
  Permutation (forestLinks (addChildInArray g node f))
              (forestLinks f ++ treeLinks (Some g) node).
Proof.
  induction f as [|t f IH]; simpl; [tauto|]. intros Hin.
  destruct (addChildUnder_spec g node t) as [[_ (t' & -> & Hperm)]|[Hnot ->]].
  - unfold forestLinks. simpl. rewrite (Hperm None). rewrite <- !app_assoc.
    apply Permutation_app_head, Permutation_app_comm.
  - apply in_app_or in Hin as [Hin|Hin]; [tauto|].
    unfold forestLinks in *. simpl. rewrite (IH Hin). now rewrite app_assoc.
Qed.

Lemma treeLinks_head (above : option string) (t : PomTree) :
  treeLinks above t = (above, pomGav t) :: belowLinks t.
Proof. now destruct t. Qed.

Lemma belowLinks_setPathAndParent (t : PomTree) (path parent : string) :
  belowLinks (setPathAndParent t path parent) = belowLinks t.
Proof. now destruct t. Qed.

Lemma belowLinks_some (t : PomTree) (e : option string * string) :
  In e (belowLinks t) -> exists above, e.1 = Some above.
Proof.
  unfold belowLinks. intros Hin. apply in_flat_map in Hin as (c & _ & Hin).
  revert e Hin. generalize (pomGav t).
  induction c as [g pg p cs IH] using PomTree_forall_ind. intros above e Hin.
  simpl in Hin. destruct Hin as [<-|Hin]; [now exists above|].
  apply in_flat_map in Hin as (c & Hc & Hin).
  rewrite List.Forall_forall in IH. exact (IH c Hc g e Hin).
Qed.

(** What [addPrototypeNode] does to the links, in its three cases. *)
Lemma addPrototypeNode_root (f : list PomTree) (node : PomTree) :
  parentGav node = EmptyString ->
  forestLinks (addPrototypeNode f node) = forestLinks f ++ treeLinks None node.
Proof.
  intros Hroot. unfold addPrototypeNode. rewrite Hroot. simpl.
  rewrite forestLinks_app. unfold forestLinks at 2. simpl. now rewrite app_nil_r.
Qed.

Lemma addPrototypeNode_known_parent (f : list PomTree) (node : PomTree) :
  parentGav node <> EmptyString ->
  In (parentGav node) (forestGavs f) ->
  Permutation (forestLinks (addPrototypeNode f node))
              (forestLinks f ++ treeLinks (Some (parentGav node)) node).
Proof.
  intros Hparent Hin. unfold addPrototypeNode.
  destruct (String.eqb_spec (parentGav node) EmptyString) as [Heq|_]; [contradiction|]. simpl.
  destruct (getPrototypeNode_spec f (parentGav node)) as [[_ (n & -> & _)]|[Hnot _]];
    [|contradiction].
  now apply addChildInArray_links.
Qed.

Lemma addPrototypeNode_new_parent (f : list PomTree) (node : PomTree) :
  parentGav node <> EmptyString ->
  ~ In (parentGav node) (forestGavs f) ->
  forestLinks (addPrototypeNode f node)
  = forestLinks f ++ (None, parentGav node) :: treeLinks (Some (parentGav node)) node.
Proof.
  intros Hparent Hnot. unfold addPrototypeNode.
  destruct (String.eqb_spec (parentGav node) EmptyString) as [Heq|_]; [contradiction|]. simpl.
  destruct (getPrototypeNode_spec f (parentGav node)) as [[Hin _]|[_ ->]];
    [contradiction|].
  rewrite forestLinks_app. unfold forestLinks at 2. simpl. now rewrite !app_nil_r.
Qed.

(** [searchPomGav] looks at the roots only: it answers [-1] when no
    root carries the identity, and the place of the first root that
    does otherwise. *)
Lemma findIndexFrom_spec (g : string) (i : Z) (f : list PomTree) :
  (findIndexFrom g i f = -1 /\ ~ In g (List.map pomGav f))
  \/ (exists before t after,
        f = before ++ t :: after /\ pomGav t = g /\ ~ In g (List.map pomGav before)
        /\ findIndexFrom g i f = i + Z.of_nat (List.length before)).
Proof.
  revert i. induction f as [|t f IH]; intros i; simpl.
  - left. tauto.
  - destruct (String.eqb_spec (pomGav t) g) as [Heq|Hne].
    + right. exists [], t, f. simpl. repeat split; [exact Heq|tauto|lia].
    + destruct (IH (i + 1)) as [(Hnone & Hnot)|(before & t' & after & -> & Ht' & Hnot & Hi)].
      * left. split; [exact Hnone|tauto].
      * right. exists (t :: before), t', after. simpl.
        repeat split; [exact Ht'|tauto|lia].
Qed.

Lemma searchPomGav_spec (f : list PomTree) (g : string) :
  (searchPomGav f g = -1 /\ ~ In g (List.map pomGav f))
  \/ (exists before t after,
        f = before ++ t :: after /\ pomGav t = g /\ ~ In g (List.map pomGav before)
        /\ searchPomGav f g = Z.of_nat (List.length before)).
Proof.
  unfold searchPomGav.
  destruct (findIndexFrom_spec g 0 f) as [(Hnone & Hnot)|(before & t & after & Hf & Ht & Hnot & Hi)].
  - now left.
  - right. exists before, t, after. now rewrite Hi.
Qed.

Lemma searchPomGav_first (before after : list PomTree) (t : PomTree) (g : string) :
  pomGav t = g ->
  ~ In g (List.map pomGav before) ->
  searchPomGav (before ++ t :: after) g = Z.of_nat (List.length before).
Proof.
  intros Ht Hnot. unfold searchPomGav.
  assert (Hfrom : forall i, findIndexFrom g i (before ++ t :: after)
                            = i + Z.of_nat (List.length before)).
  { induction before as [|b before IH]; intros i; simpl.
    - apply String.eqb_eq in Ht. rewrite Ht. lia.
    - destruct (String.eqb_spec (pomGav b) g) as [Heq|_].
      + destruct Hnot. now left.
      + rewrite IH; [lia|]. intros Hin. apply Hnot. now right. }
  now rewrite Hfrom.
Qed.

Lemma spliceOne_middle {A} (before after : list A) (x : A) :
  spliceOne (before ++ x :: after) (List.length before) = before ++ after.
Proof.
  unfold spliceOne. rewrite firstn_app, Nat.sub_diag, firstn_all. simpl.
  rewrite app_nil_r. f_equal.
  rewrite skipn_app, skipn_all2 by lia.
  replace (S (List.length before) - List.length before)%nat with 1%nat by lia.
  reflexivity.
Qed.

Section Builder.

Context `{NodePath}.

(** The three ways of the loop body: the descriptor is skipped, a root
    is taken out and reused, or a node is made. *)
Lemma addPom_skipped (f : list PomTree) (pom : ResolvedPom) :
  rpGav pom = EmptyString -> addPom f pom = f.
Proof. intros Hempty. unfold addPom. now rewrite Hempty. Qed.

Lemma addPom_reused (before after : list PomTree) (t : PomTree) (pom : ResolvedPom) :
  rpGav pom <> EmptyString ->
  pomGav t = rpGav pom ->
  ~ In (rpGav pom) (List.map pomGav before) ->
  addPom (before ++ t :: after) pom
  = addPrototypeNode (before ++ after)
      (setPathAndParent t (dirname (rpPath pom)) (rpParentGav pom)).
Proof.
  intros Hgav Ht Hnot. unfold addPom.
  destruct (String.eqb_spec (rpGav pom) EmptyString) as [Heq|_]; [contradiction|]. simpl.
  rewrite (searchPomGav_first _ _ _ _ Ht Hnot).
  destruct (Z.gtb_spec (Z.of_nat (List.length before)) (-1)) as [_|Hneg]; [|lia].
  rewrite Nat2Z.id, spliceOne_middle.
  rewrite app_nth2, Nat.sub_diag by lia. reflexivity.
Qed.

Lemma addPom_made (f : list PomTree) (pom : ResolvedPom) :
  rpGav pom <> EmptyString ->
  ~ In (rpGav pom) (List.map pomGav f) ->
  addPom f pom
  = addPrototypeNode f
      (setPathAndParent (newPomTree (rpGav pom)) (dirname (rpPath pom)) (rpParentGav pom)).
Proof.
  intros Hgav Hnot. unfold addPom.
  destruct (String.eqb_spec (rpGav pom) EmptyString) as [Heq|_]; [contradiction|]. simpl.
  destruct (searchPomGav_spec f (rpGav pom))
    as [[-> _]|(b' & t' & a' & -> & Ht' & _ & _)].
  - reflexivity.
  - destruct Hnot. rewrite map_app, in_app_iff. right. now left.
Qed.

End Builder.

(** *** The links along the loop *)

Lemma root_link (f : list PomTree) (g : string) :
  In (None, g) (forestLinks f) <-> In g (List.map pomGav f).
Proof.
  unfold forestLinks. rewrite in_flat_map, in_map_iff. split.
  - intros (t & Ht & Hin). exists t. split; [|exact Ht].
    rewrite treeLinks_head in Hin. destruct Hin as [Heq|Hin]; [now inversion Heq|].
    apply belowLinks_some in Hin as [above Habove]. discriminate Habove.
  - intros (t & <- & Ht). exists t. split; [exact Ht|]. rewrite treeLinks_head. now left.
Qed.

Lemma gav_link (f : list PomTree) (g : string) :
  In g (forestGavs f) <-> exists above, In (above, g) (forestLinks f).
Proof.
  rewrite <- forestLinks_snd, in_map_iff. split.
  - intros ([above g'] & Heq & Hin). simpl in Heq. subst g'. eauto.
  - intros [above Hin]. now exists (above, g).
Qed.

Lemma addPrototypeNode_links_in (f : list PomTree) (node : PomTree)
    (e : option string * string) :
  In e (forestLinks (addPrototypeNode f node)) ->
  In e (forestLinks f) \/ e.2 = pomGav node \/ In e (belowLinks node)
  \/ e = (None, parentGav node).
Proof.
  intros Hin.
  destruct (String.eqb_spec (parentGav node) EmptyString) as [Hroot|Hparent].
  - rewrite (addPrototypeNode_root _ _ Hroot), in_app_iff, treeLinks_head in Hin.
    destruct Hin as [Hin|[<-|Hin]]; auto.
  - destruct (in_dec string_dec (parentGav node) (forestGavs f)) as [Hknown|Hnew].
    + apply (Permutation_in _ (addPrototypeNode_known_parent _ _ Hparent Hknown)) in Hin.
      rewrite in_app_iff, treeLinks_head in Hin. destruct Hin as [Hin|[<-|Hin]]; auto.
    + rewrite (addPrototypeNode_new_parent _ _ Hparent Hnew), in_app_iff in Hin.
      rewrite treeLinks_head in Hin. destruct Hin as [Hin|[<-|[<-|Hin]]]; auto.
Qed.

Lemma resolvedGavs_snoc (done : list ResolvedPom) (pom : ResolvedPom) (g : string) :
  In g (resolvedGavs (done ++ [pom]))
  <-> In g (resolvedGavs done) \/ (g = rpGav pom /\ g <> EmptyString).
Proof.
  unfold resolvedGavs. rewrite map_app, List.filter_app, in_app_iff. simpl.
  destruct (String.eqb_spec (rpGav pom) EmptyString) as [Hempty|Hgav]; simpl.
  - split; [tauto|]. intros [Hin|[-> Hne]]; [tauto|contradiction].
  - split; [intros [Hin|[<-|[]]]; auto|]. intros [Hin|[-> _]]; auto.
Qed.

Section BuilderInvariants.

Context `{NodePath}.

(** A node below another one always carries an identity that a
    descriptor was resolved under: placeholders are roots. *)
Lemma addPom_nested (done : list ResolvedPom) (f : list PomTree) (pom : ResolvedPom) :
  nestedResolved done f -> nestedResolved (done ++ [pom]) (addPom f pom).
Proof.
  intros Hnested above g Hlink. apply resolvedGavs_snoc.
  destruct (String.eqb_spec (rpGav pom) EmptyString) as [Hempty|Hgav].
  - rewrite (addPom_skipped _ _ Hempty) in Hlink. left. eapply Hnested, Hlink.
  - destruct (searchPomGav_spec f (rpGav pom))
      as [[_ Hnone]|(before & t & after & -> & Ht & Hnot & _)].
    + rewrite (addPom_made _ _ Hgav Hnone) in Hlink.
      apply addPrototypeNode_links_in in Hlink as [Hin|[Heq|[Hin|Heq]]].
      * left. eapply Hnested, Hin.
      * right. simpl in Heq. now subst g.
      * destruct Hin.
      * discriminate Heq.
    + rewrite (addPom_reused _ _ _ _ Hgav Ht Hnot) in Hlink.
      apply addPrototypeNode_links_in in Hlink as [Hin|[Heq|[Hin|Heq]]].
      * left. apply (Hnested above). rewrite forestLinks_app in *.
        rewrite in_app_iff in *. simpl. unfold forestLinks at 2. simpl.
        rewrite in_app_iff. tauto.
      * right. simpl in Heq. subst g. destruct t. simpl in *. split; congruence.
      * left. apply (Hnested above). rewrite belowLinks_setPathAndParent in Hin.
        rewrite forestLinks_app, in_app_iff. right. unfold forestLinks. simpl.
        rewrite in_app_iff, treeLinks_head. simpl. tauto.
      * discriminate Heq.
Qed.

Lemma fold_addPom_nested (resolved done : list ResolvedPom) (f : list PomTree) :
  nestedResolved done f ->
  nestedResolved (done ++ resolved) (fold_left addPom resolved f).
Proof.
  revert done f. induction resolved as [|pom resolved IH]; intros done f Hnested; simpl.
  - now rewrite app_nil_r.
  - replace (done ++ pom :: resolved) with ((done ++ [pom]) ++ resolved)
      by now rewrite <- app_assoc.
    apply IH. now apply addPom_nested.
Qed.

End BuilderInvariants.

(** C1, amended. The search of step 2 looks at the roots of the forest
    only: it answers [-1] exactly when no root carries the identity;
    when a root carries it, the first such root is taken out of the
    array and reused with its children; and a node that is in the
    forest under an identity no descriptor was resolved under so far (a
    placeholder made for a parent) is a root, so the search finds it. *)
Theorem searchPomGav_roots_only `{NodePath} :
  (forall f g, searchPomGav f g = -1 <-> ~ In g (List.map pomGav f))
  /\ (forall before t after pom,
        rpGav pom <> EmptyString ->
        pomGav t = rpGav pom ->
        ~ In (rpGav pom) (List.map pomGav before) ->
        searchPomGav (before ++ t :: after) (rpGav pom) = Z.of_nat (List.length before)
        /\ addPom (before ++ t :: after) pom
           = addPrototypeNode (before ++ after)
               (PomNode (pomGav t) (rpParentGav pom) (dirname (rpPath pom)) (children t)))
  /\ (forall done pom,
        ~ In (rpGav pom) (resolvedGavs done) ->
        In (rpGav pom) (forestGavs (fold_left addPom done [])) ->
        In (rpGav pom) (List.map pomGav (fold_left addPom done []))
        /\ 0 <= searchPomGav (fold_left addPom done []) (rpGav pom)).
Proof.
  assert (Hminus : forall f g, searchPomGav f g = -1 <-> ~ In g (List.map pomGav f)).
  { intros f g. destruct (searchPomGav_spec f g)
      as [[Hnone Hnot]|(before & t & after & -> & Ht & Hnot & Hi)].
    - tauto.
    - split; [lia|]. intros Hno. destruct Hno.
      rewrite map_app, in_app_iff. right. now left. }
  split; [exact Hminus|]. split.
  - intros before t after pom Hgav Ht Hnot. split.
    + now apply searchPomGav_first.
    + now rewrite (addPom_reused _ _ _ _ Hgav Ht Hnot).
  - intros done pom Hfresh Hin.
    assert (Hroot : In (rpGav pom) (List.map pomGav (fold_left addPom done []))).
    { apply gav_link in Hin as [[above|] Hlink]; [|now apply root_link].
      destruct Hfresh.
      apply (fold_addPom_nested done [] [] (fun a g (F : In (Some a, g) []) => match F with end))
        in Hlink. exact Hlink. }
    split; [exact Hroot|].
    destruct (searchPomGav_spec (fold_left addPom done []) (rpGav pom))
      as [[_ Hnone]|(before & t & after & _ & _ & _ & ->)]; [contradiction|lia].
Qed.

Lemma searchPomGav_roots_only_witness :
  In "g:p:1" (List.map pomGav (fold_left (@addPom posixPath)
                                 (resolvedOf [("/a/pom.xml", "g:a:1", "g:p:1")]) []))
  /\ 0 <= searchPomGav (fold_left (@addPom posixPath)
                          (resolvedOf [("/a/pom.xml", "g:a:1", "g:p:1")]) []) "g:p:1".
Proof.
  apply (proj2 (proj2 (@searchPomGav_roots_only posixPath))
           (resolvedOf [("/a/pom.xml", "g:a:1", "g:p:1")])
           (mkResolvedPom "/w/p/pom.xml" "g:p:1" EmptyString)).
  - simpl. intros [Heq|[]]. discriminate Heq.
  - simpl. tauto.
Defined.

(** C1 as it is worded fails: after the parent and the first of the
    twin descriptors, the identity g:a:1 is in the forest, below the
    root, where [deepSearch] finds it and [searchPomGav] does not; the
    second twin is given a node of its own with the same identity. *)
Lemma searchPomGav_misses_nested :
  let f := fold_left (@addPom posixPath)
             (resolvedOf [("/w/pom.xml", "g:p:1", EmptyString);
                          ("/w/a/pom.xml", "g:a:1", "g:p:1")]) [] in
  getPrototypeNode f "g:a:1" = Some (PomNode "g:a:1" "g:p:1" "/w/a" [])
  /\ searchPomGav f "g:a:1" = -1
  /\ @addPom posixPath f (mkResolvedPom "/w/b/pom.xml" "g:a:1" "g:p:1")
     = [PomNode "g:p:1" EmptyString "/w"
          [PomNode "g:a:1" "g:p:1" "/w/a" []; PomNode "g:a:1" "g:p:1" "/w/b" []]]
  /\ ~ (forall g, In g (forestGavs f) -> 0 <= searchPomGav f g).
Proof.
  split; [reflexivity|]. split; [reflexivity|]. split; [reflexivity|].
  intros Hclaim. specialize (Hclaim "g:a:1"). simpl in Hclaim.
  assert (Hneg : 0 <= -1) by (apply Hclaim; tauto). lia.
Qed.

(** *** Unique identities along the loop *)

Lemma nodup_rotate {A} (x : A) (a b : list A) :
  List.NoDup (x :: a ++ b) -> List.NoDup (b ++ x :: a).
Proof.
  intros Hnodup. eapply Permutation_NoDup; [|exact Hnodup].
  etransitivity; [|apply Permutation_middle]. constructor. apply Permutation_app_comm.
Qed.

Lemma nodup_rotate_two {A} (x y : A) (a b : list A) :
  List.NoDup (x :: a ++ b) -> ~ In y (x :: a ++ b) -> List.NoDup (b ++ y :: x :: a).
Proof.
  intros Hnodup Hy. eapply Permutation_NoDup; [apply Permutation_middle|].
  constructor.
  - intros Hin. apply Hy. apply in_app_or in Hin as [Hin|[Heq|Hin]].
    + right. apply in_or_app. now right.
    + now left.
    + right. apply in_or_app. now left.
  - now apply nodup_rotate.
Qed.

Lemma belowLinks_rank (rank : string -> nat) (t : PomTree) :
  (forall above g, In (Some above, g) (belowLinks t) -> (rank above < rank g)%nat) ->
  forall e, In e (belowLinks t) -> (rank (pomGav t) < rank e.2)%nat.
Proof.
  induction t as [g pg p cs IH] using PomTree_forall_ind. unfold belowLinks. simpl.
  intros Hrank e Hin. apply in_flat_map in Hin as (c & Hc & Hin).
  rewrite List.Forall_forall in IH.
  assert (Hhead : (rank g < rank (pomGav c))%nat).
  { apply Hrank. apply in_flat_map. exists c. split; [exact Hc|].
    rewrite treeLinks_head. now left. }
  rewrite treeLinks_head in Hin. destruct Hin as [<-|Hin]; [exact Hhead|].
  etransitivity; [exact Hhead|]. apply (IH c Hc); [|exact Hin].
  intros above g' Hbelow. apply Hrank. apply in_flat_map. exists c. split; [exact Hc|].
  rewrite treeLinks_head. now right.
Qed.

Section UniqueIdentities.

Context `{NodePath}.

Variable rank : string -> nat.

(** The node the loop body works on, and what is left of the forest
    when it is taken out: the node carries the identity of the
    descriptor, which no other node carries. *)
Lemma addPom_detach (done : list ResolvedPom) (f : list PomTree) (pom : ResolvedPom) :
  rpGav pom <> EmptyString ->
  uniqueIdentities f ->
  nestedResolved done f ->
  ~ In (rpGav pom) (resolvedGavs done) ->
  exists t rest,
    addPom f pom
    = addPrototypeNode rest (setPathAndParent t (dirname (rpPath pom)) (rpParentGav pom))
    /\ pomGav t = rpGav pom
    /\ List.NoDup (rpGav pom :: List.map snd (belowLinks t ++ forestLinks rest))
    /\ (forall e, In e (belowLinks t ++ forestLinks rest) -> In e (forestLinks f)).
Proof.
  intros Hgav Hunique Hnested Hfresh.
  destruct (searchPomGav_spec f (rpGav pom))
    as [[_ Hnone]|(before & t & after & -> & Ht & Hnot & _)].
  - exists (newPomTree (rpGav pom)), f. split; [now apply addPom_made|].
    split; [reflexivity|]. simpl. rewrite forestLinks_snd. split; [|tauto].
    constructor; [|exact Hunique].
    intros Hin. apply gav_link in Hin as [[above|] Hlink].
    + apply Hfresh. eapply Hnested, Hlink.
    + now apply root_link in Hlink.
  - exists t, (before ++ after). split; [now apply addPom_reused|].
    split; [exact Ht|].
    assert (Hperm : Permutation (forestLinks (before ++ t :: after))
                      ((None, rpGav pom) :: belowLinks t ++ forestLinks (before ++ after))).
    { rewrite !forestLinks_app. unfold forestLinks at 2. simpl. fold (forestLinks after).
      rewrite treeLinks_head, Ht. simpl.
      rewrite <- Permutation_middle. constructor.
      rewrite !app_assoc. apply Permutation_app_tail, Permutation_app_comm. }
    split.
    + unfold uniqueIdentities in Hunique. rewrite <- forestLinks_snd in Hunique.
      eapply Permutation_NoDup in Hunique; [|apply Permutation_map, Hperm]. exact Hunique.
    + intros e He. eapply Permutation_in; [symmetry; exact Hperm|]. now right.
Qed.

(** One turn of the loop keeps the identities unique when the
    descriptor brings a new identity whose parent ranks below it. *)
Lemma addPom_unique (done : list ResolvedPom) (f : list PomTree) (pom : ResolvedPom) :
  uniqueIdentities f ->
  linksRankUp rank f ->
  nestedResolved done f ->
  (rpGav pom <> EmptyString -> ~ In (rpGav pom) (resolvedGavs done)) ->
  (rpGav pom <> EmptyString -> rpParentGav pom <> EmptyString ->
   (rank (rpParentGav pom) < rank (rpGav pom))%nat) ->
  uniqueIdentities (addPom f pom) /\ linksRankUp rank (addPom f pom).
Proof.
  intros Hunique Hrank Hnested Hfresh Hparent.
  destruct (String.eqb_spec (rpGav pom) EmptyString) as [Hempty|Hgav].
  { now rewrite (addPom_skipped _ _ Hempty). }
  destruct (addPom_detach done f pom Hgav Hunique Hnested (Hfresh Hgav))
    as (t & rest & -> & Ht & Hnodup & Hsub).
  set (node := setPathAndParent t (dirname (rpPath pom)) (rpParentGav pom)).
  assert (Hnode : forall above, treeLinks above node = (above, rpGav pom) :: belowLinks t).
  { intros above. unfold node. rewrite treeLinks_head, belowLinks_setPathAndParent.
    destruct t. simpl in *. now rewrite Ht. }
  assert (Hpg : parentGav node = rpParentGav pom) by reflexivity.
  assert (Hbelow : forall e, In e (belowLinks t) -> (rank (rpGav pom) < rank e.2)%nat).
  { rewrite <- Ht. apply belowLinks_rank. intros above g Hin.
    apply Hrank, Hsub, in_or_app. now left. }
  assert (Hold : forall above g, In (Some above, g) (belowLinks t ++ forestLinks rest) ->
                                 (rank above < rank g)%nat).
  { intros above g Hin. apply Hrank, Hsub, Hin. }
  assert (Hnodup' : List.NoDup (rpGav pom :: List.map snd (belowLinks t)
                                  ++ List.map snd (forestLinks rest))).
  { now rewrite <- map_app. }
  unfold uniqueIdentities, linksRankUp. rewrite <- forestLinks_snd.
  destruct (String.eqb_spec (rpParentGav pom) EmptyString) as [Hroot|Hhas].
  - rewrite (addPrototypeNode_root rest node) by now rewrite Hpg.
    rewrite Hnode. split.
    + rewrite map_app. simpl. now apply nodup_rotate.
    + intros above g Hin. apply in_app_or in Hin as [Hin|[Heq|Hin]].
      * apply Hold, in_or_app. now right.
      * discriminate Heq.
      * apply Hold, in_or_app. now left.
  - specialize (Hparent Hgav Hhas).
    destruct (in_dec string_dec (rpParentGav pom) (forestGavs rest)) as [Hknown|Hnew].
    + pose proof (addPrototypeNode_known_parent rest node) as Hperm.
      rewrite Hpg in Hperm. specialize (Hperm Hhas Hknown). rewrite Hnode in Hperm. split.
      * eapply Permutation_NoDup; [symmetry; apply Permutation_map, Hperm|].
        rewrite map_app. simpl. now apply nodup_rotate.
      * intros above g Hin. apply (Permutation_in _ Hperm) in Hin.
        apply in_app_or in Hin as [Hin|[Heq|Hin]].
        -- apply Hold, in_or_app. now right.
        -- inversion Heq; subst above g. exact Hparent.
        -- apply Hold, in_or_app. now left.
    + pose proof (addPrototypeNode_new_parent rest node) as Heq.
      rewrite Hpg in Heq. specialize (Heq Hhas Hnew). rewrite Hnode in Heq. rewrite Heq. split.
      * rewrite map_app. simpl. apply nodup_rotate_two; [exact Hnodup'|].
        intros [Hsame|Hin]; [rewrite Hsame in Hparent; lia|].
        apply in_app_or in Hin as [Hin|Hin].
        -- apply in_map_iff in Hin as (e & He & Hin). apply Hbelow in Hin.
           rewrite He in Hin. lia.
        -- rewrite forestLinks_snd in Hin. contradiction.
      * intros above g Hin. apply in_app_or in Hin as [Hin|[Hsame|[Hsame|Hin]]].
        -- apply Hold, in_or_app. now right.
        -- discriminate Hsame.
        -- inversion Hsame; subst above g. exact Hparent.
        -- apply Hold, in_or_app. now left.
Qed.

Lemma fold_addPom_unique (resolved done : list ResolvedPom) (f : list PomTree) :
  List.NoDup (resolvedGavs (done ++ resolved)) ->
  parentsRankBelow rank resolved ->
  uniqueIdentities f -> linksRankUp rank f -> nestedResolved done f ->
  uniqueIdentities (fold_left addPom resolved f).
Proof.
  revert done f. induction resolved as [|pom resolved IH];
    intros done f Hdistinct Hparents Hunique Hrank Hnested; simpl; [exact Hunique|].
  assert (Hsplit : resolvedGavs (done ++ pom :: resolved)
                   = resolvedGavs (done ++ [pom]) ++ resolvedGavs resolved).
  { unfold resolvedGavs. now rewrite <- List.filter_app, <- map_app, <- app_assoc. }
  destruct (addPom_unique done f pom Hunique Hrank Hnested) as [Hunique' Hrank'].
  - intros Hgav Hin. rewrite Hsplit in Hdistinct.
    apply List.NoDup_app_remove_r in Hdistinct.
    unfold resolvedGavs in Hdistinct, Hin. rewrite map_app, List.filter_app in Hdistinct.
    simpl in Hdistinct.
    destruct (String.eqb_spec (rpGav pom) EmptyString) as [Hempty|_]; [contradiction|].
    simpl in Hdistinct. apply List.NoDup_remove_2 in Hdistinct.
    apply Hdistinct. rewrite app_nil_r. exact Hin.
  - intros Hgav Hhas. apply Hparents; [now left|exact Hgav|exact Hhas].
  - apply (IH (done ++ [pom])).
    + now rewrite <- app_assoc.
    + intros r Hr. apply Hparents. now right.
    + exact Hunique'.
    + exact Hrank'.
    + now apply addPom_nested.
Qed.

End UniqueIdentities.

(** *** The last loop *)

Lemma treeSize_node (g pg p : string) (cs : list PomTree) :
  treeSize (PomNode g pg p cs) = S (forestSize cs).
Proof.
  reflexivity.
Qed.

Lemma forestSize_app (f1 f2 : list PomTree) :
  forestSize (f1 ++ f2) = (forestSize f1 + forestSize f2)%nat.
Proof.
  unfold forestSize. induction f1 as [|t f1 IH]; simpl; [reflexivity|]. rewrite IH. lia.
Qed.

Lemma forestSize_tail (f : list PomTree) : (forestSize (skipn 1 f) <= forestSize f)%nat.
Proof.
  destruct f as [|t f]; [simpl; lia|].
  change (skipn 1 (t :: f)) with f. unfold forestSize. simpl. lia.
Qed.

Lemma nth_error_split_at {A} (l : list A) (i : nat) (x : A) :
  nth_error l i = Some x ->
  l = firstn i l ++ x :: skipn (S i) l /\ List.length (firstn i l) = i.
Proof.
  revert i. induction l as [|y l IH]; intros [|i] Hnth; simpl in *; try discriminate.
  - inversion Hnth. now split.
  - destruct (IH i Hnth) as [Hsplit Hlen]. split; f_equal; assumption.
Qed.

(** The loop ends: every turn passes over at least one node of what is
    left of the array from [i] on. *)
Lemma sweepLoop_ends (steps i : nat) (f : list PomTree) :
  (forestSize (skipn i f) < steps)%nat -> exists swept, sweepLoop steps i f = Some swept.
Proof.
  revert i f. induction steps as [|steps IH]; intros i f Hsize; [lia|]. simpl.
  destruct (nth_error f i) as [root|] eqn:Hnth; [|eauto].
  destruct (nth_error_split_at _ _ _ Hnth) as [Hsplit Hlen].
  assert (Hfrom : skipn i f = root :: skipn (S i) f).
  { rewrite Hsplit at 1. rewrite skipn_app, skipn_all2 by lia.
    rewrite Hlen, Nat.sub_diag. reflexivity. }
  rewrite Hfrom in Hsize. simpl in Hsize.
  destruct root as [g pg p cs]. rewrite treeSize_node in Hsize. simpl.
  destruct (String.eqb p EmptyString).
  - apply IH. unfold spliceOne. rewrite <- app_assoc.
    rewrite skipn_app, skipn_all2 by lia. rewrite Hlen. simpl.
    replace (S i - i)%nat with 1%nat by lia.
    pose proof (forestSize_tail (skipn (S i) f ++ cs)) as Htail.
    rewrite forestSize_app in Htail. lia.
  - apply IH. lia.
Qed.

Lemma sweepRoots_run (f : list PomTree) :
  sweepLoop (S (forestSize f)) 0 f = Some (sweepRoots f).
Proof.
  unfold sweepRoots. destruct (sweepLoop_ends (S (forestSize f)) 0 f) as [swept ->];
    [change (skipn 0 f) with f; lia|reflexivity].
Qed.

(** The loop only takes roots away: the identities left are among the
    ones it started with, each as often as before at most. *)
Lemma sweepLoop_gavs (steps i : nat) (f swept : list PomTree) :
  sweepLoop steps i f = Some swept ->
  exists removed, Permutation (forestGavs f) (removed ++ forestGavs swept).
Proof.
  revert i f. induction steps as [|steps IH]; intros i f Hrun; [discriminate|].
  simpl in Hrun. destruct (nth_error f i) as [root|] eqn:Hnth.
  - destruct (String.eqb (pomPath root) EmptyString).
    + destruct (IH _ _ Hrun) as [removed Hperm].
      exists (pomGav root :: removed). simpl. rewrite <- Hperm.
      destruct (nth_error_split_at _ _ _ Hnth) as [Hsplit _].
      rewrite Hsplit at 1. unfold spliceOne.
      rewrite !forestGavs_app. unfold forestGavs at 2. simpl.
      destruct root as [g pg p cs]. simpl. fold (forestGavs cs).
      fold (forestGavs (skipn (S i) f)).
      rewrite <- Permutation_middle. constructor. rewrite <- app_assoc.
      apply Permutation_app_head, Permutation_app_comm.
    + exact (IH _ _ Hrun).
  - inversion Hrun. now exists [].
Qed.

Lemma sweepRoots_unique (f : list PomTree) :
  uniqueIdentities f -> uniqueIdentities (sweepRoots f).
Proof.
  unfold uniqueIdentities. intros Hunique.
  destruct (sweepLoop_gavs _ _ _ _ (sweepRoots_run f)) as [removed Hperm].
  eapply Permutation_NoDup in Hunique; [|exact Hperm].
  now apply List.NoDup_app_remove_l in Hunique.
Qed.

(** *** From unique identities to a valid forest *)

Lemma treeNodes_gavs (t n : PomTree) :
  In n (treeNodes t) -> exists pre post, treeGavs t = pre ++ treeGavs n ++ post.
Proof.
  induction t as [g pg p cs IH] using PomTree_forall_ind. simpl.
  intros [<-|Hin].
  - exists [], []. simpl. now rewrite app_nil_r.
  - apply in_flat_map in Hin as (c & Hc & Hin).
    rewrite List.Forall_forall in IH. destruct (IH c Hc Hin) as (pre & post & Hgavs).
    apply in_split in Hc as (l1 & l2 & ->).
    exists (g :: flat_map treeGavs l1 ++ pre), (post ++ flat_map treeGavs l2).
    rewrite flat_map_app. simpl. rewrite Hgavs. now rewrite <- !app_assoc.
Qed.

Lemma forestNodes_gavs (f : list PomTree) (n : PomTree) :
  In n (forestNodes f) -> exists pre post, forestGavs f = pre ++ treeGavs n ++ post.
Proof.
  unfold forestNodes, forestGavs. intros Hin.
  apply in_flat_map in Hin as (t & Ht & Hin).
  destruct (treeNodes_gavs t n Hin) as (pre & post & Hgavs).
  apply in_split in Ht as (l1 & l2 & ->).
  exists (flat_map treeGavs l1 ++ pre), (post ++ flat_map treeGavs l2).
  rewrite flat_map_app. simpl. rewrite Hgavs. now rewrite <- !app_assoc.
Qed.

Lemma nodup_snd_functional {A B} (l : list (A * B)) (a a' : A) (b : B) :
  List.NoDup (List.map snd l) -> In (a, b) l -> In (a', b) l -> a = a'.
Proof.
  induction l as [|[x y] l IH]; simpl; intros Hnodup Ha Ha'; [contradiction|].
  inversion Hnodup as [|? ? Hnot Hrest]; subst.
  destruct Ha as [Ha|Ha], Ha' as [Ha'|Ha'].
  - congruence.
  - inversion Ha; subst. destruct Hnot. apply in_map_iff. now exists (a', b).
  - inversion Ha'; subst. destruct Hnot. apply in_map_iff. now exists (a, b).
  - now apply IH.
Qed.

Lemma uniqueIdentities_valid (f : list PomTree) : uniqueIdentities f -> validForest f.
Proof.
  intros Hunique. split; [exact Hunique|]. split.
  - intros above above' g. apply nodup_snd_functional.
    now rewrite forestLinks_snd.
  - intros n Hn Hself. destruct (forestNodes_gavs f n Hn) as (pre & post & Hgavs).
    unfold uniqueIdentities in Hunique. rewrite Hgavs in Hunique.
    apply List.NoDup_app_remove_l, List.NoDup_app_remove_r in Hunique.
    destruct n as [g pg p cs]. simpl in *. now inversion Hunique.
Qed.

(** *** The whole of [buildPrototypePomTree] *)

Section Build.

Context `{Shell} `{NodePath} `{JsonReader} `{Installation}.

(** The loop is the loop body folded over the pairs the resolver gives. *)
Lemma forEachPom_fold (poms : list Uri) (w : World)
    (cache : gmap string (string * string)) (f : list PomTree) :
  (forEachPom poms w cache f).1.1 = fold_left addPom (resolveAll poms w cache) f.
Proof.
  revert w cache f. induction poms as [|pom poms IH]; intros w cache f; simpl; [reflexivity|].
  destruct (getPomDetails (fsPath pom) w cache) as [[gavs cache1] w1]. simpl. apply IH.
Qed.

Lemma buildPrototypePomTree_run (pomArray : list Uri) (w w' : World) (forest : list PomTree) :
  buildPrototypePomTree pomArray w = (w', Normal forest) ->
  forest = sweepRoots (fold_left addPom (resolvedPoms pomArray w) []).
Proof.
  unfold buildPrototypePomTree, resolvedPoms.
  destruct (negb (mavenGavReaderInstalled w)).
  - destruct (installMavenGavReader w) as [w0 [[]|e]]; [|discriminate]. simpl.
    rewrite <- forEachPom_fold. destruct (forEachPom _ w0 ∅ []) as [[f cache] w1].
    simpl. now inversion 1.
  - rewrite <- forEachPom_fold. destruct (forEachPom _ w ∅ []) as [[f cache] w1].
    simpl. now inversion 1.
Qed.

(** The call returns a forest unless the installation of the reader
    throws. *)
Lemma buildPrototypePomTree_returns (pomArray : list Uri) (w : World) :
  mavenGavReaderInstalled w = true
  \/ (exists out, executeCmd (invocations w) (mkInvocation installCommand None) = ExecOk out) ->
  exists w' forest, buildPrototypePomTree pomArray w = (w', Normal forest).
Proof.
  intros Hinstall. unfold buildPrototypePomTree.
  destruct (mavenGavReaderInstalled w) eqn:Hflag; simpl.
  - destruct (forEachPom _ w ∅ []) as [[f cache] w1]. eauto.
  - destruct Hinstall as [Hset|[out Hout]]; [discriminate Hset|].
    unfold installMavenGavReader, runCmd. rewrite Hout.
    destruct (forEachPom _ _ ∅ []) as [[f cache] w1]. eauto.
Qed.

(** When the installation throws, so does the call, and the flag stays
    unset. *)
Lemma buildPrototypePomTree_throws (pomArray : list Uri) (w : World) (out : option string) :
  mavenGavReaderInstalled w = false ->
  executeCmd (invocations w) (mkInvocation installCommand None) = ExecFailed out ->
  exists w', buildPrototypePomTree pomArray w = (w', Throw (ExecError out))
             /\ mavenGavReaderInstalled w' = false.
Proof.
  intros Hflag Hfail. unfold buildPrototypePomTree, installMavenGavReader, runCmd.
  rewrite Hflag, Hfail. simpl. eexists. split; reflexivity.
Qed.

(** C2, amended. When the descriptors that are resolved get pairwise
    different identities and the parent each one is resolved with ranks
    below it (the parent relation has no cycle), the forest returned is
    valid: no identity is carried by two nodes, no identity hangs under
    two parents, and no node has its own identity below it. *)
Theorem buildPrototypePomTree_valid_forest (pomArray : list Uri) (w w' : World)
    (forest : list PomTree) (rank : string -> nat) :
  buildPrototypePomTree pomArray w = (w', Normal forest) ->
  List.NoDup (resolvedGavs (resolvedPoms pomArray w)) ->
  parentsRankBelow rank (resolvedPoms pomArray w) ->
  validForest forest.
Proof.
  intros Hrun Hdistinct Hparents. rewrite (buildPrototypePomTree_run _ _ _ _ Hrun).
  apply uniqueIdentities_valid, sweepRoots_unique.
  apply (fold_addPom_unique rank (resolvedPoms pomArray w) [] []).
  - exact Hdistinct.
  - exact Hparents.
  - constructor.
  - intros above g [].
  - intros above g [].
Qed.

End Build.

Lemma buildPrototypePomTree_valid_forest_witness :
  (buildModules childFirstModules).2
  = Normal [PomNode "g:p:1" EmptyString "/w/p" [PomNode "g:a:1" "g:p:1" "/a" []]]
  /\ validForest [PomNode "g:p:1" EmptyString "/w/p" [PomNode "g:a:1" "g:p:1" "/a" []]].
Proof.
  split; [reflexivity|].
  apply (@buildPrototypePomTree_valid_forest
           (moduleShell childFirstModules) posixPath lineReader anyInstallation
           (urisOf childFirstModules) freshWorld (buildModules childFirstModules).1
           _ exampleRank).
  - reflexivity.
  - change (List.NoDup ["g:a:1"; "g:p:1"]).
    repeat constructor; simpl; intuition discriminate.
  - change (parentsRankBelow exampleRank (resolvedOf childFirstModules)).
    intros r [<-|[<-|[]]] Hgav Hparent; simpl in *;
      [vm_compute; lia|now destruct Hparent].
Defined.

(** C2 as it is worded fails: two descriptors resolved under the same
    identity give two nodes with that identity. *)
Lemma buildPrototypePomTree_twin_identity :
  (buildModules twinModules).2
  = Normal [PomNode "g:p:1" EmptyString "/w"
              [PomNode "g:a:1" "g:p:1" "/w/a" []; PomNode "g:a:1" "g:p:1" "/w/b" []]]
  /\ ~ validForest [PomNode "g:p:1" EmptyString "/w"
                      [PomNode "g:a:1" "g:p:1" "/w/a" []; PomNode "g:a:1" "g:p:1" "/w/b" []]].
Proof.
  split; [reflexivity|]. intros [Hunique _]. unfold uniqueIdentities in Hunique. simpl in Hunique.
  inversion Hunique as [|? ? _ Hrest]; subst.
  inversion Hrest as [|? ? Hnot _]; subst. apply Hnot. now left.
Qed.

(** The hypothesis on the ranks is needed: a module and its parent
    that name each other give the identity g:a:1 twice, once on the
    placeholder that the last loop passes over. *)
Lemma buildPrototypePomTree_parent_cycle :
  (buildModules cycleModules).2
  = Normal [PomNode "g:a:1" EmptyString EmptyString
              [PomNode "g:b:1" "g:a:1" "/w/bb" [PomNode "g:a:1" "g:b:1" "/w/a" []]];
            PomNode "g:c:1" "ext:m:1" "/c" []].
Proof. reflexivity. Qed.

(** C3 fails on the code: with two modules whose parents are outside
    the workspace, the loop takes the first placeholder away, which
    moves the second one to the place just visited, and goes on with
    the next place: the second placeholder stays a root, with an empty
    directory and its module still below it. *)
Theorem buildPrototypePomTree_keeps_empty_root :
  (buildModules orphanModules).2
  = Normal [PomNode "ext:parent:2" EmptyString EmptyString
              [PomNode "g:b:1" "ext:parent:2" "/w/b" []];
            PomNode "g:a:1" "ext:parent:1" "/w/a" []]
  /\ @resolvedPoms (moduleShell orphanModules) posixPath lineReader anyInstallation
       (urisOf orphanModules) freshWorld
     = resolvedOf orphanModules
  /\ sweepLoop 3 0 [PomNode "ext:parent:1" EmptyString EmptyString
                      [PomNode "g:a:1" "ext:parent:1" "/w/a" []];
                    PomNode "ext:parent:2" EmptyString EmptyString
                      [PomNode "g:b:1" "ext:parent:2" "/w/b" []]]
     = Some [PomNode "ext:parent:2" EmptyString EmptyString
               [PomNode "g:b:1" "ext:parent:2" "/w/b" []];
             PomNode "g:a:1" "ext:parent:1" "/w/a" []].
Proof. repeat split; reflexivity. Qed.

(** The scenarios of the specification: a parent and its child in
    either order give the parent with the child below it; a module
    whose parent is not in the workspace becomes a root. *)
Lemma buildPrototypePomTree_scenarios :
  (buildModules [("/w/pom.xml", "g:p:1", EmptyString); ("/w/a/pom.xml", "g:a:1", "g:p:1")]).2
  = Normal [PomNode "g:p:1" EmptyString "/w" [PomNode "g:a:1" "g:p:1" "/w/a" []]]
  /\ (buildModules [("/a/pom.xml", "g:a:1", "g:p:1"); ("/w/p/pom.xml", "g:p:1", EmptyString)]).2
     = Normal [PomNode "g:p:1" EmptyString "/w/p" [PomNode "g:a:1" "g:p:1" "/a" []]]
  /\ (buildModules [("/w/a/pom.xml", "g:a:1", "g:missing:1")]).2
     = Normal [PomNode "g:a:1" "g:missing:1" "/w/a" []].
Proof. repeat split; reflexivity. Qed.

(** * Further properties *)

(** ** Identity parser: short lines and module identities *)

Lemma split_nonempty (sep : ascii) (s : string) : Js.split sep s <> [].
Proof.
  induction s as [|c s IH]; simpl; [discriminate|].
  destruct (Ascii.eqb c sep); [discriminate|]. now destruct (Js.split sep s).
Qed.

Lemma split_no_separator (sep : ascii) (s : string) :
  allChars (fun c => negb (Ascii.eqb c sep)) s = true -> Js.split sep s = [s].
Proof.
  induction s as [|c s IH]; simpl; intros Hs; [reflexivity|].
  apply andb_prop in Hs as [Hc Hs]. apply negb_true_iff in Hc. rewrite Hc.
  now rewrite (IH Hs).
Qed.

Lemma split_append_field (sep : ascii) (s f : string) :
  Js.split sep (s +:+ String sep f) = Js.split sep s ++ Js.split sep f.
Proof.
  induction s as [|c s IH]; simpl.
  - now rewrite Ascii.eqb_refl.
  - destruct (Ascii.eqb c sep); [now rewrite IH|]. rewrite IH.
    pose proof (split_nonempty sep s) as Hne. now destruct (Js.split sep s).
Qed.

Lemma slice_at_word (glyphs group : string) :
  allChars (fun c => negb (Js.isWordChar c)) glyphs = true ->
  (exists c group', group = String c group' /\ Js.isWordChar c = true) ->
  Js.slice (glyphs +:+ group) (Js.searchWord (glyphs +:+ group)) = group.
Proof.
  intros Hglyphs (c & group' & -> & Hc).
  unfold Js.searchWord. rewrite (findChar_skip _ _ _ Hglyphs). simpl Js.findChar.
  rewrite Hc. simpl option_map. rewrite Nat.add_0_r.
  unfold Js.slice, Js.indexOrMinusOne, Js.len.
  destruct (Z.ltb_spec (Z.of_nat (String.length glyphs)) 0) as [Hneg|_]; [lia|].
  rewrite length_append, Z.min_l by lia. now rewrite Nat2Z.id, dropn_app_length.
Qed.

Lemma at_last {A} (before : list A) (x y : A) :
  Js.at_ ((before ++ [x]) ++ [y]) (Z.of_nat (List.length ((before ++ [x]) ++ [y])) - 2) = Some x.
Proof. rewrite <- app_assoc. apply at_app_two. Qed.

(** X1. [getProjectInfo] reads a module identity written without scope:
    when the text without its white space has the fields group,
    artifact, ... between colons and the group starts with a word
    character, the answer is the group, the artifact and the last
    field, which the appended scope makes the field before the last. *)
Theorem getProjectInfo_last_field (raw group artifact version : string)
    (rest before : list string) :
  Js.split ":" (Js.removeSpaces raw) = group :: artifact :: rest ->
  Js.split ":" (Js.removeSpaces raw) = before ++ [version] ->
  (exists c group', group = String c group' /\ Js.isWordChar c = true) ->
  getProjectInfo raw = (group, Some artifact, Some version).
Proof.
  intros Hfields Hlast Hgroup. unfold getProjectInfo, getDependencyInfo. cbv zeta.
  change (Js.removeSpaces raw +:+ ":dummyScope")
    with (Js.removeSpaces raw +:+ String ":" "dummyScope").
  rewrite split_append_field. change (Js.split ":" "dummyScope") with ["dummyScope"].
  pose proof (at_last before version "dummyScope") as Hversion.
  rewrite <- Hlast in Hversion. rewrite Hversion.
  rewrite Hfields. simpl hd. change (Js.at_ _ 1) with (Some artifact).
  pose proof (slice_at_word EmptyString group eq_refl Hgroup) as Hslice.
  simpl in Hslice. now rewrite Hslice.
Qed.

Lemma getProjectInfo_last_field_witness :
  Js.split ":" (Js.removeSpaces "org.acme : core :  2.1") = ["org.acme"; "core"; "2.1"]
  /\ getProjectInfo "org.acme : core :  2.1" = ("org.acme", Some "core", Some "2.1").
Proof.
  split; [reflexivity|].
  apply (getProjectInfo_last_field "org.acme : core :  2.1" "org.acme" "core" "2.1"
           ["2.1"] ["org.acme"; "core"]).
  - reflexivity.
  - reflexivity.
  - exists "o"%char, "rg.acme". split; reflexivity.
Defined.

(** X2. Lines with fewer than three fields: without a colon the
    artifact and the version are both undefined; with one colon the
    version is the whole first field, glyphs included, since the field
    before the last is then field 0. *)
Theorem getDependencyInfo_short_line :
  (forall raw,
     allChars (fun c => negb (Ascii.eqb c ":")) raw = true ->
     getDependencyInfo raw = (childSuffix raw, None, None))
  /\ (forall raw first second,
        Js.split ":" raw = [first; second] ->
        getDependencyInfo raw = (childSuffix first, Some second, Some first)).
Proof.
  split.
  - intros raw Hraw. unfold getDependencyInfo. now rewrite (split_no_separator _ _ Hraw).
  - intros raw first second Hfields. unfold getDependencyInfo. now rewrite Hfields.
Qed.

Lemma getDependencyInfo_short_line_witness :
  getDependencyInfo "+- standalone" = ("standalone", None, None)
  /\ getDependencyInfo "+- org.acme:core" = ("org.acme", Some "core", Some "+- org.acme").
Proof.
  split.
  - apply (proj1 getDependencyInfo_short_line "+- standalone"). reflexivity.
  - apply (proj2 getDependencyInfo_short_line "+- org.acme:core" "+- org.acme" "core").
    reflexivity.
Defined.

(** X3. When the first field has no word character at all, [search]
    answers [-1] and [slice(-1)] keeps the last character of the field:
    the group returned is that one character, or empty for an empty
    field. *)
Theorem getDependencyInfo_no_word_char :
  (forall raw glyphs c fields,
     Js.split ":" raw = (glyphs +:+ String c EmptyString) :: fields ->
     allChars (fun x => negb (Js.isWordChar x)) (glyphs +:+ String c EmptyString) = true ->
     (getDependencyInfo raw).1.1 = String c EmptyString)
  /\ (forall raw fields,
        Js.split ":" raw = EmptyString :: fields ->
        (getDependencyInfo raw).1.1 = EmptyString).
Proof.
  split.
  - intros raw glyphs c fields Hfields Hnone. unfold getDependencyInfo. rewrite Hfields.
    simpl hd. cbv zeta. simpl fst.
    unfold Js.searchWord.
    pose proof (findChar_skip Js.isWordChar _ EmptyString Hnone) as Hfind.
    assert (Hnil : forall s, s +:+ EmptyString = s).
    { induction s as [|x s IH]; simpl; [reflexivity|now rewrite IH]. }
    rewrite Hnil in Hfind. rewrite Hfind. simpl.
    unfold Js.slice, Js.len.
    destruct (Z.ltb_spec (-1) 0) as [_|Hpos]; [|lia].
    rewrite length_append. simpl String.length.
    rewrite Z.max_l by lia.
    replace (Z.to_nat (Z.of_nat (String.length glyphs + 1) + -1)) with (String.length glyphs)
      by lia.
    apply dropn_app_length.
  - intros raw fields Hfields. unfold getDependencyInfo. now rewrite Hfields.
Qed.

Lemma getDependencyInfo_no_word_char_witness :
  (getDependencyInfo "|  +- :core:1.0").1.1 = " ".
Proof.
  apply (proj1 getDependencyInfo_no_word_char "|  +- :core:1.0" "|  +-" " "%char
           ["core"; "1.0"]); reflexivity.
Defined.

(** ** Dependency attribution filter: inherited lines, errors, empty lists *)

Lemma taken_dropn (n : nat) (s : string) : Js.taken n s +:+ Js.dropn n s = s.
Proof.
  revert s. induction n as [|n IH]; intros [|c s]; simpl; try reflexivity.
  now rewrite IH.
Qed.

Lemma slice_suffix (s : string) (start : Z) : exists pre, s = pre +:+ Js.slice s start.
Proof. unfold Js.slice. eexists. symmetry. apply taken_dropn. Qed.

Lemma append_assoc (a b c : string) : (a +:+ b) +:+ c = a +:+ b +:+ c.
Proof. induction a as [|x a IH]; simpl; [reflexivity|now rewrite IH]. Qed.

Lemma matchChar_self (p : ascii) : matchChar p p = true.
Proof.
  unfold matchChar. destruct (isDot p) eqn:Hdot; [|apply Ascii.eqb_refl].
  unfold isDot in Hdot. apply Nat.eqb_eq in Hdot.
  unfold Js.isLineTerminator. now rewrite Hdot.
Qed.

Lemma matchHere_self (body rest : string) : matchHere body (body +:+ rest) = true.
Proof.
  induction body as [|p body IH]; simpl; [reflexivity|].
  now rewrite matchChar_self, IH.
Qed.

Lemma matchSomewhere_inside (body pre rest : string) :
  matchSomewhere body (pre +:+ body +:+ rest) = true.
Proof.
  induction pre as [|c pre IH].
  - simpl String.append. destruct body as [|p body]; [now destruct rest|].
    simpl. rewrite matchChar_self, matchHere_self. reflexivity.
  - simpl. rewrite IH. apply orb_true_r.
Qed.

Lemma join_contains (sep line : string) (lines : list string) :
  In line lines -> exists pre rest, Js.join sep lines = pre +:+ line +:+ rest.
Proof.
  induction lines as [|l lines IH]; intros Hin; [destruct Hin|].
  destruct Hin as [->|Hin].
  - exists EmptyString. destruct lines as [|l' lines].
    + exists EmptyString. simpl. clear. induction line as [|c line IH]; simpl; congruence.
    + exists (sep +:+ Js.join sep (l' :: lines)). reflexivity.
  - destruct (IH Hin) as (pre & rest & Hjoin). destruct lines as [|l' lines]; [destruct Hin|].
    exists (l +:+ sep +:+ pre), rest.
    change (Js.join sep (l :: l' :: lines)) with (l +:+ sep +:+ Js.join sep (l' :: lines)).
    rewrite Hjoin. now rewrite !append_assoc.
Qed.

Lemma filterM_kept {A} (keep : A -> Completion bool) (l kept : list A) (x : A) :
  filterM keep l = Normal kept -> In x kept -> In x l /\ keep x = Normal true.
Proof.
  revert kept. induction l as [|y l IH]; simpl; intros kept Hrun Hin.
  - inversion Hrun; subst. destruct Hin.
  - destruct (keep y) as [b|e] eqn:Hy; [|discriminate].
    destruct (filterM keep l) as [r|e] eqn:Hl; [|discriminate].
    inversion Hrun; subst kept; clear Hrun. destruct b.
    + destruct Hin as [<-|Hin]; [tauto|]. destruct (IH r eq_refl Hin). tauto.
    + destruct (IH r eq_refl Hin). tauto.
Qed.

(** X4. What the filter is for: a child line that is itself one of the
    parent's lines is never in the result, whenever its suffix has only
    literal characters and dots. *)
Theorem filterParentDependencies_drops_inherited (E : RegExpEngine)
    (childDependencies deps kept : list string) (line : string) :
  RegExpOnLiterals E ->
  filterParentDependencies childDependencies (Some deps) = Normal (Some kept) ->
  literalOrDot (childSuffix line) = true ->
  In line deps ->
  ~ In line kept.
Proof.
  intros HE Hrun Hlit Hdeps Hkept. unfold filterParentDependencies in Hrun.
  destruct (filterM _ childDependencies) as [r|e] eqn:Hfilter; [|discriminate].
  inversion Hrun; subst r; clear Hrun.
  destruct (filterM_kept _ _ _ _ Hfilter Hkept) as [_ Hkeep].
  rewrite (keepChild_onLiterals E _ _ HE Hlit) in Hkeep.
  destruct (join_contains " " line deps Hdeps) as (pre & rest & Hjoin).
  destruct (slice_suffix line (Js.searchWord line)) as [glyphs Hline].
  fold (childSuffix line) in Hline.
  rewrite Hjoin in Hkeep. rewrite Hline in Hkeep at 2.
  rewrite append_assoc, <- (append_assoc pre glyphs) in Hkeep.
  rewrite matchSomewhere_inside in Hkeep. discriminate Hkeep.
Qed.

Lemma filterParentDependencies_drops_inherited_witness :
  ~ In "|  +- org.a:lib:jar:1.0:compile"
       ["+- org.b:lib:jar:1.0:compile"].
Proof.
  apply (filterParentDependencies_drops_inherited literalEngine
           ["|  +- org.a:lib:jar:1.0:compile"; "+- org.b:lib:jar:1.0:compile"]
           ["+- junit:junit:jar:4.12:test"; "|  +- org.a:lib:jar:1.0:compile"]
           ["+- org.b:lib:jar:1.0:compile"] "|  +- org.a:lib:jar:1.0:compile"
           literalEngine_onLiterals).
  - reflexivity.
  - reflexivity.
  - simpl. tauto.
Defined.

Lemma filterM_throws {A} (keep : A -> Completion bool) (l : list A) (x : A) (e : Exn) :
  (forall y e', keep y = Throw e' -> e' = e) ->
  In x l -> keep x = Throw e -> filterM keep l = Throw e.
Proof.
  intros Honly. induction l as [|y l IH]; intros Hin Hx; [destruct Hin|]. simpl.
  destruct (keep y) as [b|e'] eqn:Hy.
  - destruct Hin as [->|Hin]; [congruence|]. now rewrite (IH Hin Hx).
  - now rewrite (Honly _ _ Hy).
Qed.

(** X5. The suffix is not escaped, so a child line whose suffix is no
    valid pattern makes the whole call throw a [SyntaxError]: no
    filtered list is returned, whatever the other child lines are. *)
Theorem filterParentDependencies_throws (E : RegExpEngine)
    (childDependencies deps : list string) (line : string) :
  In line childDependencies ->
  regexpMatches (childPattern line) (Js.join " " deps) = None ->
  filterParentDependencies childDependencies (Some deps) = Throw SyntaxError.
Proof.
  intros Hin Hbad. unfold filterParentDependencies.
  rewrite (filterM_throws _ _ line SyntaxError); [reflexivity| |exact Hin|].
  - intros y e' Hy. unfold keepChild in Hy.
    destruct (regexpMatches (childPattern y) _); [discriminate Hy|]. now inversion Hy.
  - unfold keepChild. now rewrite Hbad.
Qed.

Lemma filterParentDependencies_throws_witness :
  @filterParentDependencies literalEngine
    ["+- org.a:lib:jar:1.0:compile"; "+- org.b:lib:jar:1.0:compile (optional"]
    (Some ["+- org.a:lib:jar:1.0:compile"])
  = Throw SyntaxError.
Proof.
  apply (filterParentDependencies_throws literalEngine _ _
           "+- org.b:lib:jar:1.0:compile (optional").
  - simpl. tauto.
  - reflexivity.
Defined.

Lemma childSuffix_empty (line : string) : childSuffix line = EmptyString -> line = EmptyString.
Proof.
  unfold childSuffix, Js.slice, Js.searchWord. intros Hempty.
  destruct line as [|c line]; [reflexivity|]. exfalso.
  assert (Hdrop : forall n s, Js.dropn n s = EmptyString -> (String.length s <= n)%nat).
  { induction n as [|n IH]; intros [|x s]; simpl; intros Hs; try lia; try discriminate.
    specialize (IH s Hs). lia. }
  apply Hdrop in Hempty. unfold Js.len in Hempty.
  remember (String c line) as s eqn:Hs.
  assert (Hlen : (1 <= String.length s)%nat) by (subst s; simpl; lia).
  assert (Hfind : forall i, Js.findChar Js.isWordChar s = Some i -> (i < String.length s)%nat).
  { clear. induction s as [|x s IH]; simpl; intros i Hi; [discriminate|].
    destruct (Js.isWordChar x); [inversion Hi; lia|].
    destruct (Js.findChar Js.isWordChar s) as [j|]; [|discriminate].
    inversion Hi. specialize (IH j eq_refl). lia. }
  destruct (Js.findChar Js.isWordChar s) as [i|]; simpl in Hempty.
  - specialize (Hfind i eq_refl).
    destruct (Z.ltb_spec (Z.of_nat i) 0); lia.
  - destruct (Z.ltb_spec (-1) 0); lia.
Qed.

(** X6. An empty parent list is not an absent one: the call returns an
    array, which holds every child line but the empty ones (the pattern
    of an empty line matches the empty text). *)
Theorem filterParentDependencies_empty_parent (E : RegExpEngine)
    (childDependencies : list string) :
  RegExpOnLiterals E ->
  Forall (fun c => literalOrDot (childSuffix c) = true) childDependencies ->
  filterParentDependencies childDependencies (Some [])
  = Normal (Some (List.filter (fun c => negb (String.eqb c EmptyString)) childDependencies)).
Proof.
  intros HE Hlit. unfold filterParentDependencies.
  rewrite (filterM_normal _ (fun c => negb (String.eqb c EmptyString))); [reflexivity|].
  eapply List.Forall_impl; [|exact Hlit]. intros c Hc.
  rewrite (keepChild_onLiterals E _ _ HE Hc). f_equal. f_equal. simpl.
  destruct (String.eqb_spec c EmptyString) as [->|Hne]; [reflexivity|].
  destruct (childSuffix c) as [|x body] eqn:Hsuffix; [|reflexivity].
  now apply childSuffix_empty in Hsuffix.
Qed.

Lemma filterParentDependencies_empty_parent_witness :
  @filterParentDependencies literalEngine
    ["+- org.a:lib:jar:1.0:compile"; EmptyString] (Some [])
  = Normal (Some ["+- org.a:lib:jar:1.0:compile"]).
Proof.
  apply (filterParentDependencies_empty_parent literalEngine
           ["+- org.a:lib:jar:1.0:compile"; EmptyString] literalEngine_onLiterals).
  repeat constructor.
Defined.

(** ** Descriptor position locator: the spans returned *)

Lemma lowerChar_lt (c : ascii) : Js.lowerChar c = "<"%char -> c = "<"%char.
Proof.
  destruct c as [[] [] [] [] [] [] [] []]; vm_compute; intros Heq;
    first [reflexivity | discriminate Heq].
Qed.

Lemma toLowerCase_head (s r : string) :
  Js.toLowerCase s = String "<" r -> exists r', s = String "<" r'.
Proof.
  destruct s as [|c s]; simpl; intros Heq; [discriminate|].
  inversion Heq as [[Hc Hr]]. apply lowerChar_lt in Hc. subst c. eauto.
Qed.

Lemma trimEnd_head (s r : string) (c : ascii) :
  Js.trimEnd s = String c r -> exists r', s = String c r'.
Proof.
  destruct s as [|x s]; simpl; intros Heq; [discriminate|].
  destruct (Js.trimEnd s).
  - destruct (Js.isSpace x); [discriminate|]. inversion Heq. eauto.
  - inversion Heq. eauto.
Qed.

Lemma indexOfNat_char_bound (c : ascii) (s : string) (i : nat) :
  Js.indexOfNat (String c EmptyString) s = Some i -> (i < String.length s)%nat.
Proof.
  revert i. induction s as [|x s IH]; simpl; intros i Hi; [discriminate|].
  destruct (Ascii.eqb c x); simpl in Hi; [inversion Hi; lia|].
  destruct (Js.indexOfNat (String c EmptyString) s) as [j|]; [|discriminate].
  inversion Hi. specialize (IH j eq_refl). lia.
Qed.

Lemma trimStart_has_char (s r : string) (c : ascii) :
  Js.trimStart s = String c r ->
  exists i, Js.indexOfNat (String c EmptyString) s = Some i.
Proof.
  induction s as [|x s IH]; simpl; intros Heq; [discriminate|].
  destruct (Js.isSpace x).
  - destruct (IH Heq) as [i Hi]. destruct (Ascii.eqb c x); simpl; [eauto|].
    rewrite Hi. simpl. eauto.
  - inversion Heq. rewrite Ascii.eqb_refl. simpl. eauto.
Qed.

(** A line whose trimmed, lower-cased text starts with the angle bracket
    has that bracket at a place inside the line. *)
Lemma tagged_line_bracket (l r : string) :
  Js.toLowerCase (Js.trim l) = String "<" r ->
  0 <= Js.indexOf l "<" < Js.len l.
Proof.
  intros Hlow. apply toLowerCase_head in Hlow as [r1 Htrim].
  unfold Js.trim in Htrim. apply trimEnd_head in Htrim as [r2 Hstart].
  apply trimStart_has_char in Hstart as [i Hi].
  unfold Js.indexOf, Js.len. rewrite Hi. simpl.
  apply indexOfNat_char_bound in Hi. lia.
Qed.

Lemma fieldPositions_spans (startLine : Z) (groupId artifactId version : string)
    (i : Z) (arr : list string) :
  exists spans,
    fieldPositions startLine groupId artifactId version i arr = spanPositions spans
    /\ Forall (fun span => 0 <= span.1.2 < span.2) spans.
Proof.
  revert i. induction arr as [|l arr IH]; intros i; simpl.
  - exists []. split; [reflexivity|constructor].
  - destruct (IH (i + 1)) as (spans & -> & Hspans).
    destruct (_ || _ || _)%bool eqn:Hfield.
    + exists ((startLine + i, Js.indexOf l "<", Js.len l) :: spans).
      split; [reflexivity|]. constructor; [|exact Hspans]. simpl.
      apply orb_prop in Hfield as [Hfield|Hfield];
        [apply orb_prop in Hfield as [Hfield|Hfield]|];
        apply String.eqb_eq in Hfield; eapply tagged_line_bracket; rewrite Hfield;
        reflexivity.
    + now exists spans.
Qed.

Lemma DependenciesTreeNode_chain_ind (P : DependenciesTreeNode -> Prop) :
  (forall c m, P (TreeNode c m None)) ->
  (forall c m p, P p -> P (TreeNode c m (Some p))) ->
  forall n, P n.
Proof.
  intros Hroot Hstep. fix IH 1. intros [c m [p|]]; [apply Hstep, IH|apply Hroot].
Qed.

(** X7. The positions [getDependencyPos] returns come in pairs, the
    start and the end of a span on one line, and the start column is
    the place of an angle bracket inside the line: it is never negative
    and lies before the end column. *)
Theorem getDependencyPos_spans (document : TextDocument)
    (dependenciesTreeNode : option DependenciesTreeNode) :
  exists spans,
    getDependencyPos document dependenciesTreeNode = spanPositions spans
    /\ Forall (fun span => 0 <= span.1.2 < span.2) spans.
Proof.
  destruct dependenciesTreeNode as [n|]; [|exists []; split; [reflexivity|constructor]].
  simpl. induction n as [c m|c m p IH] using DependenciesTreeNode_chain_ind.
  - simpl. destruct (dependencyMatch document (TreeNode c m None)) as [|block blocks].
    + exists []. split; [now destruct m|constructor].
    + apply fieldPositions_spans.
  - simpl. destruct (dependencyMatch document (TreeNode c m (Some p))) as [|block blocks].
    + destruct m; simpl; [exists []; split; [reflexivity|constructor]|exact IH].
    + apply fieldPositions_spans.
Qed.

(** ** GAV resolver: what a call does to the cache and to the world *)

Section ResolverMore.

Context `{Shell} `{NodePath} `{JsonReader}.

Lemma populateCache_parsed (lines : list string) (parsed : list GavLine)
    (cache : gmap string (string * string)) :
  List.map JSON_parse lines = List.map Some parsed ->
  populateCache lines cache = (fold_left cacheLine parsed cache, true).
Proof.
  revert parsed cache. induction lines as [|l lines IH]; intros [|j parsed] cache Hparse;
    simpl in *; try discriminate; [reflexivity|].
  inversion Hparse as [[Hj Hrest]]. rewrite Hj. now apply IH.
Qed.

Lemma fold_cacheLine_other (parsed : list GavLine) (cache : gmap string (string * string))
    (key : string) :
  Forall (fun j => pomPath_ j <> key) parsed ->
  fold_left cacheLine parsed cache !! key = cache !! key.
Proof.
  intros Hother. revert cache. induction Hother as [|j parsed Hj _ IH]; intros cache; simpl;
    [reflexivity|].
  rewrite IH. unfold cacheLine. now rewrite lookup_insert_ne.
Qed.

Lemma fold_cacheLine_last (before after : list GavLine) (j : GavLine)
    (cache : gmap string (string * string)) :
  Forall (fun j' => pomPath_ j' <> pomPath_ j) after ->
  fold_left cacheLine (before ++ j :: after) cache !! pomPath_ j
  = Some (gav_ j, parentGav_ j).
Proof.
  intros Hafter. rewrite fold_left_app. simpl.
  rewrite (fold_cacheLine_other _ _ _ Hafter). unfold cacheLine at 1.
  now rewrite lookup_insert_eq.
Qed.

Lemma populateCache_dom (lines : list string) (cache : gmap string (string * string)) :
  dom cache ⊆ dom (populateCache lines cache).1.
Proof.
  intros key Hkey. apply elem_of_dom. apply populateCache_grows. now apply elem_of_dom.
Qed.

(** X8. A call never takes a path out of the cache: every path that
    has an entry before the call has one after it, on a hit, after a
    run of the reader and after a failure alike. *)
Theorem getPomDetails_keeps_paths (pathToPomXml : string) (w : World)
    (cache : gmap string (string * string)) :
  dom cache ⊆ dom (getPomDetails pathToPomXml w cache).1.2.
Proof.
  unfold getPomDetails. destruct (cache !! pathToPomXml); [reflexivity|].
  unfold runCmd. destruct (executeCmd _ _) as [out|out]; [|reflexivity].
  pose proof (populateCache_dom (gavLines out) cache) as Hdom.
  destruct (populateCache (gavLines out) cache) as [cache1 finished].
  now destruct finished.
Qed.

Lemma getPomDetails_world (pathToPomXml : string) (w : World)
    (cache : gmap string (string * string)) :
  mavenGavReaderInstalled (getPomDetails pathToPomXml w cache).2 = mavenGavReaderInstalled w
  /\ (invocations (getPomDetails pathToPomXml w cache).2 = invocations w
      \/ (cache !! pathToPomXml = None
          /\ invocations (getPomDetails pathToPomXml w cache).2
             = invocations w ++ [readerRun pathToPomXml])).
Proof.
  unfold getPomDetails. destruct (cache !! pathToPomXml) eqn:Hhit; simpl; [tauto|].
  unfold runCmd, readerRun. destruct (executeCmd _ _) as [out|out]; simpl; [|tauto].
  destruct (populateCache (gavLines out) cache) as [cache1 finished].
  destruct finished; simpl; tauto.
Qed.

(** X9. A call runs the reader at most once, in the directory of the
    descriptor, and only when the path is not in the cache; it runs no
    other command and leaves the installation flag alone. *)
Theorem getPomDetails_one_run (pathToPomXml : string) (w : World)
    (cache : gmap string (string * string)) :
  let w' := (getPomDetails pathToPomXml w cache).2 in
  mavenGavReaderInstalled w' = mavenGavReaderInstalled w
  /\ (invocations w' = invocations w
      \/ (cache !! pathToPomXml = None
          /\ invocations w' = invocations w ++ [readerRun pathToPomXml])).
Proof. intros w'. apply getPomDetails_world. Qed.

(** X10. When every line of the reader parses, the answer for a path
    the reader lists is the pair of the last line that names it, and
    that pair is what the cache holds afterwards. *)
Theorem getPomDetails_last_line_wins (pathToPomXml : string) (w : World)
    (cache : gmap string (string * string)) (out : string)
    (before after : list GavLine) (j : GavLine) :
  cache !! pathToPomXml = None ->
  executeCmd (invocations w) (readerRun pathToPomXml) = ExecOk out ->
  List.map JSON_parse (gavLines out) = List.map Some (before ++ j :: after) ->
  pomPath_ j = pathToPomXml ->
  Forall (fun j' => pomPath_ j' <> pathToPomXml) after ->
  (getPomDetails pathToPomXml w cache).1.1 = (gav_ j, parentGav_ j)
  /\ (getPomDetails pathToPomXml w cache).1.2 !! pathToPomXml = Some (gav_ j, parentGav_ j)
  /\ logged (getPomDetails pathToPomXml w cache).2 = logged w.
Proof.
  intros Hmiss Hrun Hparse Hpath Hafter. unfold getPomDetails, runCmd.
  unfold readerRun in Hrun. rewrite Hmiss, Hrun, (populateCache_parsed _ _ _ Hparse).
  subst pathToPomXml. rewrite (fold_cacheLine_last _ _ _ _ Hafter). simpl.
  rewrite (fold_cacheLine_last _ _ _ _ Hafter). tauto.
Qed.

(** X11. A descriptor the reader does not list is answered with the
    pair of empty strings without a log line, and the miss is not
    remembered: the path is still absent from the cache, so the next
    call for it runs the reader again. *)
Theorem getPomDetails_unlisted (pathToPomXml : string) (w : World)
    (cache : gmap string (string * string)) (out : string) (parsed : list GavLine) :
  cache !! pathToPomXml = None ->
  executeCmd (invocations w) (readerRun pathToPomXml) = ExecOk out ->
  List.map JSON_parse (gavLines out) = List.map Some parsed ->
  Forall (fun j => pomPath_ j <> pathToPomXml) parsed ->
  exists cache' w',
    getPomDetails pathToPomXml w cache = ((EmptyString, EmptyString), cache', w')
    /\ cache' !! pathToPomXml = None
    /\ logged w' = logged w
    /\ forall w2, invocations (getPomDetails pathToPomXml w2 cache').2
                  = invocations w2 ++ [readerRun pathToPomXml].
Proof.
  intros Hmiss Hrun Hparse Hother.
  assert (Hstill : fold_left cacheLine parsed cache !! pathToPomXml = None).
  { now rewrite (fold_cacheLine_other _ _ _ Hother). }
  exists (fold_left cacheLine parsed cache). eexists. split; [|split; [exact Hstill|split]].
  - unfold getPomDetails, runCmd. unfold readerRun in Hrun.
    rewrite Hmiss, Hrun, (populateCache_parsed _ _ _ Hparse), Hstill. reflexivity.
  - reflexivity.
  - intros w2. clear Hrun. unfold getPomDetails. rewrite Hstill.
    unfold runCmd, readerRun.
    destruct (executeCmd (invocations w2) _) as [out2|out2]; simpl; [|reflexivity].
    destruct (populateCache (gavLines out2) _) as [cache2 finished].
    now destruct finished.
Qed.

(** X12. When the reader command fails, the call answers the pair of
    empty strings, leaves the cache as it was and logs two error lines:
    the advice to build the descriptor, then the output of the command
    without its bracketed tags. *)
Theorem getPomDetails_command_failure (pathToPomXml : string) (w : World)
    (cache : gmap string (string * string)) (out : option string) :
  cache !! pathToPomXml = None ->
  executeCmd (invocations w) (readerRun pathToPomXml) = ExecFailed out ->
  exists w',
    getPomDetails pathToPomXml w cache = ((EmptyString, EmptyString), cache, w')
    /\ invocations w' = invocations w ++ [readerRun pathToPomXml]
    /\ logged w' = logged w ++ [mkLogEntry (Some (couldNotParseMessage pathToPomXml)) ERR;
                                mkLogEntry (option_map (stripBracketTags O) out) ERR].
Proof.
  intros Hmiss Hrun. unfold getPomDetails, runCmd. unfold readerRun in Hrun.
  rewrite Hmiss, Hrun. eexists. split; [reflexivity|]. split; [reflexivity|].
  simpl. now rewrite <- app_assoc.
Qed.

End ResolverMore.

Lemma getPomDetails_last_line_wins_witness :
  (@getPomDetails repeatingShell posixPath lineReader "/w/pom.xml" freshWorld ∅).1.1
  = ("g:new:1", "g:top:1").
Proof.
  apply (@getPomDetails_last_line_wins repeatingShell posixPath lineReader
           "/w/pom.xml" freshWorld ∅
           (linesOf [gavLineText "/w/pom.xml" "g:old:1" EmptyString;
                     gavLineText "/w/pom.xml" "g:new:1" "g:top:1"])
           [mkGavLine "/w/pom.xml" "g:old:1" EmptyString] []
           (mkGavLine "/w/pom.xml" "g:new:1" "g:top:1")).
  - reflexivity.
  - reflexivity.
  - reflexivity.
  - reflexivity.
  - constructor.
Defined.

Lemma getPomDetails_unlisted_witness :
  exists cache' w',
    @getPomDetails repeatingShell posixPath lineReader "/w/x/pom.xml" freshWorld ∅
    = ((EmptyString, EmptyString), cache', w')
    /\ cache' !! "/w/x/pom.xml" = None
    /\ invocations (@getPomDetails repeatingShell posixPath lineReader "/w/x/pom.xml" w' cache').2
       = invocations w' ++ [@readerRun posixPath "/w/x/pom.xml"].
Proof.
  destruct (@getPomDetails_unlisted repeatingShell posixPath lineReader
              "/w/x/pom.xml" freshWorld ∅
              (linesOf [gavLineText "/w/pom.xml" "g:new:1" "g:top:1"])
              [mkGavLine "/w/pom.xml" "g:new:1" "g:top:1"])
    as (cache' & w' & Hcall & Hstill & _ & Hagain).
  - reflexivity.
  - reflexivity.
  - reflexivity.
  - repeat constructor. discriminate.
  - exists cache', w'. split; [exact Hcall|]. split; [exact Hstill|]. apply Hagain.
Defined.

Lemma getPomDetails_command_failure_witness :
  exists w',
    @getPomDetails repeatingShell posixPath lineReader "/elsewhere/pom.xml" freshWorld ∅
    = ((EmptyString, EmptyString), ∅, w')
    /\ logged w' = [mkLogEntry (Some (couldNotParseMessage "/elsewhere/pom.xml")) ERR;
                    mkLogEntry (Some " no POM in this directory") ERR].
Proof.
  destruct (@getPomDetails_command_failure repeatingShell posixPath lineReader
              "/elsewhere/pom.xml" freshWorld ∅ (Some "[ERROR] no POM in this directory"))
    as (w' & Hcall & _ & Hlog).
  - reflexivity.
  - reflexivity.
  - exists w'. split; [exact Hcall|]. rewrite Hlog. reflexivity.
Defined.

(** ** The loop over the descriptors: commands run *)

Section LoopCommands.

Context `{Shell} `{NodePath} `{JsonReader}.


Lemma forEachPom_cached (poms : list Uri) (w : World)
    (cache : gmap string (string * string)) (f : list PomTree) :
  (forall pom, In pom poms -> is_Some (cache !! fsPath pom)) ->
  (forEachPom poms w cache f).2 = w /\ (forEachPom poms w cache f).1.2 = cache.
Proof.
  revert f. induction poms as [|pom poms IH]; intros f Hall; simpl; [tauto|].
  destruct (Hall pom (or_introl eq_refl)) as [gavs Hhit].
  rewrite (getPomDetails_hit _ _ _ _ Hhit). apply IH. intros p Hp. apply Hall. now right.
Qed.

Lemma fold_cacheLine_listed (parsed : list GavLine) (cache : gmap string (string * string))
    (key : string) :
  In key (List.map pomPath_ parsed) \/ is_Some (cache !! key) ->
  is_Some (fold_left cacheLine parsed cache !! key).
Proof.
  revert cache. induction parsed as [|j parsed IH]; intros cache Hkey; simpl in *; [tauto|].
  apply IH. unfold cacheLine. rewrite lookup_insert_is_Some.
  destruct (decide (pomPath_ j = key)) as [Heq|Hne]; [right; now left|].
  destruct Hkey as [[Heq|Hin]|Hsome]; [contradiction|tauto|]. right. right. tauto.
Qed.

(** X13. One run of the reader serves every descriptor it lists: when
    the run for the first descriptor of the loop parses and names every
    descriptor of the loop, no other command is run in the loop. *)
Theorem forEachPom_single_run (pom : Uri) (rest : list Uri) (w : World)
    (f : list PomTree) (out : string) (parsed : list GavLine) :
  executeCmd (invocations w) (readerRun (fsPath pom)) = ExecOk out ->
  List.map JSON_parse (gavLines out) = List.map Some parsed ->
  (forall p, In p (pom :: rest) -> In (fsPath p) (List.map pomPath_ parsed)) ->
  invocations (forEachPom (pom :: rest) w ∅ f).2 = invocations w ++ [readerRun (fsPath pom)].
Proof.
  intros Hrun Hparse Hlisted. simpl.
  assert (Hcall : getPomDetails (fsPath pom) w ∅
                  = (match fold_left cacheLine parsed ∅ !! fsPath pom with
                     | Some gav => gav
                     | None => (EmptyString, EmptyString)
                     end, fold_left cacheLine parsed ∅,
                     mkWorld (invocations w ++ [readerRun (fsPath pom)]) (logged w)
                             (mavenGavReaderInstalled w))).
  { unfold getPomDetails, runCmd. unfold readerRun in *.
    rewrite lookup_empty, Hrun, (populateCache_parsed _ _ _ Hparse). reflexivity. }
  rewrite Hcall.
  match goal with
  | |- invocations (forEachPom rest ?w1 ?c1 ?f1).2 = _ =>
      destruct (forEachPom_cached rest w1 c1 f1) as [-> _]; [|reflexivity]
  end.
  intros p Hp. apply fold_cacheLine_listed. left. apply Hlisted. now right.
Qed.

End LoopCommands.

Lemma forEachPom_single_run_witness :
  invocations (@forEachPom reactorShell posixPath lineReader
                 [fileUri "/w/pom.xml"; fileUri "/w/core/pom.xml"; fileUri "/w/api/pom.xml"]
                 freshWorld ∅ []).2
  = [@readerRun posixPath "/w/pom.xml"].
Proof.
  apply (@forEachPom_single_run reactorShell posixPath lineReader
           (fileUri "/w/pom.xml") [fileUri "/w/core/pom.xml"; fileUri "/w/api/pom.xml"]
           freshWorld []
           (linesOf [gavLineText "/w/pom.xml" "g:top:1" EmptyString;
                     gavLineText "/w/core/pom.xml" "g:core:1" "g:top:1";
                     gavLineText "/w/api/pom.xml" "g:api:1" "g:top:1"])
           [mkGavLine "/w/pom.xml" "g:top:1" EmptyString;
            mkGavLine "/w/core/pom.xml" "g:core:1" "g:top:1";
            mkGavLine "/w/api/pom.xml" "g:api:1" "g:top:1"]).
  - reflexivity.
  - reflexivity.
  - intros p [<-|[<-|[<-|[]]]]; simpl; tauto.
Defined.

(** ** [buildPrototypePomTree]: commands and the installation flag *)

Section BuildCommands.

Context `{Shell} `{NodePath} `{JsonReader} `{Installation}.

Let byLength (pomPath1 pomPath2 : Uri) : Z :=
  Js.len (fsPath pomPath1) - Js.len (fsPath pomPath2).


(** X15. When the installation command fails the call throws with the
    output of the command: only that command was run, no descriptor is
    resolved and the flag stays unset, so the next call tries the
    installation again. *)
Theorem buildPrototypePomTree_install_failure (pomArray : list Uri) (w : World)
    (out : option string) :
  mavenGavReaderInstalled w = false ->
  executeCmd (invocations w) installRun = ExecFailed out ->
  exists w',
    buildPrototypePomTree pomArray w = (w', Throw (ExecError out))
    /\ invocations w' = invocations w ++ [installRun]
    /\ logged w' = logged w
    /\ mavenGavReaderInstalled w' = false.
Proof.
  intros Hflag Hfail. unfold buildPrototypePomTree, installMavenGavReader, runCmd.
  fold installRun. rewrite Hflag, Hfail. simpl. eexists. repeat split.
Qed.

End BuildCommands.

Lemma buildPrototypePomTree_install_failure_witness :
  exists w',
    @buildPrototypePomTree deadShell posixPath lineReader anyInstallation
      [fileUri "/w/pom.xml"] freshWorld
    = (w', Throw (ExecError (Some "mvn: command not found")))
    /\ invocations w' = [@installRun anyInstallation]
    /\ mavenGavReaderInstalled w' = false.
Proof.
  destruct (@buildPrototypePomTree_install_failure deadShell posixPath lineReader
              anyInstallation [fileUri "/w/pom.xml"] freshWorld
              (Some "mvn: command not found") eq_refl eq_refl)
    as (w' & Hcall & Hinv & _ & Hflag).
  exists w'. split; [exact Hcall|]. split; [exact Hinv|exact Hflag].
Defined.

(** ** Prototype tree: what the nodes record *)

Lemma forestRecords_app (f1 f2 : list PomTree) :
  forestRecords (f1 ++ f2) = forestRecords f1 ++ forestRecords f2.
Proof. apply flat_map_app. Qed.

Lemma treeRecords_head (t : PomTree) :
  treeRecords t = (pomGav t, parentGav t, pomPath t) :: forestRecords (children t).
Proof. now destruct t. Qed.

Lemma addChildUnder_records (g : string) (node t t' : PomTree) :
  addChildUnder g node t = Some t' ->
  Permutation (treeRecords t') (treeRecords t ++ treeRecords node).
Proof.
  revert t'. induction t as [g0 pg p cs IH] using PomTree_forall_ind. intros t'. simpl.
  destruct (String.eqb g0 g).
  - intros Heq. inversion Heq; subst t'; clear Heq. unfold addChild. simpl.
    rewrite flat_map_app. simpl. now rewrite app_nil_r.
  - assert (Hchildren : forall cs',
               (fix inChildren (l : list PomTree) : option (list PomTree) :=
                  match l with
                  | [] => None
                  | c :: l' =>
                      match addChildUnder g node c with
                      | Some c' => Some (c' :: l')
                      | None => option_map (cons c) (inChildren l')
                      end
                  end) cs = Some cs' ->
               Permutation (flat_map treeRecords cs') (flat_map treeRecords cs ++ treeRecords node)).
    { induction IH as [|c cs Hc _ IHcs]; intros cs' Hcs'; [discriminate|].
      destruct (addChildUnder g node c) as [c'|] eqn:Hadd.
      - inversion Hcs'; subst cs'. simpl. rewrite (Hc c' eq_refl).
        rewrite <- !app_assoc. apply Permutation_app_head, Permutation_app_comm.
      - destruct (_ cs) as [cs''|] eqn:Hrest; [|discriminate].
        simpl in Hcs'. inversion Hcs'; subst cs'. simpl.
        rewrite (IHcs cs'' eq_refl). now rewrite app_assoc. }
    destruct (_ cs) as [cs'|] eqn:Hcs; [|discriminate]. simpl.
    intros Heq. inversion Heq; subst t'. simpl. constructor. now apply Hchildren.
Qed.

Lemma addChildInArray_records (g : string) (node : PomTree) (f : list PomTree) :
  In g (forestGavs f) ->
  Permutation (forestRecords (addChildInArray g node f)) (forestRecords f ++ treeRecords node).
Proof.
  induction f as [|t f IH]; simpl; [tauto|]. intros Hin.
  destruct (addChildUnder_spec g node t) as [[_ (t' & Ht' & _)]|[Hnot Hnone]].
  - rewrite Ht'. unfold forestRecords. simpl. rewrite (addChildUnder_records _ _ _ _ Ht').
    rewrite <- !app_assoc. apply Permutation_app_head, Permutation_app_comm.
  - rewrite Hnone. apply in_app_or in Hin as [Hin|Hin]; [tauto|].
    unfold forestRecords in *. simpl. rewrite (IH Hin). now rewrite app_assoc.
Qed.

(** [addPrototypeNode] adds the records of the node and, when the
    parent is not in the array yet, the record of a placeholder for it. *)
Lemma addPrototypeNode_records (f : list PomTree) (node : PomTree) :
  exists extra,
    Permutation (forestRecords (addPrototypeNode f node))
                (forestRecords f ++ extra ++ treeRecords node)
    /\ (extra = []
        \/ (extra = [placeholderRecord (parentGav node)] /\ parentGav node <> EmptyString)).
Proof.
  unfold addPrototypeNode.
  destruct (String.eqb_spec (parentGav node) EmptyString) as [Hroot|Hparent]; simpl.
  - exists []. split; [|now left]. rewrite forestRecords_app. unfold forestRecords at 2.
    simpl. now rewrite app_nil_r.
  - destruct (getPrototypeNode_spec f (parentGav node)) as [[Hin (n & -> & _)]|[_ ->]].
    + exists []. split; [|now left]. now apply addChildInArray_records.
    + exists [placeholderRecord (parentGav node)]. split; [|now right].
      rewrite forestRecords_app. unfold forestRecords at 2. simpl.
      now rewrite !app_nil_r.
Qed.

Section Records.

Context `{NodePath}.

(** One turn of the loop on a descriptor with an identity: the record
    of a reused root gives way to the record of the descriptor, a
    placeholder may come in, and every other record stays. *)
Lemma addPom_records (f : list PomTree) (pom : ResolvedPom) :
  rpGav pom <> EmptyString ->
  exists old extra others,
    Permutation (forestRecords f) (old ++ others)
    /\ Permutation (forestRecords (addPom f pom)) (recordOf pom :: extra ++ others)
    /\ (old = [] \/ exists pg p, old = [(rpGav pom, pg, p)])
    /\ (extra = []
        \/ (extra = [placeholderRecord (rpParentGav pom)] /\ rpParentGav pom <> EmptyString)).
Proof.
  intros Hgav.
  destruct (searchPomGav_spec f (rpGav pom))
    as [[_ Hnone]|(before & t & after & -> & Ht & Hnot & _)].
  - rewrite (addPom_made _ _ Hgav Hnone).
    destruct (addPrototypeNode_records f
                (setPathAndParent (newPomTree (rpGav pom)) (dirname (rpPath pom))
                                  (rpParentGav pom))) as (extra & Hperm & Hextra).
    exists [], extra, (forestRecords f). split; [reflexivity|]. split; [|split; [now left|exact Hextra]].
    rewrite Hperm. simpl. unfold recordOf.
    rewrite <- Permutation_middle. rewrite app_nil_r.
    rewrite <- Permutation_middle. constructor. apply Permutation_app_comm.
  - rewrite (addPom_reused _ _ _ _ Hgav Ht Hnot).
    destruct (addPrototypeNode_records (before ++ after)
                (setPathAndParent t (dirname (rpPath pom)) (rpParentGav pom)))
      as (extra & Hperm & Hextra).
    exists [(rpGav pom, parentGav t, pomPath t)], extra,
      (forestRecords (children t) ++ forestRecords (before ++ after)).
    split; [|split; [|split; [right; eauto|exact Hextra]]].
    + rewrite !forestRecords_app. unfold forestRecords at 2. simpl.
      fold (forestRecords after). rewrite treeRecords_head, Ht. simpl.
      rewrite <- Permutation_middle. constructor.
      rewrite !app_assoc. apply Permutation_app_tail, Permutation_app_comm.
    + rewrite Hperm. rewrite treeRecords_head. destruct t as [g pg p cs]. simpl in *.
      subst g. unfold recordOf.
      rewrite <- Permutation_middle. rewrite <- Permutation_middle. constructor.
      rewrite (Permutation_app_comm (forestRecords (before ++ after))).
      now rewrite <- !app_assoc.
Qed.

Lemma addPom_records_new (f : list PomTree) (pom : ResolvedPom) :
  rpGav pom <> EmptyString -> In (recordOf pom) (forestRecords (addPom f pom)).
Proof.
  intros Hgav. destruct (addPom_records f pom Hgav) as (old & extra & others & _ & Hperm & _).
  eapply Permutation_in; [symmetry; exact Hperm|]. now left.
Qed.

Lemma addPom_records_kept (f : list PomTree) (pom : ResolvedPom)
    (e : string * string * string) :
  In e (forestRecords f) -> e.1.1 <> rpGav pom \/ rpGav pom = EmptyString ->
  In e (forestRecords (addPom f pom)).
Proof.
  intros Hin Hother.
  destruct (String.eqb_spec (rpGav pom) EmptyString) as [Hempty|Hgav].
  { now rewrite (addPom_skipped _ _ Hempty). }
  destruct Hother as [Hother|Hempty]; [|contradiction].
  destruct (addPom_records f pom Hgav) as (old & extra & others & Hf & Hperm & Hold & _).
  eapply Permutation_in; [symmetry; exact Hperm|].
  apply (Permutation_in _ Hf) in Hin. right. apply in_or_app. right.
  apply in_app_or in Hin as [Hin|Hin]; [|exact Hin].
  destruct Hold as [->|(pg & p & ->)]; [destruct Hin|].
  destruct Hin as [<-|[]]. now destruct Hother.
Qed.

Lemma addPom_records_from (f : list PomTree) (pom : ResolvedPom)
    (e : string * string * string) :
  In e (forestRecords (addPom f pom)) ->
  In e (forestRecords f)
  \/ (rpGav pom <> EmptyString
      /\ (e = recordOf pom
          \/ (e = placeholderRecord (rpParentGav pom) /\ rpParentGav pom <> EmptyString))).
Proof.
  intros Hin.
  destruct (String.eqb_spec (rpGav pom) EmptyString) as [Hempty|Hgav].
  { rewrite (addPom_skipped _ _ Hempty) in Hin. now left. }
  destruct (addPom_records f pom Hgav) as (old & extra & others & Hf & Hperm & _ & Hextra).
  apply (Permutation_in _ Hperm) in Hin. destruct Hin as [<-|Hin]; [tauto|].
  apply in_app_or in Hin as [Hin|Hin].
  - destruct Hextra as [->|[-> Hparent]]; [destruct Hin|].
    destruct Hin as [<-|[]]. tauto.
  - left. eapply Permutation_in; [symmetry; exact Hf|]. apply in_or_app. now right.
Qed.

End Records.

(** The last loop takes away nodes without directory only. *)
Lemma sweepLoop_records (steps i : nat) (f swept : list PomTree) :
  sweepLoop steps i f = Some swept ->
  exists removed,
    Permutation (forestRecords f) (removed ++ forestRecords swept)
    /\ Forall (fun e => e.2 = EmptyString) removed.
Proof.
  revert i f. induction steps as [|steps IH]; intros i f Hrun; [discriminate|].
  simpl in Hrun. destruct (nth_error f i) as [root|] eqn:Hnth.
  - destruct (String.eqb_spec (pomPath root) EmptyString) as [Hempty|_].
    + destruct (IH _ _ Hrun) as (removed & Hperm & Hremoved).
      exists ((pomGav root, parentGav root, pomPath root) :: removed). split.
      * simpl. rewrite <- Hperm.
        destruct (nth_error_split_at _ _ _ Hnth) as [Hsplit _].
        rewrite Hsplit at 1. unfold spliceOne.
        rewrite !forestRecords_app. unfold forestRecords at 2. simpl.
        fold (forestRecords (skipn (S i) f)). rewrite treeRecords_head.
        simpl. rewrite <- Permutation_middle. constructor. rewrite <- app_assoc.
        apply Permutation_app_head, Permutation_app_comm.
      * constructor; [exact Hempty|exact Hremoved].
    + exact (IH _ _ Hrun).
  - inversion Hrun. exists []. split; [reflexivity|constructor].
Qed.

Lemma sweepRoots_records_kept (f : list PomTree) (e : string * string * string) :
  In e (forestRecords f) -> e.2 <> EmptyString -> In e (forestRecords (sweepRoots f)).
Proof.
  intros Hin Hdir. destruct (sweepLoop_records _ _ _ _ (sweepRoots_run f)) as (removed & Hperm & Hremoved).
  apply (Permutation_in _ Hperm) in Hin. apply in_app_or in Hin as [Hin|Hin]; [|exact Hin].
  rewrite List.Forall_forall in Hremoved. now apply Hremoved in Hin.
Qed.

Lemma sweepRoots_records_from (f : list PomTree) (e : string * string * string) :
  In e (forestRecords (sweepRoots f)) -> In e (forestRecords f).
Proof.
  intros Hin. destruct (sweepLoop_records _ _ _ _ (sweepRoots_run f)) as (removed & Hperm & _).
  eapply Permutation_in; [symmetry; exact Hperm|]. apply in_or_app. now right.
Qed.

Section RecordsOfBuild.

Context `{Shell} `{NodePath} `{JsonReader} `{Installation}.

Lemma fold_addPom_records_from (resolved : list ResolvedPom) (f : list PomTree)
    (e : string * string * string) :
  In e (forestRecords (fold_left addPom resolved f)) ->
  In e (forestRecords f) \/ describedBy resolved e.
Proof.
  revert f. induction resolved as [|pom resolved IH]; intros f Hin; simpl in *; [now left|].
  destruct (IH _ Hin) as [Hstep|[(r & Hr & Hgav & ->)|(r & Hr & Hgav & Hparent & ->)]].
  - apply addPom_records_from in Hstep as [Hold|[Hgav [->|[-> Hparent]]]].
    + now left.
    + right. left. exists pom. split; [now left|]. split; [exact Hgav|reflexivity].
    + right. right. exists pom. split; [now left|]. repeat split; assumption.
  - right. left. exists r. split; [now right|]. split; [exact Hgav|reflexivity].
  - right. right. exists r. split; [now right|]. repeat split; assumption.
Qed.

Lemma fold_addPom_records_kept (resolved : list ResolvedPom) (f : list PomTree)
    (e : string * string * string) :
  In e (forestRecords f) ->
  ~ In e.1.1 (resolvedGavs resolved) ->
  In e (forestRecords (fold_left addPom resolved f)).
Proof.
  revert f. induction resolved as [|pom resolved IH]; intros f Hin Hfresh; simpl; [exact Hin|].
  apply IH.
  - apply addPom_records_kept; [exact Hin|].
    destruct (String.eqb_spec (rpGav pom) EmptyString) as [Hempty|Hgav]; [now right|left].
    intros Heq. apply Hfresh. unfold resolvedGavs. simpl.
    destruct (String.eqb_spec (rpGav pom) EmptyString); [contradiction|]. simpl. now left.
  - intros Hlater. apply Hfresh. unfold resolvedGavs in *. simpl.
    destruct (negb (String.eqb (rpGav pom) EmptyString)); [now right|exact Hlater].
Qed.

Lemma fold_addPom_records_last (resolved : list ResolvedPom) (f : list PomTree) (g : string) :
  In g (resolvedGavs resolved) ->
  exists r, In r resolved /\ rpGav r = g
            /\ In (recordOf r) (forestRecords (fold_left addPom resolved f)).
Proof.
  revert f. induction resolved as [|pom resolved IH]; intros f Hg; [destruct Hg|].
  destruct (in_dec string_dec g (resolvedGavs resolved)) as [Hlater|Hlast].
  - destruct (IH (addPom f pom) Hlater) as (r & Hr & Hgav & Hin).
    exists r. split; [now right|]. split; [exact Hgav|exact Hin].
  - unfold resolvedGavs in Hg. simpl in Hg.
    destruct (String.eqb_spec (rpGav pom) EmptyString) as [Hempty|Hgav]; simpl in Hg;
      [contradiction|].
    destruct Hg as [<-|Hg]; [|contradiction].
    exists pom. split; [now left|]. split; [reflexivity|]. simpl.
    apply fold_addPom_records_kept; [now apply addPom_records_new|exact Hlast].
Qed.

(** X16. Every node of the forest returned is accounted for by the
    descriptors resolved: it records the identity, the parent identity
    and the directory of one of them, or it is a placeholder, without
    parent and directory, for the parent identity of one of them. *)
Theorem buildPrototypePomTree_nodes_described (pomArray : list Uri) (w w' : World)
    (forest : list PomTree) (e : string * string * string) :
  buildPrototypePomTree pomArray w = (w', Normal forest) ->
  In e (forestRecords forest) ->
  describedBy (resolvedPoms pomArray w) e.
Proof.
  intros Hrun Hin. rewrite (buildPrototypePomTree_run _ _ _ _ Hrun) in Hin.
  apply sweepRoots_records_from, fold_addPom_records_from in Hin as [[]|Hdescribed].
  exact Hdescribed.
Qed.

(** X17. No module is lost: for every identity under which a
    descriptor is resolved, a node of the forest returned records that
    identity with the parent and the directory of a descriptor resolved
    under it, provided [dirname] gives no empty directory. *)
Theorem buildPrototypePomTree_keeps_modules (pomArray : list Uri) (w w' : World)
    (forest : list PomTree) (g : string) :
  buildPrototypePomTree pomArray w = (w', Normal forest) ->
  (forall r, In r (resolvedPoms pomArray w) -> dirname (rpPath r) <> EmptyString) ->
  In g (resolvedGavs (resolvedPoms pomArray w)) ->
  exists r, In r (resolvedPoms pomArray w) /\ rpGav r = g
            /\ In (recordOf r) (forestRecords forest).
Proof.
  intros Hrun Hdirs Hg. rewrite (buildPrototypePomTree_run _ _ _ _ Hrun).
  destruct (fold_addPom_records_last (resolvedPoms pomArray w) [] g Hg) as (r & Hr & Hgav & Hin).
  exists r. split; [exact Hr|]. split; [exact Hgav|].
  apply sweepRoots_records_kept; [exact Hin|]. simpl. now apply Hdirs.
Qed.

End RecordsOfBuild.

Lemma buildPrototypePomTree_nodes_described_witness :
  @describedBy posixPath (resolvedOf orphanModules) ("ext:parent:2", EmptyString, EmptyString).
Proof.
  apply (@buildPrototypePomTree_nodes_described
           (moduleShell orphanModules) posixPath lineReader anyInstallation
           (urisOf orphanModules) freshWorld (buildModules orphanModules).1
           [PomNode "ext:parent:2" EmptyString EmptyString
              [PomNode "g:b:1" "ext:parent:2" "/w/b" []];
            PomNode "g:a:1" "ext:parent:1" "/w/a" []]).
  - reflexivity.
  - simpl. tauto.
Defined.

Lemma buildPrototypePomTree_keeps_modules_witness :
  exists r, In r (resolvedOf twinModules) /\ rpGav r = "g:a:1"
            /\ In (@recordOf posixPath r)
                  (forestRecords
                     [PomNode "g:p:1" EmptyString "/w"
                        [PomNode "g:a:1" "g:p:1" "/w/a" [];
                         PomNode "g:a:1" "g:p:1" "/w/b" []]]).
Proof.
  apply (@buildPrototypePomTree_keeps_modules
           (moduleShell twinModules) posixPath lineReader anyInstallation
           (urisOf twinModules) freshWorld (buildModules twinModules).1
           [PomNode "g:p:1" EmptyString "/w"
              [PomNode "g:a:1" "g:p:1" "/w/a" []; PomNode "g:a:1" "g:p:1" "/w/b" []]]
           "g:a:1").
  - reflexivity.
  - intros r [<-|[<-|[<-|[]]]]; vm_compute; discriminate.
  - vm_compute. tauto.
Defined.

Lemma resolvedGavs_injective (resolved : list ResolvedPom) (r r' : ResolvedPom) :
  List.NoDup (resolvedGavs resolved) ->
  In r resolved -> In r' resolved ->
  rpGav r = rpGav r' -> rpGav r <> EmptyString ->
  r = r'.
Proof.
  unfold resolvedGavs. induction resolved as [|x resolved IH]; intros Hnodup Hr Hr' Hsame Hgav;
    [destruct Hr|].
  simpl in Hnodup.
  assert (Hin : forall y, In y resolved -> rpGav y <> EmptyString ->
                          In (rpGav y)
                             (List.filter (fun g => negb (String.eqb g EmptyString))
                                          (List.map rpGav resolved))).
  { intros y Hy Hne. apply filter_In. split; [now apply in_map|].
    now destruct (String.eqb_spec (rpGav y) EmptyString). }
  destruct (String.eqb_spec (rpGav x) EmptyString) as [Hempty|Hx]; simpl in Hnodup.
  - destruct Hr as [<-|Hr]; [contradiction|].
    destruct Hr' as [<-|Hr']; [congruence|]. now apply IH.
  - inversion Hnodup as [|? ? Hnot Hrest]; subst.
    destruct Hr as [<-|Hr], Hr' as [<-|Hr'].
    + reflexivity.
    + destruct Hnot. rewrite Hsame. apply Hin; [exact Hr'|congruence].
    + destruct Hnot. rewrite <- Hsame. now apply Hin.
    + now apply IH.
Qed.

Section RecordsOfDistinct.

Context `{Shell} `{NodePath} `{JsonReader} `{Installation}.

(** X18. When the descriptors are resolved under pairwise different
    identities, every one of them has its node in the forest returned:
    a node with its identity, the parent identity resolved for it and
    the directory of its file. *)
Theorem buildPrototypePomTree_records_every_module (pomArray : list Uri) (w w' : World)
    (forest : list PomTree) (r : ResolvedPom) :
  buildPrototypePomTree pomArray w = (w', Normal forest) ->
  List.NoDup (resolvedGavs (resolvedPoms pomArray w)) ->
  (forall r', In r' (resolvedPoms pomArray w) -> dirname (rpPath r') <> EmptyString) ->
  In r (resolvedPoms pomArray w) ->
  rpGav r <> EmptyString ->
  In (recordOf r) (forestRecords forest).
Proof.
  intros Hrun Hdistinct Hdirs Hr Hgav. rewrite (buildPrototypePomTree_run _ _ _ _ Hrun).
  assert (Hg : In (rpGav r) (resolvedGavs (resolvedPoms pomArray w))).
  { unfold resolvedGavs. apply filter_In. split; [now apply in_map|].
    now destruct (String.eqb_spec (rpGav r) EmptyString). }
  destruct (fold_addPom_records_last (resolvedPoms pomArray w) [] _ Hg) as (r' & Hr' & Hsame & Hin).
  assert (r' = r) as ->.
  { apply (resolvedGavs_injective _ _ _ Hdistinct Hr' Hr Hsame). congruence. }
  apply sweepRoots_records_kept; [exact Hin|]. simpl. now apply Hdirs.
Qed.

Lemma resolveAll_paths (poms : list Uri) (w : World) (cache : gmap string (string * string)) :
  List.map rpPath (resolveAll poms w cache) = List.map fsPath poms.
Proof.
  revert w cache. induction poms as [|pom poms IH]; intros w cache; simpl; [reflexivity|].
  destruct (getPomDetails (fsPath pom) w cache) as [[gavs cache1] w1]. simpl. now rewrite IH.
Qed.

(** X19. Every descriptor of the array is resolved exactly once, and
    the descriptors are taken by length of path, shortest first. *)
Theorem resolvedPoms_shortest_first (pomArray : list Uri) (w : World) :
  Permutation (List.map rpPath (resolvedPoms pomArray w)) (List.map fsPath pomArray)
  /\ StronglySorted (fun a b => (String.length a <= String.length b)%nat)
                    (List.map rpPath (resolvedPoms pomArray w)).
Proof.
  unfold resolvedPoms. rewrite resolveAll_paths.
  set (byLength := fun pomPath1 pomPath2 : Uri =>
                     Js.len (fsPath pomPath1) - Js.len (fsPath pomPath2)).
  split.
  - apply Permutation_map, sortBy_perm.
  - assert (Hsorted : StronglySorted (fun a b => byLength a b <= 0) (sortBy byLength pomArray)).
    { apply sortBy_sorted; unfold byLength; intros; lia. }
    induction Hsorted as [|x l Hl IH Hx]; simpl; constructor; [exact IH|].
    rewrite List.Forall_forall in *. intros p Hp. apply in_map_iff in Hp as (y & <- & Hy).
    specialize (Hx y Hy). unfold byLength, Js.len in Hx. lia.
Qed.

End RecordsOfDistinct.

Lemma buildPrototypePomTree_records_every_module_witness :
  In ("g:a:1", "g:p:1", "/a")
     (forestRecords [PomNode "g:p:1" EmptyString "/w/p" [PomNode "g:a:1" "g:p:1" "/a" []]]).
Proof.
  apply (@buildPrototypePomTree_records_every_module
           (moduleShell childFirstModules) posixPath lineReader anyInstallation
           (urisOf childFirstModules) freshWorld (buildModules childFirstModules).1
           [PomNode "g:p:1" EmptyString "/w/p" [PomNode "g:a:1" "g:p:1" "/a" []]]
           (mkResolvedPom "/a/pom.xml" "g:a:1" "g:p:1")).
  - reflexivity.
  - change (List.NoDup ["g:a:1"; "g:p:1"]). repeat constructor; simpl; intuition discriminate.
  - intros r [<-|[<-|[]]]; vm_compute; discriminate.
  - vm_compute. tauto.
  - discriminate.
Defined.

(** ** The last loop when no two placeholders stand side by side *)

Lemma spacedAfter_weaken (f : list PomTree) :
  spacedAfter true f = true -> spacedAfter false f = true.
Proof. destruct f as [|t f]; simpl; [trivial|]. destruct (hasDir t); [trivial|discriminate]. Qed.

Lemma spacedAfter_app (b : bool) (f extra : list PomTree) :
  spacedAfter b f = true -> forallb hasDir extra = true -> spacedAfter b (f ++ extra) = true.
Proof.
  revert b. induction f as [|t f IH]; intros b Hf Hextra; simpl in *.
  - clear Hf. revert b. induction extra as [|x extra IHx]; intros b; simpl in *; [reflexivity|].
    apply andb_prop in Hextra as [Hx Hextra]. rewrite Hx. now apply IHx.
  - destruct (hasDir t); [now apply IH|].
    apply andb_prop in Hf as [Hb Hf]. rewrite Hb. simpl. now apply IH.
Qed.

Lemma dirlessAboveDirs_app (f extra : list PomTree) :
  dirlessAboveDirs f = true -> forallb hasDir extra = true ->
  dirlessAboveDirs (f ++ extra) = true.
Proof.
  unfold dirlessAboveDirs. intros Hf Hextra. rewrite forallb_app, Hf. simpl.
  rewrite forallb_forall in *. intros t Ht. now rewrite (Hextra t Ht).
Qed.

Lemma rootsWithDir_all (f : list PomTree) :
  forallb hasDir f = true -> rootsWithDir f = f /\ promotedChildren f = [].
Proof.
  unfold rootsWithDir, promotedChildren.
  induction f as [|t f IH]; simpl; intros Hall; [tauto|].
  apply andb_prop in Hall as [Ht Hall]. rewrite Ht. simpl.
  destruct (IH Hall) as [-> ->]. tauto.
Qed.

Lemma sweepLoop_past_end (steps i : nat) (f : list PomTree) :
  (List.length f <= i)%nat -> sweepLoop (S steps) i f = Some f.
Proof.
  intros Hlen. simpl. now rewrite (proj2 (List.nth_error_None f i) Hlen).
Qed.

Lemma sweepLoop_spaced (steps : nat) (done pending swept : list PomTree) :
  spacedAfter false pending = true ->
  dirlessAboveDirs pending = true ->
  sweepLoop steps (List.length done) (done ++ pending) = Some swept ->
  swept = done ++ rootsWithDir pending ++ promotedChildren pending.
Proof.
  revert done pending. induction steps as [|steps IH]; intros done pending Hspaced Hbelow Hrun;
    [discriminate|].
  simpl in Hrun. destruct pending as [|x pending].
  - rewrite nth_error_app2, Nat.sub_diag in Hrun by lia. simpl in Hrun.
    inversion Hrun. reflexivity.
  - rewrite nth_error_app2, Nat.sub_diag in Hrun by lia. simpl in Hrun.
    simpl in Hspaced, Hbelow. apply andb_prop in Hbelow as [Hx Hbelow].
    assert (Hdir : String.eqb (pomPath x) EmptyString = negb (hasDir x)).
    { unfold hasDir. now rewrite negb_involutive. }
    rewrite Hdir in Hrun. unfold rootsWithDir, promotedChildren. simpl.
    destruct (hasDir x) eqn:Hhas; simpl in *.
    + replace (done ++ x :: pending) with ((done ++ [x]) ++ pending) in Hrun
        by now rewrite <- app_assoc.
      replace (S (List.length done)) with (List.length (done ++ [x])) in Hrun
        by (rewrite length_app; simpl; lia).
      rewrite (IH _ _ Hspaced Hbelow Hrun). now rewrite <- app_assoc.
    + rewrite spliceOne_middle, <- app_assoc in Hrun.
      pose proof (spacedAfter_app true pending (children x) Hspaced Hx) as Hq.
      pose proof (dirlessAboveDirs_app pending (children x) Hbelow Hx) as Hqb.
      destruct (rootsWithDir_all (children x) Hx) as [Hkeep Hnone].
      assert (Htarget : rootsWithDir (pending ++ children x)
                        ++ promotedChildren (pending ++ children x)
                        = rootsWithDir pending ++ children x ++ promotedChildren pending).
      { unfold rootsWithDir, promotedChildren in *.
        rewrite !List.filter_app, flat_map_app, Hkeep, Hnone, app_nil_r.
        now rewrite <- app_assoc. }
      fold (rootsWithDir pending). fold (promotedChildren pending).
      rewrite <- Htarget.
      destruct (pending ++ children x) as [|y rest] eqn:Hrest.
      * destruct steps as [|steps']; [discriminate|].
        rewrite sweepLoop_past_end in Hrun; [now inversion Hrun|].
        rewrite length_app. simpl. lia.
      * simpl in Hq, Hqb. apply andb_prop in Hqb as [_ Hqb].
        destruct (hasDir y) eqn:Hy; [|discriminate].
        replace (done ++ y :: rest) with ((done ++ [y]) ++ rest) in Hrun
          by now rewrite <- app_assoc.
        replace (S (List.length done)) with (List.length (done ++ [y])) in Hrun
          by (rewrite length_app; simpl; lia).
        rewrite (IH _ _ Hq Hqb Hrun).
        unfold rootsWithDir, promotedChildren. simpl. rewrite Hy. simpl.
        now rewrite <- app_assoc.
Qed.

(** X20. The last loop does its work when no two roots without
    directory stand side by side and only nodes with directory hang
    below such roots: the array it leaves is the roots with directory,
    in their order, followed by the children of the other roots, so
    every root left has a directory. *)
Theorem sweepRoots_spaced (prototypeTree : list PomTree) :
  spacedAfter false prototypeTree = true ->
  dirlessAboveDirs prototypeTree = true ->
  sweepRoots prototypeTree = rootsWithDir prototypeTree ++ promotedChildren prototypeTree
  /\ forallb hasDir (sweepRoots prototypeTree) = true.
Proof.
  intros Hspaced Hbelow.
  assert (Hswept : sweepRoots prototypeTree
                   = rootsWithDir prototypeTree ++ promotedChildren prototypeTree).
  { apply (sweepLoop_spaced (S (forestSize prototypeTree)) [] prototypeTree);
      [exact Hspaced|exact Hbelow|apply sweepRoots_run]. }
  split; [exact Hswept|]. rewrite Hswept, forallb_app. apply andb_true_intro. split.
  - unfold rootsWithDir. apply forallb_forall. intros t Ht. now apply filter_In in Ht.
  - unfold promotedChildren, dirlessAboveDirs in *. apply forallb_forall. intros c Hc.
    apply in_flat_map in Hc as (t & Ht & Hc). apply filter_In in Ht as [Ht Hdirless].
    rewrite forallb_forall in Hbelow. specialize (Hbelow t Ht).
    apply negb_true_iff in Hdirless. rewrite Hdirless in Hbelow. simpl in Hbelow.
    rewrite forallb_forall in Hbelow. now apply Hbelow.
Qed.

Lemma sweepRoots_spaced_witness :
  sweepRoots [PomNode "ext:parent:1" EmptyString EmptyString
                [PomNode "g:a:1" "ext:parent:1" "/w/a" []];
              PomNode "g:c:1" EmptyString "/w/c" [];
              PomNode "ext:parent:2" EmptyString EmptyString
                [PomNode "g:b:1" "ext:parent:2" "/w/b" []]]
  = [PomNode "g:c:1" EmptyString "/w/c" [];
     PomNode "g:a:1" "ext:parent:1" "/w/a" [];
     PomNode "g:b:1" "ext:parent:2" "/w/b" []].
Proof.
  apply (proj1 (sweepRoots_spaced
                  [PomNode "ext:parent:1" EmptyString EmptyString
                     [PomNode "g:a:1" "ext:parent:1" "/w/a" []];
                   PomNode "g:c:1" EmptyString "/w/c" [];
                   PomNode "ext:parent:2" EmptyString EmptyString
                     [PomNode "g:b:1" "ext:parent:2" "/w/b" []]]
                  eq_refl eq_refl)).
Defined.

(** ** Descriptor locator: one entry per text, whatever the locale *)

Lemma locatePomXmls_perm `{FileSearch} `{Locale} (workspaceFolders : list WorkspaceFolder) :
  Permutation (locatePomXmls workspaceFolders).1
              (setToArray (collectPomXmls workspaceFolders [] []).1).
Proof.
  unfold locatePomXmls. destruct (collectPomXmls workspaceFolders [] []) as [s log]. simpl.
  destruct (Z.of_nat (List.length (setToArray s)) >? 1); [apply sortBy_perm|reflexivity].
Qed.

(** X21. For every locale and every file search, the list returned
    holds no two entries with the same text, holds found paths only,
    and holds an entry for the text of every path found. *)
Theorem locatePomXmls_one_per_text `{FileSearch} `{Locale}
    (workspaceFolders : list WorkspaceFolder) :
  let result := (locatePomXmls workspaceFolders).1 in
  List.NoDup (List.map uriText result)
  /\ incl result (allFound workspaceFolders)
  /\ incl (List.map uriText (allFound workspaceFolders)) (List.map uriText result).
Proof.
  intros result. unfold result.
  pose proof (locatePomXmls_perm workspaceFolders) as Hperm.
  rewrite collectPomXmls_fold in Hperm.
  set (s := fold_left setAdd (allFound workspaceFolders) []) in *.
  assert (Hwf : wfSet s).
  { apply wfSet_fold. split; [intros k u []|constructor]. }
  destruct Hwf as [Hkeys Hnodup].
  assert (Hkeymap : List.map fst s = List.map setKey (setToArray s)).
  { unfold setToArray. rewrite map_map. apply map_ext_in. intros [k u] Hin. now apply Hkeys. }
  split; [|split].
  - eapply Permutation_NoDup; [symmetry; apply Permutation_map, Hperm|].
    apply (List.NoDup_map_inv (String.append "$o")). rewrite map_map.
    rewrite Hkeymap in Hnodup. exact Hnodup.
  - intros u Hu. apply (Permutation_in _ Hperm) in Hu.
    destruct (fold_setAdd_elements _ _ _ Hu) as [[]|Hin]. exact Hin.
  - intros text Htext. apply in_map_iff in Htext as (u & <- & Hu).
    destruct (fold_setAdd_covers (allFound workspaceFolders) [] u) as (v & Hv & Hkey);
      [split; [intros k x []|constructor]|exact Hu|].
    apply in_map_iff. exists v. split; [now apply setKey_inj|].
    eapply Permutation_in; [symmetry; exact Hperm|exact Hv].
Qed.

(** ** Prototype tree: the search for a parent *)

Lemma deepSearch_node (g : string) (t n : PomTree) :
  deepSearch g t = Some n -> In n (treeNodes t).
Proof.
  induction t as [g0 pg p cs IH] using PomTree_forall_ind. simpl.
  destruct (String.eqb g0 g); [intros Heq; inversion Heq; now left|].
  intros Hfound. right. induction IH as [|c cs Hc _ IHcs]; [discriminate|]. simpl.
  apply in_or_app. destruct (deepSearch g c) as [found|].
  - left. apply Hc. exact Hfound.
  - right. now apply IHcs.
Qed.

(** X22. [getPrototypeNode] answers [undefined] exactly when no node
    of the array, at any depth, carries the identity; the node it
    answers is a node of the array and carries the identity. *)
Theorem getPrototypeNode_finds (prototypeTreeArray : list PomTree) (gav : string) :
  (getPrototypeNode prototypeTreeArray gav = None
   <-> ~ In gav (forestGavs prototypeTreeArray))
  /\ match getPrototypeNode prototypeTreeArray gav with
     | Some n => pomGav n = gav /\ In n (forestNodes prototypeTreeArray)
     | None => True
     end.
Proof.
  split.
  - destruct (getPrototypeNode_spec prototypeTreeArray gav) as [[Hin (n & -> & _)]|[Hnot ->]].
    + split; [discriminate|tauto].
    + tauto.
  - induction prototypeTreeArray as [|t f IH]; simpl; [exact I|].
    destruct (deepSearch gav t) as [n|] eqn:Hsearch.
    + split.
      * destruct (deepSearch_spec gav t) as [[_ (n' & Hn' & Hgav)]|[_ Hnone]]; congruence.
      * unfold forestNodes. simpl. apply in_or_app. left. now apply deepSearch_node with gav.
    + destruct (getPrototypeNode f gav); [|exact I].
      destruct IH as [Hgav Hin]. split; [exact Hgav|].
      unfold forestNodes in *. simpl. apply in_or_app. now right.
Qed.

(** ** GAV resolver: the lines handed to [JSON.parse] *)

Lemma splitLines_no_break (s : string) :
  Forall (fun l => allChars (fun c => negb (Js.isLineTerminator c)) l = true) (splitLines s).
Proof.
  assert (Hcons : forall c r,
             Js.isLineTerminator c = false ->
             Forall (fun l => allChars (fun c => negb (Js.isLineTerminator c)) l = true) r ->
             Forall (fun l => allChars (fun c => negb (Js.isLineTerminator c)) l = true)
                    match r with [] => [String c EmptyString] | f :: fs => String c f :: fs end).
  { intros c r Hc Hr. destruct Hr as [|f fs Hf Hfs]; constructor; simpl; try rewrite Hc;
      simpl; auto. }
  assert (Hlt : forall c, Ascii.eqb c LF = false -> Ascii.eqb c CR = false ->
                          Js.isLineTerminator c = false).
  { intros c Hlf Hcr. unfold Js.isLineTerminator, Js.code.
    apply Ascii.eqb_neq in Hlf, Hcr. apply orb_false_intro; apply Nat.eqb_neq; intros Heq.
    - apply Hlf. rewrite <- (ascii_nat_embedding c), Heq. reflexivity.
    - apply Hcr. rewrite <- (ascii_nat_embedding c), Heq. reflexivity. }
  assert (Hall : forall n s, (String.length s <= n)%nat ->
             Forall (fun l => allChars (fun c => negb (Js.isLineTerminator c)) l = true)
                    (splitLines s)).
  { induction n as [|n IH]; intros [|c t] Hlen; simpl in *; try lia;
      try (repeat constructor; fail).
    destruct (Ascii.eqb c LF) eqn:Hlf; [constructor; [reflexivity|apply IH; lia]|].
    destruct (Ascii.eqb c CR) eqn:Hcr.
    - destruct t as [|d t]; [repeat constructor|].
      destruct (Ascii.eqb d LF); constructor; try reflexivity; apply IH; simpl in *; lia.
    - apply Hcons; [now apply Hlt|apply IH; lia]. }
  now apply (Hall (String.length s)).
Qed.

Lemma escapeBackslashes_keeps (p : ascii -> bool) (s : string) :
  allChars p s = true -> allChars p (escapeBackslashes s) = true.
Proof.
  induction s as [|c s IH]; simpl; intros Hs; [reflexivity|].
  apply andb_prop in Hs as [Hc Hs]. destruct (Ascii.eqb c BACKSLASH); simpl;
    rewrite Hc, (IH Hs); reflexivity.
Qed.

(** X23. Every line handed to [JSON.parse] is non-empty and holds no
    line break, whatever the output of the reader is. *)
Theorem gavLines_well_formed (mvnGavRes : string) :
  Forall (fun l => l <> EmptyString
                   /\ allChars (fun c => negb (Js.isLineTerminator c)) l = true)
         (gavLines mvnGavRes).
Proof.
  unfold gavLines. apply List.Forall_forall. intros l Hl.
  apply in_map_iff in Hl as (raw & <- & Hraw). apply filter_In in Hraw as [Hraw Hnonempty].
  split.
  - destruct raw as [|c raw]; [discriminate Hnonempty|]. simpl.
    destruct (Ascii.eqb c BACKSLASH); discriminate.
  - apply escapeBackslashes_keeps.
    pose proof (splitLines_no_break mvnGavRes) as Hall.
    rewrite List.Forall_forall in Hall. now apply Hall.
Qed.

(** ** Position locator: the declaration blocks of a descriptor *)

Lemma ciPrefixb_length (p s : string) :
  ciPrefixb p s = true -> (String.length p <= String.length s)%nat.
Proof.
  revert s. induction p as [|a p IH]; intros [|b s]; simpl; try lia; try discriminate.
  intros Hp. apply andb_prop in Hp as [_ Hp]. specialize (IH s Hp). lia.
Qed.

Lemma ciPrefixb_taken (p s : string) (n : nat) :
  ciPrefixb p s = true -> (String.length p <= n)%nat -> ciPrefixb p (Js.taken n s) = true.
Proof.
  revert s n. induction p as [|a p IH]; intros [|b s] [|n]; simpl; try lia; try discriminate;
    try reflexivity.
  intros Hp Hn. apply andb_prop in Hp as [Hab Hp]. rewrite Hab. simpl. apply IH; [exact Hp|lia].
Qed.

Lemma ciIndexOf_spec (p s : string) (j : nat) :
  ciIndexOf p s = Some j ->
  ciPrefixb p (Js.dropn j s) = true /\ (j + String.length p <= String.length s)%nat.
Proof.
  revert j. induction s as [|c s IH]; intros j; cbn [ciIndexOf].
  - destruct (ciPrefixb p EmptyString) eqn:Hp; [|discriminate].
    intros Hj. injection Hj as <-. split; [exact Hp|]. now apply ciPrefixb_length in Hp.
  - destruct (ciPrefixb p (String c s)) eqn:Hp.
    + intros Hj. injection Hj as <-. split; [exact Hp|]. now apply ciPrefixb_length in Hp.
    + destruct (ciIndexOf p s) as [k|]; [|discriminate]. intros Hj. injection Hj as <-.
      destruct (IH k eq_refl) as [Hk Hlen]. split; [exact Hk|]. simpl. lia.
Qed.

Lemma length_taken (n : nat) (s : string) :
  (n <= String.length s)%nat -> String.length (Js.taken n s) = n.
Proof.
  revert s. induction n as [|n IH]; intros [|c s]; simpl; try lia. intros Hn.
  rewrite IH; lia.
Qed.

Lemma length_dropn (n : nat) (s : string) :
  String.length (Js.dropn n s) = (String.length s - n)%nat.
Proof. revert s. induction n as [|n IH]; intros [|c s]; simpl; try lia. apply IH. Qed.

Lemma dropn_dropn (a b : nat) (s : string) : Js.dropn a (Js.dropn b s) = Js.dropn (b + a) s.
Proof.
  revert s. induction b as [|b IH]; intros s; [reflexivity|].
  destruct s as [|c s]; simpl; [now destruct a|apply IH].
Qed.

Lemma dropn_taken (a b : nat) (s : string) :
  Js.dropn a (Js.taken (a + b) s) = Js.taken b (Js.dropn a s).
Proof.
  revert s. induction a as [|a IH]; intros s; [reflexivity|].
  destruct s as [|c s]; simpl; [now destruct b|apply IH].
Qed.

Lemma blockHere_shape (text block : string) :
  blockHere text = Some block ->
  ciPrefixb openTag block = true
  /\ ciPrefixb closeTag (Js.dropn (String.length block - String.length closeTag) block) = true
  /\ (String.length openTag + String.length closeTag <= String.length block)%nat
  /\ text = block +:+ Js.dropn (String.length block) text.
Proof.
  unfold blockHere. destruct (ciPrefixb openTag text) eqn:Hopen; [|discriminate].
  apply ciPrefixb_length in Hopen as Hopenlen.
  remember (String.length openTag) as o eqn:Ho.
  remember (String.length closeTag) as c eqn:Hc.
  destruct (ciIndexOf closeTag (Js.dropn o text)) as [j|] eqn:Hj; [|discriminate].
  intros Hblock.
  assert (Hb : block = Js.taken (o + j + c) text) by congruence.
  clear Hblock. subst block.
  apply ciIndexOf_spec in Hj as [Hclose Hlen].
  rewrite length_dropn, <- Hc in Hlen.
  assert (Hall : (o + j + c <= String.length text)%nat) by lia.
  rewrite (length_taken _ _ Hall).
  split; [apply ciPrefixb_taken; [exact Hopen|lia]|].
  split; [|split; [lia|symmetry; apply taken_dropn]].
  replace (o + j + c - c)%nat with (o + j)%nat by lia.
  rewrite dropn_taken. apply ciPrefixb_taken; [|lia].
  rewrite <- dropn_dropn. exact Hclose.
Qed.

Lemma matchBlocks_block (skip : nat) (text block : string) :
  In block (matchBlocks skip text) ->
  exists pre suffix, text = pre +:+ suffix /\ blockHere suffix = Some block.
Proof.
  revert skip. induction text as [|c text IH]; intros skip; cbn [matchBlocks]; [intros []|].
  assert (Hlater : forall k, In block (matchBlocks k text) ->
            exists pre suffix, String c text = pre +:+ suffix /\ blockHere suffix = Some block).
  { intros k Hin. destruct (IH k Hin) as (pre & suffix & -> & Hhere).
    exists (String c pre), suffix. split; [reflexivity|exact Hhere]. }
  destruct skip as [|k]; [|apply Hlater].
  destruct (blockHere (String c text)) as [found|] eqn:Hhere; [|apply Hlater].
  intros [<-|Hin]; [|now apply Hlater with (String.length found - 1)%nat].
  exists EmptyString, (String c text). split; [reflexivity|exact Hhere].
Qed.

Lemma prefixb_append (a b : string) : Js.prefixb a (a +:+ b) = true.
Proof. induction a as [|c a IH]; simpl; [reflexivity|]. now rewrite Ascii.eqb_refl. Qed.

Lemma indexOfNat_occurs (pre needle post : string) :
  exists i, Js.indexOfNat needle (pre +:+ needle +:+ post) = Some i
            /\ (i <= String.length pre)%nat.
Proof.
  induction pre as [|c pre IH].
  - exists O. split; [|simpl; lia]. change (EmptyString +:+ needle +:+ post) with (needle +:+ post).
    pose proof (prefixb_append needle post) as Hprefix.
    destruct (needle +:+ post); cbn [Js.indexOfNat]; now rewrite Hprefix.
  - destruct IH as (i & Hi & Hle). change (String c pre +:+ needle +:+ post)
      with (String c (pre +:+ needle +:+ post)). cbn [Js.indexOfNat].
    destruct (Js.prefixb needle (String c (pre +:+ needle +:+ post))).
    + exists O. split; [reflexivity|lia].
    + exists (S i). rewrite Hi. split; [reflexivity|simpl; lia].
Qed.

(** X24. Every block that [matchDependencyBlocks] finds begins with
    the opening tag and ends with the closing tag, in any letter case,
    and occurs in the content: [indexOf] answers an offset at which the
    whole block fits, never -1. *)
Theorem matchDependencyBlocks_located (content : string) :
  Forall (fun block =>
            ciPrefixb openTag block = true
            /\ ciPrefixb closeTag
                 (Js.dropn (String.length block - String.length closeTag) block) = true
            /\ 0 <= Js.indexOf content block <= Js.len content - Js.len block)
         (matchDependencyBlocks content).
Proof.
  apply List.Forall_forall. intros block Hin.
  apply matchBlocks_block in Hin as (pre & suffix & Hcontent & Hhere).
  apply blockHere_shape in Hhere as (Hopen & Hclose & _ & Hsuffix).
  split; [exact Hopen|]. split; [exact Hclose|].
  rewrite Hsuffix in Hcontent.
  destruct (indexOfNat_occurs pre block (Js.dropn (String.length block) suffix))
    as (i & Hi & Hle).
  unfold Js.indexOf, Js.len. rewrite Hcontent at 1 2. rewrite Hi. simpl.
  rewrite Hcontent, !length_append. lia.
Qed.

Lemma matchBlocks_skip (skip : nat) (text : string) :
  matchBlocks skip text = matchBlocks O (Js.dropn skip text).
Proof.
  revert text. induction skip as [|k IH]; intros text; [reflexivity|].
  destruct text as [|c text]; [reflexivity|]. cbn [matchBlocks Js.dropn]. apply IH.
Qed.

Lemma matchBlocks_weave (n : nat) (text : string) :
  (String.length text <= n)%nat ->
  exists gaps rest,
    List.length gaps = List.length (matchBlocks O text)
    /\ text = weave gaps (matchBlocks O text) rest.
Proof.
  revert text. induction n as [|n IH]; intros [|c text] Hlen; simpl in Hlen; try lia;
    try (exists [], EmptyString; split; reflexivity).
  cbn [matchBlocks]. destruct (blockHere (String c text)) as [block|] eqn:Hhere.
  - apply blockHere_shape in Hhere as (_ & _ & Hlong & Htext).
    rewrite matchBlocks_skip.
    destruct (IH (Js.dropn (String.length block - 1) text)) as (gaps & rest & Hgaps & Hrest).
    { rewrite length_dropn. lia. }
    exists (EmptyString :: gaps), rest. split; [simpl; now rewrite Hgaps|].
    cbn [weave]. rewrite <- Hrest. rewrite Htext at 1.
    change (EmptyString +:+ block +:+ Js.dropn (String.length block - 1) text)
      with (block +:+ Js.dropn (String.length block - 1) text).
    f_equal. destruct (String.length block) as [|k] eqn:Hk; [simpl in Hlong; lia|].
    simpl. now rewrite Nat.sub_0_r.
  - destruct (IH text) as (gaps & rest & Hgaps & Hrest); [lia|].
    destruct (matchBlocks O text) as [|block blocks].
    + exists [], (String c text). split; reflexivity.
    + destruct gaps as [|gap gaps]; [discriminate Hgaps|].
      exists (String c gap :: gaps), rest. split; [exact Hgaps|].
      cbn [weave] in *. rewrite Hrest at 1. reflexivity.
Qed.

(** X25. The content of a descriptor is its declaration blocks, in the
    order [matchDependencyBlocks] lists them and without overlap, with
    a gap of text before each block and a rest after the last one. *)
Theorem matchDependencyBlocks_in_order (content : string) :
  exists gaps rest,
    List.length gaps = List.length (matchDependencyBlocks content)
    /\ content = weave gaps (matchDependencyBlocks content) rest.
Proof. apply (matchBlocks_weave (String.length content)). lia. Qed.

(** ** Prototype tree: a parent and its child, in either order *)

Lemma roots_among_gavs (f : list PomTree) (g : string) :
  In g (List.map pomGav f) -> In g (forestGavs f).
Proof.
  unfold forestGavs. induction f as [|[g0 pg p cs] f IH]; simpl; [tauto|].
  intros [Heq|Hin]; [now left|]. right. apply in_or_app. right. now apply IH.
Qed.

Lemma addChildInArray_last (g : string) (node t t' : PomTree) (f : list PomTree) :
  ~ In g (forestGavs f) ->
  addChildUnder g node t = Some t' ->
  addChildInArray g node (f ++ [t]) = f ++ [t'].
Proof.
  intros Hfresh Hunder. induction f as [|x f IH]; cbn [addChildInArray app].
  - now rewrite Hunder.
  - unfold forestGavs in Hfresh. simpl in Hfresh.
    destruct (addChildUnder_spec g node x) as [[Hin _]|[_ ->]].
    + exfalso. apply Hfresh. apply in_or_app. now left.
    + f_equal. apply IH. intros Hin. apply Hfresh. apply in_or_app. now right.
Qed.

Section EitherOrder.

Context `{NodePath}.

(** X26. A module and its parent, both absent from the array, give the
    same array in either order of processing: the array with, at its
    end, the parent as a root with the directory of its descriptor and
    the module as its only child. Processed first, the module makes a
    placeholder for the parent, which the parent then takes over. *)
Theorem addPom_parent_child_either_order (prototypeTree : list PomTree)
    (parentPath childPath parent child : string) :
  parent <> EmptyString ->
  child <> EmptyString ->
  child <> parent ->
  ~ In parent (forestGavs prototypeTree) ->
  ~ In child (forestGavs prototypeTree) ->
  let parentPom := mkResolvedPom parentPath parent EmptyString in
  let childPom := mkResolvedPom childPath child parent in
  let together :=
    prototypeTree ++ [PomNode parent EmptyString (dirname parentPath)
                        [PomNode child parent (dirname childPath) []]] in
  addPom (addPom prototypeTree childPom) parentPom = together
  /\ addPom (addPom prototypeTree parentPom) childPom = together.
Proof.
  intros Hparent Hchild Hdiff Hpfresh Hcfresh parentPom childPom together.
  assert (Hpne : String.eqb parent EmptyString = false) by now apply String.eqb_neq.
  assert (Hproots : ~ In parent (List.map pomGav prototypeTree)).
  { intros Hin. now apply Hpfresh, roots_among_gavs. }
  assert (Hcroots : ~ In child (List.map pomGav prototypeTree)).
  { intros Hin. now apply Hcfresh, roots_among_gavs. }
  assert (Hnone : getPrototypeNode prototypeTree parent = None).
  { destruct (getPrototypeNode_spec prototypeTree parent) as [[Hin _]|[_ Hnone]];
      [contradiction|exact Hnone]. }
  split.
  - rewrite (addPom_made prototypeTree childPom); [|exact Hchild|exact Hcroots].
    unfold addPrototypeNode at 1. cbn [parentGav setPathAndParent childPom rpParentGav].
    rewrite Hpne, Hnone. cbn [negb].
    rewrite (addPom_reused prototypeTree [] _ parentPom); [|exact Hparent|reflexivity|exact Hproots].
    unfold addPrototypeNode. cbn [parentGav setPathAndParent parentPom rpParentGav].
    rewrite String.eqb_refl, app_nil_r. reflexivity.
  - rewrite (addPom_made prototypeTree parentPom); [|exact Hparent|exact Hproots].
    unfold addPrototypeNode at 1. cbn [parentGav setPathAndParent parentPom rpParentGav].
    rewrite String.eqb_refl. cbn [negb].
    rewrite addPom_made; [|exact Hchild|].
    2:{ rewrite map_app. intros Hin. apply in_app_or in Hin as [Hin|[Heq|[]]];
        [contradiction|]. simpl in Heq. now apply Hdiff. }
    unfold addPrototypeNode. cbn [parentGav setPathAndParent childPom rpParentGav].
    rewrite Hpne. cbn [negb].
    destruct (getPrototypeNode_spec
                (prototypeTree ++ [setPathAndParent (newPomTree (rpGav parentPom))
                                     (dirname (rpPath parentPom)) EmptyString]) parent)
      as [[_ (n & -> & _)]|[Hnot _]].
    + erewrite addChildInArray_last; [reflexivity|exact Hpfresh|].
      simpl. now rewrite String.eqb_refl.
    + exfalso. apply Hnot. rewrite forestGavs_app. apply in_or_app. right. now left.
Qed.

End EitherOrder.

Lemma addPom_parent_child_either_order_witness :
  @addPom posixPath (@addPom posixPath [] (mkResolvedPom "/w/a/pom.xml" "g:a:1" "g:p:1"))
         (mkResolvedPom "/w/pom.xml" "g:p:1" EmptyString)
  = [PomNode "g:p:1" EmptyString "/w" [PomNode "g:a:1" "g:p:1" "/w/a" []]]
  /\ @addPom posixPath (@addPom posixPath [] (mkResolvedPom "/w/pom.xml" "g:p:1" EmptyString))
            (mkResolvedPom "/w/a/pom.xml" "g:a:1" "g:p:1")
     = [PomNode "g:p:1" EmptyString "/w" [PomNode "g:a:1" "g:p:1" "/w/a" []]].
Proof.
  apply (@addPom_parent_child_either_order posixPath [] "/w/pom.xml" "/w/a/pom.xml"
           "g:p:1" "g:a:1");
    try discriminate; intros [].
Defined.

Lemma getPrototypeNode_finds_witness :
  getPrototypeNode [PomNode "g:p:1" EmptyString "/w" [PomNode "g:a:1" "g:p:1" "/w/a" []]]
                   "g:b:1" = None.
Proof.
  apply (proj1 (getPrototypeNode_finds
                  [PomNode "g:p:1" EmptyString "/w" [PomNode "g:a:1" "g:p:1" "/w/a" []]]
                  "g:b:1")).
  simpl. intros [Heq|[Heq|[]]]; discriminate Heq.
Defined.
